(** * EmbeddingsManager: the retrieval core of the RAG assistant

    A shallow embedding of [src/embeddings_manager.py].  The Python class
    keeps a FAISS inner-product index next to a list of chunk dictionaries,
    pickles the list, and post-filters search hits by a relevance threshold.

    Modelling choices, all read off the source:
    - chunk dictionaries are mutable shared objects, so they live in a heap
      and every list of chunks is a list of handles into it; a handle
      stands for a chunk dictionary with the metadata dictionary it holds,
      every chunk dictionary holding one of its own, as those made by the
      two ingestion paths and those read back from their snapshots do;
    - a similarity score is an [np.float32] scalar, as FAISS returns it, or
      a Python float; either has an exact rational value.  The comparison
      [score >= self.relevance_threshold] is the one NumPy 2 makes: against
      an [np.float32] the threshold, a Python float, is first rounded to
      [float32];
    - the disk maps the path strings the program forms to files and
      directories, and a file can be written where its directory exists
      (POSIX paths, names told apart character by character);
    - raised exceptions are values of [exn]; every method is a computation
      over the world (manager fields, heap, disk) that yields a value or an
      exception together with the world it leaves behind;
    - the sentence-transformer model and FAISS's search routine are the two
      consumed interfaces, gathered in the class [Backend]. *)

From stdpp Require Import gmap strings list fin_maps.
From Stdlib Require Import Ascii QArith Qround Qpower Lqa.

Open Scope Z_scope.

(** ** Values, chunks and the heap *)

(** A metadata value: [source] is a string, [chunk_id] an integer,
    [relevance_score] a float. *)
Inductive value :=
  | VStr (s : string)
  | VInt (n : Z)
  | VFloat (q : Q).

(** The dictionary [{"text": ..., "metadata": {...}}]. *)
Record chunk := Chunk {
  text : string;
  metadata : gmap string value
}.

Global Instance chunk_inhabited : Inhabited chunk := populate (Chunk "" ∅).

(** Handles are positions in the heap; allocation appends. *)
Abbreviation loc := nat (only parsing).
Abbreviation heap := (list chunk) (only parsing).

(** ** Exceptions *)

Inductive exn :=
  | ValueError (msg : string)
  | IndexError (msg : string)
  | UnpicklingError
  | AttributeError (msg : string)
  | FileNotFoundError (path : string)
  | IsADirectoryError (path : string)
  | NotADirectoryError (path : string)
  | FaissError (msg : string)
  | ModelError (msg : string).

Inductive result (A : Type) :=
  | Ok (a : A)
  | Raise (e : exn).
Arguments Ok {A} a.
Arguments Raise {A} e.

(** ** The consumed primitives: numpy arrays and the FAISS flat index *)

(** A numpy array of floats as the code uses it: its [shape] tuple and its
    rows. *)
Record ndarray := NdArray {
  nd_shape : list nat;
  nd_rows : list (list Q)
}.

(** [faiss.IndexFlatIP(d)]: the dimension and the stored vectors, in the
    order they were added. *)
Record IndexFlatIP := FlatIP {
  d : nat;
  xb : list (list Q)
}.

Definition ntotal (ix : IndexFlatIP) : nat := length (xb ix).

(** [index.add(x)]: append the rows of [x]. *)
Definition index_add (ix : IndexFlatIP) (x : ndarray) : IndexFlatIP :=
  FlatIP (d ix) (xb ix ++ nd_rows x).

(** The interfaces the manager consumes.  [encode texts] is
    [self.model.encode(texts, normalize_embeddings=True)];
    [index_search ix q k] is [ix.search(q, k)], yielding the score matrix
    and the id matrix, one row per query row. *)
Class Backend := {
  encode : list string → result ndarray;
  index_search : IndexFlatIP → ndarray → Z → result (list (list Q) * list (list Z))
}.

(** ** Pickles and the disk *)

(** What [pickle.dump] writes for a list of chunk dictionaries: each
    distinct dictionary once, and the list as positions among them, so that
    a dictionary occurring twice is one object again after loading. *)
Record pickled := Pickled {
  pk_objs : list chunk;
  pk_refs : list nat
}.

(** What a path names: an index written by FAISS, a pickle, or a
    directory. *)
Inductive file :=
  | FaissFile (ix : IndexFlatIP)
  | PickleFile (p : pickled)
  | Directory.

(** ** The manager and the world it runs in *)

Record EmbeddingsManager := Manager {
  index : option IndexFlatIP;
  chunks : option (list loc);
  embeddings_folder : string;
  relevance_threshold : Q
}.

Record world := World {
  self : EmbeddingsManager;
  store : heap;
  disk : gmap string file
}.

(** The float [0.65], exactly. *)
Definition float_0_65 : Q := 5854679515581645 # 9007199254740992.

(** The fields [__init__] sets, the model aside. *)
Definition init_manager : EmbeddingsManager :=
  Manager None None "embeddings" float_0_65.

(** ** Computations *)

Definition M (A : Type) : Type := world → result A * world.

Definition ret {A} (a : A) : M A := λ w, (Ok a, w).
Definition raise {A} (e : exn) : M A := λ w, (Raise e, w).
Definition bind {A B} (m : M A) (k : A → M B) : M B :=
  λ w, match m w with
       | (Ok a, w') => k a w'
       | (Raise e, w') => (Raise e, w')
       end.

Declare Scope comp_scope.
Delimit Scope comp_scope with comp.
Notation "'let*' x := m 'in' k" := (bind m (λ x, k))
  (at level 10, x pattern, m at level 100, k at level 200) : comp_scope.
Notation "m >> k" := (bind m (λ _, k))
  (at level 100, k at level 200, right associativity) : comp_scope.

Definition get_self : M EmbeddingsManager := λ w, (Ok (self w), w).
Definition get_store : M heap := λ w, (Ok (store w), w).
Definition get_disk : M (gmap string file) := λ w, (Ok (disk w), w).
Definition lift {A} (r : result A) : M A := λ w, (r, w).

Definition set_index (ix : IndexFlatIP) : M unit := λ w,
  (Ok (), World (Manager (Some ix) (chunks (self w))
                   (embeddings_folder (self w)) (relevance_threshold (self w)))
             (store w) (disk w)).
Definition set_chunks (cs : list loc) : M unit := λ w,
  (Ok (), World (Manager (index (self w)) (Some cs)
                   (embeddings_folder (self w)) (relevance_threshold (self w)))
             (store w) (disk w)).
Definition set_disk (fs : gmap string file) : M unit := λ w,
  (Ok (), World (self w) (store w) fs).

(** [chunk["metadata"]["relevance_score"] = float(score)] on the
    dictionary behind handle [c]. *)
Definition with_score (score : Q) (o : chunk) : chunk :=
  Chunk (text o) (<["relevance_score" := VFloat score]> (metadata o)).
Definition set_relevance_score (c : loc) (score : Q) : M unit := λ w,
  (Ok (), World (self w) (alter (with_score score) c (store w)) (disk w)).

(** ** Python and numpy primitives *)

(** [l[i]] on a Python list: negative indices count from the end. *)
Definition list_getitem {A} (l : list A) (i : Z) : result A :=
  let n := Z.of_nat (length l) in
  let j := if i <? 0 then i + n else i in
  if (0 <=? j) && (j <? n) then
    match l !! Z.to_nat j with
    | Some x => Ok x
    | None => Raise (IndexError "list index out of range")
    end
  else Raise (IndexError "list index out of range").

(** [a[i]] on a non-negative position of a numpy row. *)
Definition row_getitem {A} (l : list A) (i : nat) : result A :=
  match l !! i with
  | Some x => Ok x
  | None => Raise (IndexError "index out of bounds")
  end.

Definition Qltb (x y : Q) : bool := negb (Qle_bool y x).

(** [np.argmax]: the first position of a greatest entry. *)
Fixpoint argmax_from (best_i : nat) (best : Q) (i : nat) (l : list Q) : nat :=
  match l with
  | [] => best_i
  | x :: l' =>
      if Qltb best x then argmax_from i x (S i) l'
      else argmax_from best_i best (S i) l'
  end.

Definition np_argmax (l : list Q) : result nat :=
  match l with
  | [] => Raise (ValueError "attempt to get argmax of an empty sequence")
  | x :: l' => Ok (argmax_from 0 x 1 l')
  end.

(** ** Scores

    FAISS returns its scores as [np.float32]; a caller of the filter may as
    well pass Python floats. *)

Definition FLT_MAX : Q := 340282346638528859811704183484516925440 # 1.

(** ** Rounding a Python float to [np.float32] *)

Definition pow2 (e : Z) : Q := (2 ^ e)%Q.

(** Round to the nearest integer, ties to even. *)
Definition rne (x : Q) : Z :=
  let f := Qfloor x in
  match (x - inject_Z f ?= 1 # 2)%Q with
  | Lt => f
  | Gt => f + 1
  | Eq => if Z.even f then f else f + 1
  end.

(** The exponent [e], from [e0] upwards, of the binade [x < 2^(e+1)] that
    holds [x]; the least one also holds the subnormal numbers. *)
Fixpoint binade (fuel : nat) (e : Z) (x : Q) : option Z :=
  match fuel with
  | O => None
  | S fuel' =>
      if Qltb x (pow2 (e + 1)) then Some e else binade fuel' (e + 1) x
  end.

(** [np.float32(x)] for [0 <= x]: the nearest multiple of the binade's
    spacing, ties to even; [None] is [inf]. *)
Definition round_in_binade (x : Q) (e : Z) : Q :=
  let ulp := pow2 (e - 23) in (inject_Z (rne (x / ulp)) * ulp)%Q.

Definition round32_abs (x : Q) : option Q :=
  match binade 254 (-126) x with
  | None => None
  | Some e =>
      let r := round_in_binade x e in
      if Qle_bool r FLT_MAX then Some r else None
  end.

Inductive float32 :=
  | Finite32 (q : Q)
  | Inf32 (negative : bool).

Definition np_float32 (x : Q) : float32 :=
  if Qltb x 0 then
    match round32_abs (- x) with
    | Some r => Finite32 (- r)
    | None => Inf32 true
    end
  else
    match round32_abs x with
    | Some r => Finite32 r
    | None => Inf32 false
    end.

(** [a <= q] for a float32 [a] and a finite [q]. *)
Definition float32_le (a : float32) (q : Q) : bool :=
  match a with
  | Finite32 r => Qle_bool r q
  | Inf32 negative => negative
  end.

(** A score, with its exact value. *)
Inductive score :=
  | NpFloat32 (q : Q)
  | PyFloat (q : Q).

(** [float(score)]. *)
Definition to_float (s : score) : Q :=
  match s with NpFloat32 q | PyFloat q => q end.

(** [score >= threshold] for a Python float [threshold]: two Python floats
    compare by value; against an [np.float32] NumPy converts the Python
    float to [float32] and compares there. *)
Definition score_ge (s : score) (threshold : Q) : bool :=
  match s with
  | PyFloat q => Qle_bool threshold q
  | NpFloat32 q => float32_le (np_float32 threshold) q
  end.

(** ** [filter_relevant_chunks] *)

Open Scope comp_scope.

(** The loop over [zip(chunks, scores)], which stops at the shorter list;
    [relevant] is the list built so far. *)
Fixpoint filter_loop (pairs : list (loc * score)) (relevant : list loc)
  : M (list loc) :=
  match pairs with
  | [] => ret relevant
  | (chunk, score) :: rest =>
      let* me := get_self in
      if score_ge score (relevance_threshold me) then
        set_relevance_score chunk (to_float score) >>
        filter_loop rest (relevant ++ [chunk])
      else filter_loop rest relevant
  end.

Definition filter_relevant_chunks (query : string) (chunks : list loc)
    (scores : list score) : M (list loc) :=
  match chunks with
  | [] => ret []
  | _ =>
      let* relevant := filter_loop (zip chunks scores) [] in
      match relevant with
      | [] =>
          let* top_idx := lift (np_argmax (to_float <$> scores)) in
          let* s := lift (list_getitem scores (Z.of_nat top_idx)) in
          let* top := lift (list_getitem chunks (Z.of_nat top_idx)) in
          set_relevance_score top (to_float s) >>
          ret [top]
      | _ => ret relevant
      end
  end.

(** ** Paths *)

Fixpoint ends_with_slash (s : string) : bool :=
  match s with
  | EmptyString => false
  | String c EmptyString => if decide (c = "/"%char) then true else false
  | String _ s' => ends_with_slash s'
  end.

Definition is_absolute (p : string) : bool :=
  match p with
  | EmptyString => false
  | String c _ => if decide (c = "/"%char) then true else false
  end.

(** [os.path.join(a, b)] on POSIX: an absolute [b] discards [a]. *)
Definition path_join (a b : string) : string :=
  if is_absolute b then b
  else
    match a with
    | EmptyString => b
    | _ => if ends_with_slash a then a +:+ b else a +:+ "/" +:+ b
    end.

Definition index_path_of (folder filename_prefix : string) : string :=
  path_join folder (filename_prefix +:+ "_index.faiss").
Definition chunks_path_of (folder filename_prefix : string) : string :=
  path_join folder (filename_prefix +:+ "_chunks.pkl").

(** [os.path.exists]. *)
Definition path_exists (fs : gmap string file) (path : string) : bool :=
  bool_decide (is_Some (fs !! path)).

(** [os.path.dirname]: the path up to its last slash, without the slashes
    that end it unless it consists of slashes. *)
Fixpoint has_slash (s : string) : bool :=
  match s with
  | EmptyString => false
  | String c s' => if decide (c = "/"%char) then true else has_slash s'
  end.

Fixpoint upto_last_slash (s : string) : string :=
  match s with
  | EmptyString => EmptyString
  | String c s' =>
      if has_slash s then String c (upto_last_slash s') else EmptyString
  end.

Fixpoint all_slashes (s : string) : bool :=
  match s with
  | EmptyString => true
  | String c s' => if decide (c = "/"%char) then all_slashes s' else false
  end.

Fixpoint rstrip_slashes (s : string) : string :=
  match s with
  | EmptyString => EmptyString
  | String c s' =>
      if all_slashes s then EmptyString else String c (rstrip_slashes s')
  end.

Definition dirname (path : string) : string :=
  let head := upto_last_slash path in
  if all_slashes head then head else rstrip_slashes head.

(** Opening [path] for writing: it must not name a directory, and the
    directory it lies in must exist; the current directory (the empty
    [dirname]) and the root do. *)
Definition open_for_writing (fs : gmap string file) (path : string)
  : result unit :=
  match fs !! path with
  | Some Directory => Raise (IsADirectoryError path)
  | _ =>
      if all_slashes (dirname path) then Ok ()
      else
        match fs !! dirname path with
        | Some Directory => Ok ()
        | Some _ => Raise (NotADirectoryError path)
        | None => Raise (FileNotFoundError path)
        end
  end.

Definition can_write (fs : gmap string file) (path : string) : bool :=
  match open_for_writing fs path with
  | Ok _ => true
  | Raise _ => false
  end.

(** [faiss.write_index(ix, path)]; FAISS reports a file it cannot open as
    its own error. *)
Definition write_index (ix : IndexFlatIP) (path : string) : M unit :=
  let* fs := get_disk in
  match open_for_writing fs path with
  | Ok _ => set_disk (<[path := FaissFile ix]> fs)
  | Raise _ => raise (FaissError "could not open file for writing")
  end.

(** [os.makedirs(folder)] guarded by [if not os.path.exists(folder)], as
    [__init__] runs it. *)
Definition ensure_folder (folder : string) : M unit :=
  let* fs := get_disk in
  if path_exists fs folder then ret ()
  else set_disk (<[folder := Directory]> fs).

(** ** Pickling *)

(** Position of the first occurrence of [x] in [l]. *)
Fixpoint index_of (x : nat) (l : list nat) : nat :=
  match l with
  | [] => 0%nat
  | y :: l' => if decide (x = y) then 0%nat else S (index_of x l')
  end.

(** [pickle.dump(cs, f)]: the object graph behind [cs] by value. *)
Definition pickle_dump (σ : heap) (cs : list loc) : pickled :=
  let objs := remove_dups cs in
  Pickled ((λ c, σ !!! c) <$> objs) ((λ c, index_of c objs) <$> cs).

Definition pickle_wf (p : pickled) : bool :=
  forallb (λ i, bool_decide (i < length (pk_objs p))%nat) (pk_refs p).

(** [pickle.load(f)]: fresh dictionaries for the pickled objects, then the
    list of handles to them. *)
Definition pickle_load (path : string) : M (list loc) := λ w,
  match disk w !! path with
  | None => (Raise (FileNotFoundError path), w)
  | Some Directory => (Raise (IsADirectoryError path), w)
  | Some (FaissFile _) => (Raise UnpicklingError, w)
  | Some (PickleFile p) =>
      if pickle_wf p then
        (Ok ((λ i, length (store w) + i)%nat <$> pk_refs p),
         World (self w) (store w ++ pk_objs p) (disk w))
      else (Raise UnpicklingError, w)
  end.

(** [faiss.read_index(path)]. *)
Definition read_index (path : string) : M IndexFlatIP :=
  let* fs := get_disk in
  match fs !! path with
  | Some (FaissFile ix) => ret ix
  | Some (PickleFile _) => raise (FaissError "not a faiss index")
  | Some Directory => raise (FaissError "could not read file")
  | None => raise (FaissError "could not open file")
  end.

(** [with open(path, "wb") as f: pickle.dump(cs, f)]. *)
Definition pickle_dump_to (cs : list loc) (path : string) : M unit :=
  let* fs := get_disk in
  lift (open_for_writing fs path) >>
  let* σ := get_store in
  set_disk (<[path := PickleFile (pickle_dump σ cs)]> fs).

(** ** The [EmbeddingsManager] methods *)

Section Methods.
Context `{Backend}.

(** [embeddings.shape[i]]. *)
Definition shape_getitem (a : ndarray) (i : nat) : result nat :=
  match nd_shape a !! i with
  | Some n => Ok n
  | None => Raise (IndexError "tuple index out of range")
  end.

(** [self.index.add(x)]. *)
Definition self_index_add (x : ndarray) : M unit :=
  let* me := get_self in
  match index me with
  | Some ix => set_index (index_add ix x)
  | None => raise (AttributeError "'NoneType' object has no attribute 'add'")
  end.

Definition create_embeddings (chunks : list loc) : M ndarray :=
  set_chunks chunks >>
  let* σ := get_store in
  let texts := (λ c, text (σ !!! c)) <$> chunks in
  let* embeddings := lift (encode texts) in
  let* dimension := lift (shape_getitem embeddings 1) in
  set_index (FlatIP dimension []) >>
  self_index_add embeddings >>
  ret embeddings.

Definition save_embeddings (filename_prefix : string) : M (string * string) :=
  let* me := get_self in
  match index me, chunks me with
  | Some ix, Some cs =>
      let index_path := index_path_of (embeddings_folder me) filename_prefix in
      write_index ix index_path >>
      let chunks_path := chunks_path_of (embeddings_folder me) filename_prefix in
      pickle_dump_to cs chunks_path >>
      ret (index_path, chunks_path)
  | _, _ => raise (ValueError "No embeddings or chunks to save")
  end.

Definition load_embeddings (filename_prefix : string) : M bool :=
  let* me := get_self in
  let index_path := index_path_of (embeddings_folder me) filename_prefix in
  let chunks_path := chunks_path_of (embeddings_folder me) filename_prefix in
  let* fs := get_disk in
  if negb (path_exists fs index_path) || negb (path_exists fs chunks_path)
  then ret false
  else
    let* ix := read_index index_path in
    set_index ix >>
    let* cs := pickle_load chunks_path in
    set_chunks cs >>
    ret true.

(** The loop of [combine_embeddings]; [None] is the [return False] taken
    inside it. *)
Fixpoint combine_loop (sources : list string) (all_chunks : list loc)
  : M (option (list loc)) :=
  match sources with
  | [] => ret (Some all_chunks)
  | source :: rest =>
      let* me := get_self in
      let chunks_path := chunks_path_of (embeddings_folder me) source in
      let* fs := get_disk in
      if negb (path_exists fs chunks_path) then ret None
      else
        let* chunks := pickle_load chunks_path in
        combine_loop rest (all_chunks ++ chunks)
  end.

Definition combine_embeddings (sources : list string) : M bool :=
  let* r := combine_loop sources [] in
  match r with
  | None => ret false
  | Some all_chunks =>
      create_embeddings all_chunks >>
      save_embeddings "university_combined" >>
      ret true
  end.

(** The loop over [enumerate(indices[0])] of [search_similar_chunks];
    [cs] is [self.chunks], [scores] the score matrix. *)
Fixpoint search_loop (cs : list loc) (scores : list (list Q)) (i : nat)
    (ids : list Z) (results : list loc) (result_scores : list score)
  : result (list loc * list score) :=
  match ids with
  | [] => Ok (results, result_scores)
  | idx :: rest =>
      if idx <? Z.of_nat (length cs) then
        match list_getitem cs idx with
        | Raise e => Raise e
        | Ok c =>
            match row_getitem scores 0 with
            | Raise e => Raise e
            | Ok row =>
                match row_getitem row i with
                | Raise e => Raise e
                | Ok s =>
                    search_loop cs scores (S i) rest
                      (results ++ [c]) (result_scores ++ [NpFloat32 s])
                end
            end
        end
      else search_loop cs scores (S i) rest results result_scores
  end.

Definition search_similar_chunks (query : string) (k : Z) : M (list loc) :=
  let* me := get_self in
  match index me, chunks me with
  | Some ix, Some cs =>
      let* query_embedding := lift (encode [query]) in
      let* (scores, indices) := lift (index_search ix query_embedding k) in
      let* ids := lift (row_getitem indices 0) in
      let* (results, result_scores) :=
        lift (search_loop cs scores 0 ids [] []) in
      filter_relevant_chunks query results result_scores
  | _, _ => raise (ValueError "Index or chunks not loaded")
  end.

End Methods.

(** ** A reference backend

    A table-driven encoder and the exact inner-product search of
    [IndexFlatIP]: the [k] best stored vectors by decreasing inner product,
    padded with id [-1] when fewer than [k] vectors are stored. *)

Definition dot (u v : list Q) : Q :=
  Qred (foldr Qplus (0 # 1) (zip_with Qmult u v)).

Fixpoint table_lookup (table : list (string * list Q)) (t : string)
  : option (list Q) :=
  match table with
  | [] => None
  | (t', v) :: table' =>
      if decide (t = t') then Some v else table_lookup table' t
  end.

Definition table_encode (table : list (string * list Q))
    (texts : list string) : result ndarray :=
  match mapM (table_lookup table) texts with
  | None => Raise (ModelError "encode failed")
  | Some [] => Ok (NdArray [0%nat] [])
  | Some (r :: rows) => Ok (NdArray [S (length rows); length r] (r :: rows))
  end.

Fixpoint insert_desc (x : Q * Z) (l : list (Q * Z)) : list (Q * Z) :=
  match l with
  | [] => [x]
  | y :: l' => if Qltb (fst y) (fst x) then x :: l else y :: insert_desc x l'
  end.

Definition rank_desc (l : list (Q * Z)) : list (Q * Z) :=
  foldl (λ acc x, insert_desc x acc) [] l.

Definition top_k (k : nat) (l : list (Q * Z)) : list (Q * Z) :=
  take k l ++ replicate (k - length l) (Qopp FLT_MAX, -1).

Definition flat_ip_search (ix : IndexFlatIP) (q : ndarray) (k : Z)
  : result (list (list Q) * list (list Z)) :=
  if k <=? 0 then Raise (FaissError "k > 0")
  else
    let hits := (λ qv, top_k (Z.to_nat k)
                   (rank_desc (imap (λ i v, (dot qv v, Z.of_nat i)) (xb ix))))
                <$> nd_rows q in
    Ok (fmap fst <$> hits, fmap snd <$> hits).

Definition reference_backend (table : list (string * list Q)) : Backend :=
  {| encode := table_encode table; index_search := flat_ip_search |}.

(** * Properties *)

(** ** Reading the heap *)

(** [chunk["metadata"].get("relevance_score")] behind handle [c]. *)
Definition relevance_score (σ : heap) (c : loc) : option Q :=
  match σ !! c with
  | Some o =>
      match metadata o !! "relevance_score" with
      | Some (VFloat s) => Some s
      | _ => None
      end
  | None => None
  end.

(** Every handle of [cs] points into [σ]. *)
Definition live (σ : heap) (cs : list loc) : Prop :=
  Forall (λ c, c < length σ)%nat cs.

(** What a chunk is apart from its relevance score. *)
Definition persistent_part (o : chunk) : string * gmap string value :=
  (text o, delete "relevance_score" (metadata o)).

(** The heap after the writes [c.relevance_score = s] for the pairs of
    [kept], first to last. *)
Definition mark_all (σ : heap) (kept : list (loc * score)) : heap :=
  foldl (λ σ p, alter (with_score (to_float (snd p))) (fst p) σ) σ kept.

(** The candidates that pass the comparison with the threshold. *)
Definition clearing (thr : Q) (pairs : list (loc * score))
  : list (loc * score) :=
  List.filter (λ p, score_ge (snd p) thr) pairs.

(** [i] is the first position of a greatest entry of [l], which is [s]. *)
Definition first_max (l : list Q) (i : nat) (s : Q) : Prop :=
  l !! i = Some s ∧
  (∀ j s', l !! j = Some s' → (s' <= s)%Q) ∧
  (∀ j s', (j < i)%nat → l !! j = Some s' → (s' < s)%Q).

(** [w'] differs from [w] by relevance marks at most: same manager fields,
    same disk, same heap size, and every stored chunk keeps its text and
    its metadata apart from [relevance_score]. *)
Definition marks_only (w w' : world) : Prop :=
  self w' = self w ∧
  disk w' = disk w ∧
  length (store w') = length (store w) ∧
  ∀ c : loc, persistent_part <$> store w' !! c = persistent_part <$> store w !! c.

(** One [D]-vector per input, as a two-dimensional array. *)
Definition well_shaped (n : nat) (a : ndarray) : Prop :=
  ∃ D, nd_shape a = [n; D] ∧ length (nd_rows a) = n.

(** The texts [create_embeddings] hands to the encoder. *)
Definition texts_of (σ : heap) (cs : list loc) : list string :=
  (λ c, text (σ !!! c)) <$> cs.

(** The manager after the assignments of a completed build. *)
Definition built (m : EmbeddingsManager) (cs : list loc) (ix : IndexFlatIP)
  : EmbeddingsManager :=
  Manager (Some ix) (Some cs) (embeddings_folder m) (relevance_threshold m).

(** The manager after [self.chunks = chunks] alone. *)
Definition chunks_assigned (m : EmbeddingsManager) (cs : list loc)
  : EmbeddingsManager :=
  Manager (index m) (Some cs) (embeddings_folder m) (relevance_threshold m).


(** The chunks behind a list of handles, in order. *)
Definition contents (σ : heap) (cs : list loc) : list (option chunk) :=
  (λ c, σ !! c) <$> cs.

(** The chunk sequence a pickle stands for. *)
Definition pk_contents (p : pickled) : list chunk :=
  (λ i, pk_objs p !!! i) <$> pk_refs p.

(** The handles obtained by loading the pickles [ps] one after the other
    into a heap of size [base]. *)
Fixpoint loaded_handles (base : nat) (ps : list pickled) : list loc :=
  match ps with
  | [] => []
  | p :: ps' =>
      ((λ i, base + i)%nat <$> pk_refs p)
      ++ loaded_handles (base + length (pk_objs p)) ps'
  end.

(** The chunk artifact of [source], as [combine_embeddings] looks it up. *)
Definition chunk_artifact (w : world) (source : string) : option file :=
  disk w !! chunks_path_of (embeddings_folder (self w)) source.

(** A file that [pickle.load] reads as a chunk list. *)
Definition readable (f : file) : Prop :=
  ∃ p, f = PickleFile p ∧ pickle_wf p = true.

(** ** Sample data *)

Definition pdf_meta (source : string) (chunk_id : Z) : gmap string value :=
  <["source" := VStr source]>
    (<["chunk_id" := VInt chunk_id]> (<["type" := VStr "pdf"]> ∅)).

Definition web_meta (source : string) (chunk_id : Z) : gmap string value :=
  <["source" := VStr source]>
    (<["chunk_id" := VInt chunk_id]> (<["type" := VStr "web"]> ∅)).

Definition sample_heap : list chunk :=
  [ Chunk "alpha" (pdf_meta "a.pdf" 0);
    Chunk "beta" (pdf_meta "a.pdf" 1);
    Chunk "gamma" (web_meta "http://u.edu" 0);
    Chunk "delta" (web_meta "http://u.edu" 1) ].

(** Unit vectors, so that inner products are cosines: against the query
    ["q"] the three sample texts score 1, 3/5 and 0; ["dim"] scores 1/2
    against ["q"].  The text ["delta"] is unknown to the encoder. *)
Definition sample_table : list (string * list Q) :=
  [ ("alpha", [1 # 1; 0 # 1]);
    ("beta", [3 # 5; 4 # 5]);
    ("gamma", [0 # 1; 1 # 1]);
    ("q", [1 # 1; 0 # 1]);
    ("dim", [1 # 2; 1 # 2]) ].

Definition sample_backend : Backend := reference_backend sample_table.

(** The world a first [EmbeddingsManager()] leaves on an empty disk: the
    folder exists and nothing is in it. *)
Definition fresh_world (σ : list chunk) : world :=
  World init_manager σ {["embeddings" := Directory]}.

(** Two source snapshots' chunk artifacts: ["a"] with two chunks, ["b"]
    with three. *)
Definition sources_disk : gmap string file :=
  <["embeddings/a_chunks.pkl" :=
      PickleFile (pickle_dump sample_heap [0; 1]%nat)]>
    (<["embeddings/b_chunks.pkl" :=
         PickleFile (pickle_dump sample_heap [2; 0; 1]%nat)]>
       {["embeddings" := Directory]}).

Definition sources_world : world := World init_manager [] sources_disk.

(** What the sample encoder returns for the five combined texts. *)
Definition combined_embeddings : ndarray :=
  NdArray [5; 2]%nat
    [[1 # 1; 0 # 1]; [3 # 5; 4 # 5]; [0 # 1; 1 # 1]; [1 # 1; 0 # 1]; [3 # 5; 4 # 5]].

(** A mismatched snapshot under the prefix ["kb"]: three pickled chunks
    next to an index file that holds no vector. *)
Definition stale_disk : gmap string file :=
  <["embeddings/kb_index.faiss" := FaissFile (FlatIP 2 [])]>
    (<["embeddings/kb_chunks.pkl" :=
         PickleFile (pickle_dump sample_heap [0; 1; 2]%nat)]>
       {["embeddings" := Directory]}).

(** * Further code of the repository *)

(** ** The rest of [EmbeddingsManager] *)

(** [chunk["metadata"].get("type") == source_type]: a missing key gives
    [None], and a value that is no string is unequal to any string. *)
Definition has_type (source_type : string) (o : chunk) : bool :=
  match metadata o !! "type" with
  | Some (VStr t) => bool_decide (t = source_type)
  | _ => false
  end.

(** The comprehension [[chunk for chunk in cs if chunk["metadata"].get("type")
    == source_type]] over the dictionaries of the heap. *)
Definition of_type (σ : heap) (source_type : string) (cs : list loc)
  : list loc :=
  List.filter (λ c, has_type source_type (σ !!! c)) cs.

Definition get_chunks_by_source_type (source_type : string) : M (list loc) :=
  let* me := get_self in
  match chunks me with
  | None => ret []
  | Some [] => ret []
  | Some cs =>
      let* σ := get_store in
      ret (of_type σ source_type cs)
  end.

(** The assignment [embeddings_manager.relevance_threshold = new_threshold]
    that the settings slider of [app.py] makes. *)
Definition set_relevance_threshold (new_threshold : Q) : M unit := λ w,
  (Ok (), World (Manager (index (self w)) (chunks (self w))
                   (embeddings_folder (self w)) new_threshold)
             (store w) (disk w)).

(** ** Python strings *)

(** The [str] methods whose result depends on the Unicode tables:
    [s.lower()] and [s.strip()]. *)
Class StrMethods := {
  str_lower : string → string;
  str_strip : string → string
}.

(** [needle in hay] on strings: [needle] occurs in [hay].  On UTF-8 text
    an occurrence of bytes is an occurrence of characters. *)
Fixpoint str_in (needle hay : string) : bool :=
  if String.prefix needle hay then true
  else
    match hay with
    | EmptyString => false
    | String _ hay' => str_in needle hay'
    end.

(** ** The caller in [app.py] *)

Section Retrieval.
Context `{Backend}.

(** The chunks handed to the generator for the selected data source
    (["all"], ["pdf"], anything else meaning the website). *)
Definition relevant_chunks_for (data_source prompt : string) : M (list loc) :=
  if decide (data_source = "all") then search_similar_chunks prompt 20
  else if decide (data_source = "pdf") then
    let* all_chunks := search_similar_chunks prompt 30 in
    let* σ := get_store in
    ret (take 15 (of_type σ "pdf" all_chunks))
  else
    let* all_chunks := search_similar_chunks prompt 30 in
    let* σ := get_store in
    ret (take 15 (of_type σ "web" all_chunks)).

End Retrieval.

(** ** The relevance test of [GeminiAPI] *)

(** An exception of the chat layer. *)
Inductive chat_exn :=
  | TypeError (msg : string)
  | KeyError (key : string).

Inductive outcome (A : Type) :=
  | Returns (a : A)
  | Throws (e : chat_exn).
Arguments Returns {A} a.
Arguments Throws {A} e.

(** The floats [0.2] and [0.15], exactly. *)
Definition float_0_2 : Q := 3602879701896397 # 18014398509481984.
Definition float_0_15 : Q := 5404319552844595 # 36028797018963968.

(** [c.get("metadata", {}).get("relevance_score", 0) > bound]: a missing
    score counts as 0, an integer compares by value, a string does not
    compare with a float. *)
Definition score_above (bound : Q) (o : chunk) : outcome bool :=
  match metadata o !! "relevance_score" with
  | None => Returns (Qltb bound (0 # 1))
  | Some (VFloat q) => Returns (Qltb bound q)
  | Some (VInt n) => Returns (Qltb bound (inject_Z n))
  | Some (VStr _) =>
      Throws (TypeError "'>' not supported between instances of 'str' and 'float'")
  end.

(** The comprehension [[c for c in context if ... > bound]]. *)
Fixpoint chunks_above (σ : heap) (bound : Q) (context : list loc)
  : outcome (list loc) :=
  match context with
  | [] => Returns []
  | c :: rest =>
      match score_above bound (σ !!! c) with
      | Throws e => Throws e
      | Returns b =>
          match chunks_above σ bound rest with
          | Throws e => Throws e
          | Returns l => Returns (if b then c :: l else l)
          end
      end
  end.

Definition university_terms : list string :=
  [ "fee"; "admission"; "course"; "program"; "semester"; "credit"; "degree";
    "department"; "faculty"; "student"; "registration"; "enrollment";
    "scholarship"; "hostel"; "campus"; "library"; "exam"; "grade"; "cgpa";
    "gpa"; "transcript"; "deadline"; "requirement"; "eligibility"; "criteria";
    "process"; "procedure"; "form"; "application"; "document"; "certificate";
    "convocation"; "graduation"; "schedule"; "timetable"; "class"; "lecture";
    "lab"; "project"; "thesis"; "tuition"; "payment"; "challan"; "withdraw";
    "drop"; "add"; "change"; "professor"; "instructor"; "advisor";
    "counselor"; "office"; "contact" ].

Section Chat.
Context `{StrMethods}.

(** [GeminiAPI._is_contextual_match], reading the chunks of [context] in
    the heap [σ]. *)
Definition is_contextual_match (σ : heap) (question : string)
    (context : list loc) : outcome bool :=
  match context with
  | [] => Returns false
  | _ =>
      let question_lower := str_lower question in
      let has_university_terms :=
        existsb (λ term, str_in term question_lower) university_terms in
      match chunks_above σ float_0_2 context with
      | Throws e => Throws e
      | Returns high_relevance_chunks =>
          match chunks_above σ float_0_15 context with
          | Throws e => Throws e
          | Returns medium_relevance_chunks =>
              if bool_decide (1 ≤ length high_relevance_chunks)%nat then
                Returns true
              else if bool_decide (2 ≤ length medium_relevance_chunks)%nat
                      && has_university_terms then Returns true
              else if bool_decide (3 ≤ length context)%nat
                      && has_university_terms then Returns true
              else Returns false
          end
      end
  end.

End Chat.

(** ** Small talk: [GeminiAPI._handle_small_talk] *)

(** [s.startswith(prefix)]. *)
Definition str_startswith (prefix s : string) : bool := String.prefix prefix s.

(** [d[key]] on a dictionary literal. *)
Fixpoint dict_getitem {A} (d : list (string * A)) (key : string) : outcome A :=
  match d with
  | [] => Throws (KeyError key)
  | (k, v) :: d' => if decide (key = k) then Returns v else dict_getitem d' key
  end.

Definition greeting_phrases : list string :=
  [ "hi"; "hello"; "hey"; "greetings"; "good morning"; "good afternoon";
    "good evening"; "how are you"; "what's up"; "nice to meet you";
    "how's it going"; "howdy" ].

Definition greeting_response : string :=
  "Hey! How's it going? What would you like to know about university matters?".

Definition small_talk_patterns : list (string * list string) :=
  [ ("thanks", ["thank"; "thanks"; "thank you"; "appreciate"]);
    ("goodbye", ["bye"; "goodbye"; "see you"; "farewell"; "good night"]);
    ("help", ["help me"; "assist"; "support"; "guidance"]);
    ("capabilities", ["what can you do"; "how can you help"; "your capabilities"]);
    ("identity", ["who are you"; "what are you"; "your name"]) ].

Definition thanks_response : string :=
  "You're welcome! Feel free to ask if you need anything else.".
Definition goodbye_response : string :=
  "Goodbye! Come back anytime you have questions.".
Definition help_response : string :=
  "I can help with university admissions, fees, courses, campus facilities, procedures, and more. What do you need?".
Definition capabilities_response : string :=
  "I can answer questions about university admissions, fee structures, courses, campus life, procedures, and academic policies. How can I assist you?".
Definition identity_response : string :=
  "I'm your university assistant chatbot, here to help with all your questions about university procedures, admissions, courses, and more. What would you like to know?".

Definition responses : list (string * string) :=
  [ ("thanks", thanks_response);
    ("goodbye", goodbye_response);
    ("help", help_response);
    ("capabilities", capabilities_response);
    ("identity", identity_response) ].

(** The loop over [small_talk_patterns.items()]. *)
Fixpoint small_talk_loop (question_lower : string)
    (items : list (string * list string)) : outcome (option string) :=
  match items with
  | [] => Returns None
  | (category, phrases) :: rest =>
      if existsb (λ phrase, str_in phrase question_lower) phrases then
        match dict_getitem responses category with
        | Returns r => Returns (Some r)
        | Throws e => Throws e
        end
      else small_talk_loop question_lower rest
  end.

Definition is_greeting (question_lower : string) : bool :=
  existsb (λ phrase, bool_decide (question_lower = phrase)
                     || str_startswith (phrase +:+ " ") question_lower)
    greeting_phrases.

Section SmallTalk.
Context `{StrMethods}.

(** [GeminiAPI._handle_small_talk]. *)
Definition handle_small_talk (question : string) : outcome (option string) :=
  let question_lower := str_strip (str_lower question) in
  if is_greeting question_lower then Returns (Some greeting_response)
  else small_talk_loop question_lower small_talk_patterns.

End SmallTalk.

(** ** Ingestion: [pdf_loader.py], [web_scraper.py], [process_pdfs.py] *)

(** The file system and PDF library as [load_pdfs_from_directory] uses
    them: [os_walk d] lists each directory under [d] with its files, in walk
    order; [pdf_page_texts path] opens the file, builds the reader and
    extracts the text of every page, raising if any of these steps does. *)
Class PdfIO := {
  os_walk : string → list (string * list string);
  pdf_page_texts : string → result (list string)
}.

(** The text splitter of LangChain.  [new_splitter chunk_size
    chunk_overlap] is the constructor call
    [RecursiveCharacterTextSplitter(chunk_size=..., chunk_overlap=...,
    length_function=len)], which checks its arguments, and [split_text] the
    method of the splitter it returns.  The constructor accepts a positive
    size with an overlap up to it, and refuses an overlap above the size
    with a [ValueError]. *)
Class TextSplitter := {
  new_splitter : nat → nat → result unit;
  split_text : nat → nat → string → list string;
  new_splitter_accepts chunk_size chunk_overlap :
    (0 < chunk_size)%nat → (chunk_overlap ≤ chunk_size)%nat →
    new_splitter chunk_size chunk_overlap = Ok ();
  new_splitter_refuses chunk_size chunk_overlap :
    (chunk_size < chunk_overlap)%nat →
    ∃ msg, new_splitter chunk_size chunk_overlap = Raise (ValueError msg)
}.

(** One scraped page, as [scrape_url] returns it. *)
Record scraped := Scraped {
  url : string;
  page_text : string;
  status : string
}.

(** [WebScraper.scrape_urls_from_file], which fetches over the network. *)
Class Scraper := {
  scrape_urls_from_file : string → list scraped
}.

(** [d[k] = v] on a Python dictionary, kept as its items in insertion
    order: an existing key keeps its place. *)
Fixpoint dict_set {V} (k : string) (v : V) (d : list (string * V))
  : list (string * V) :=
  match d with
  | [] => [(k, v)]
  | (k', v') :: d' =>
      if decide (k = k') then (k, v) :: d' else (k', v') :: dict_set k v d'
  end.

(** [s.endswith(suffix)]. *)
Definition str_endswith (suffix s : string) : bool :=
  String.prefix (String.rev suffix) (String.rev s).

(** A new dictionary on the heap. *)
Definition alloc_chunk (o : chunk) : M loc := λ w,
  (Ok (length (store w)), World (self w) (store w ++ [o]) (disk w)).

(** The loop [for i, chunk in enumerate(chunks): all_chunks.append({...})],
    from position [i] on; [make i text] is the dictionary literal. *)
Fixpoint append_chunks (make : nat → string → chunk) (i : nat)
    (texts : list string) (all_chunks : list loc) : M (list loc) :=
  match texts with
  | [] => ret all_chunks
  | t :: rest =>
      let* c := alloc_chunk (make i t) in
      append_chunks make (S i) rest (all_chunks ++ [c])
  end.

Definition pdf_chunk (filename : string) (i : nat) (t : string) : chunk :=
  Chunk t (pdf_meta filename (Z.of_nat i)).

Definition web_chunk (source : string) (i : nat) (t : string) : chunk :=
  Chunk t (web_meta source (Z.of_nat i)).

Section Ingestion.
Context `{StrMethods} `{PdfIO} `{TextSplitter} `{Scraper} `{Backend}.

(** The body of the two loops of [load_pdfs_from_directory] for one
    file. *)
Definition load_pdf (root file : string) (pdf_contents : list (string * string))
  : list (string * string) :=
  if str_endswith ".pdf" (str_lower file) then
    let file_path := path_join root file in
    match pdf_page_texts file_path with
    | Raise _ => pdf_contents
    | Ok pages =>
        let text := foldl String.append "" pages in
        match str_strip text with
        | EmptyString => pdf_contents
        | _ => dict_set file text pdf_contents
        end
    end
  else pdf_contents.

Definition load_pdfs_from_directory (directory_path : string)
  : list (string * string) :=
  foldl (λ pdf_contents entry,
           foldl (λ pdf_contents file, load_pdf (fst entry) file pdf_contents)
                 pdf_contents (snd entry))
        [] (os_walk directory_path).

Definition split_text_into_chunks (text : string) (chunk_size chunk_overlap : nat)
  : result (list string) :=
  match new_splitter chunk_size chunk_overlap with
  | Ok _ => Ok (split_text chunk_size chunk_overlap text)
  | Raise e => Raise e
  end.

(** The loop over [pdf_contents.items()] of [process_pdf_directory]. *)
Fixpoint process_pdf_items (items : list (string * string))
    (chunk_size chunk_overlap : nat) (all_chunks : list loc) : M (list loc) :=
  match items with
  | [] => ret all_chunks
  | (filename, content) :: rest =>
      let* chunks :=
        lift (split_text_into_chunks content chunk_size chunk_overlap) in
      let* all_chunks := append_chunks (pdf_chunk filename) 0 chunks all_chunks in
      process_pdf_items rest chunk_size chunk_overlap all_chunks
  end.

Definition process_pdf_directory (directory_path : string)
    (chunk_size chunk_overlap : nat) : M (list loc) :=
  process_pdf_items (load_pdfs_from_directory directory_path)
    chunk_size chunk_overlap [].

(** The loop of [WebScraper.split_into_chunks], from the list built so
    far; the splitter was made before it. *)
Fixpoint split_into_chunks_from (scraped_data : list scraped)
    (chunk_size chunk_overlap : nat) (all_chunks : list loc) : M (list loc) :=
  match scraped_data with
  | [] => ret all_chunks
  | item :: rest =>
      if decide (status item = "success") then
        let chunks := split_text chunk_size chunk_overlap (page_text item) in
        let* all_chunks := append_chunks (web_chunk (url item)) 0 chunks all_chunks in
        split_into_chunks_from rest chunk_size chunk_overlap all_chunks
      else split_into_chunks_from rest chunk_size chunk_overlap all_chunks
  end.

Definition split_into_chunks (scraped_data : list scraped)
    (chunk_size chunk_overlap : nat) : M (list loc) :=
  lift (new_splitter chunk_size chunk_overlap) >>
  split_into_chunks_from scraped_data chunk_size chunk_overlap [].

(** [web_scraper.main]. *)
Definition process_web_links (links_file : string)
    (chunk_size chunk_overlap : nat) : M (list loc) :=
  let scraped_data := scrape_urls_from_file links_file in
  split_into_chunks scraped_data chunk_size chunk_overlap.

(** [EmbeddingsManager(...)]: a manager as [__init__] leaves it takes the
    place of the current one, and its folder is created unless the path
    exists. *)
Definition new_manager : M unit :=
  (λ w, (Ok (), World init_manager (store w) (disk w))) >>
  ensure_folder (embeddings_folder init_manager).

(** [process_pdfs.main], which prints the two paths and returns nothing. *)
Definition process_pdfs_main : M unit :=
  let pdf_dir := path_join "Data" "PDF's" in
  let* main_chunks := process_pdf_directory pdf_dir 500 200 in
  let fee_dir := path_join "Data" "Fee_structure" in
  let* fee_chunks := process_pdf_directory fee_dir 400 200 in
  let links_file := path_join "Data" "Links.txt" in
  let* web_chunks := process_web_links links_file 600 200 in
  let all_chunks := main_chunks ++ fee_chunks ++ web_chunks in
  new_manager >>
  create_embeddings all_chunks >>
  let* (index_path, chunks_path) := save_embeddings "university_combined" in
  ret ().

End Ingestion.

(** ** Cleaning scraped text: [WebScraper._clean_text]

    A text is a sequence of characters of a type [C]; [isspace] is the
    Unicode whitespace test, which the class [\s] of [re] and [str.strip()]
    both apply to a [str]; [space] and [newline] are [' '] and ['\n']. *)

Section CleanText.
Context {C : Type} `{EqDecision C}.
Variables (isspace : C → bool) (space newline : C).

(** [re.sub(p+, rep, text)] for a character class [p]: every maximal run of
    characters of the class becomes one [rep]; [in_run] tells that the
    previous character was of the class. *)
Fixpoint sub_runs (p : C → bool) (rep : C) (in_run : bool) (text : list C)
  : list C :=
  match text with
  | [] => []
  | c :: text' =>
      if p c then
        if in_run then sub_runs p rep true text'
        else rep :: sub_runs p rep true text'
      else c :: sub_runs p rep false text'
  end.

Definition re_sub (p : C → bool) (rep : C) (text : list C) : list C :=
  sub_runs p rep false text.

(** [text.strip()], from the left and from the right. *)
Fixpoint strip_left (text : list C) : list C :=
  match text with
  | [] => []
  | c :: text' => if isspace c then strip_left text' else text
  end.

Fixpoint strip_right (text : list C) : list C :=
  match text with
  | [] => []
  | c :: text' =>
      match strip_right text' with
      | [] => if isspace c then [] else [c]
      | r => c :: r
      end
  end.

Definition strip (text : list C) : list C := strip_right (strip_left text).

Definition clean_text (text : list C) : list C :=
  let text := re_sub isspace space text in
  let text := re_sub (λ c, bool_decide (c = newline)) newline text in
  strip text.

(** A text in which whitespace occurs only as single [space]s between other
    characters. *)
Definition normalized (r : list C) : Prop :=
  (∀ c, c ∈ r → isspace c = true → c = space) ∧
  (∀ i a b, r !! i = Some a → r !! S i = Some b →
            isspace a = true → isspace b = false) ∧
  (∀ c, head r = Some c → isspace c = false) ∧
  (∀ c, last r = Some c → isspace c = false).

(** [normalized] in one pass; [prev] tells that a whitespace character may
    not come next. *)
Fixpoint normal_from (prev : bool) (r : list C) : bool :=
  match r with
  | [] => true
  | c :: r' =>
      if isspace c then
        negb prev && bool_decide (c = space)
        && match r' with [] => false | _ => normal_from true r' end
      else normal_from false r'
  end.

(** The same without the condition on the end of the text. *)
Fixpoint spaced (prev : bool) (r : list C) : bool :=
  match r with
  | [] => true
  | c :: r' =>
      if isspace c then negb prev && bool_decide (c = space) && spaced true r'
      else spaced false r'
  end.

(** [text.split()]: the maximal runs of characters that are not
    whitespace. *)
Definition starts_word (text : list C) : bool :=
  match text with
  | c :: _ => negb (isspace c)
  | [] => false
  end.

Fixpoint words (text : list C) : list (list C) :=
  match text with
  | [] => []
  | c :: text' =>
      if isspace c then words text'
      else if starts_word text' then
        match words text' with
        | w :: ws => (c :: w) :: ws
        | [] => [[c]]
        end
      else [c] :: words text'
  end.

End CleanText.

(** ** Notions used by the further properties *)
(** The identity the ingestion gives a chunk: its source and its
    [chunk_id]. *)
Definition chunk_key (o : chunk) : option value * option value :=
  (metadata o !! "source", metadata o !! "chunk_id").

(** A chunk as ingestion leaves it: of the given type and without a
    relevance score. *)
Definition ingested_as (source_type : string) (o : chunk) : Prop :=
  has_type source_type o = true ∧ metadata o !! "relevance_score" = None.

Section IngestionNotions.
Context `{StrMethods} `{PdfIO} `{TextSplitter}.

(** The dictionaries [process_pdf_directory] creates for the items of
    [pdf_contents], in order. *)
Definition pdf_chunks_of (items : list (string * string))
    (chunk_size chunk_overlap : nat) : list chunk :=
  concat ((λ item, imap (pdf_chunk (fst item))
                     (split_text chunk_size chunk_overlap (snd item)))
          <$> items).

(** The dictionaries [split_into_chunks] creates. *)
Definition web_chunks_of (scraped_data : list scraped)
    (chunk_size chunk_overlap : nat) : list chunk :=
  concat ((λ item, if decide (status item = "success")
                   then imap (web_chunk (url item))
                          (split_text chunk_size chunk_overlap (page_text item))
                   else [])
          <$> scraped_data).

(** A file of the walk whose name ends in [.pdf], whatever the case, and
    whose pages were extracted to the non-blank text [text]. *)
Definition qualifying (directory_path file text : string) : Prop :=
  ∃ root files pages,
    (root, files) ∈ os_walk directory_path ∧
    file ∈ files ∧
    str_endswith ".pdf" (str_lower file) = true ∧
    pdf_page_texts (path_join root file) = Ok pages ∧
    text = foldl String.append "" pages ∧
    str_strip text ≠ EmptyString.

End IngestionNotions.


(** The manager after [self.index = ix] alone. *)
Definition index_assigned (m : EmbeddingsManager) (ix : IndexFlatIP)
  : EmbeddingsManager :=
  Manager (Some ix) (chunks m) (embeddings_folder m) (relevance_threshold m).

(** The chunk an id of FAISS contributes to the candidates, if any. *)
Definition resolve (cs : list loc) (idx : Z) : option loc :=
  if idx <? Z.of_nat (length cs) then
    match list_getitem cs idx with
    | Ok c => Some c
    | Raise _ => None
    end
  else None.

(** Two handles found at one position of two chunk lists. *)
Definition same_position (cs1 cs2 : list loc) (c1 c2 : loc) : Prop :=
  ∃ p : nat, cs1 !! p = Some c1 ∧ cs2 !! p = Some c2.

(** The chunk lists [cs1] under heap [σ1] and [cs2] under [σ2] hold, position by
    position, chunks that are equal apart from the relevance score. *)
Definition same_corpus (σ1 σ2 : heap) (cs1 cs2 : list loc) : Prop :=
  length cs1 = length cs2 ∧
  ∀ c1 c2, same_position cs1 cs2 c1 c2 →
    persistent_part <$> σ1 !! c1 = persistent_part <$> σ2 !! c2.

(** Some phrase of [phrases] occurs in [s]. *)
Definition mentions (phrases : list string) (s : string) : bool :=
  existsb (λ phrase, str_in phrase s) phrases.

(** The scores of a list are of one kind: all [np.float32], as in the list
    the search builds, or all Python floats. *)
Definition is_np (s : score) : bool :=
  match s with NpFloat32 _ => true | PyFloat _ => false end.
Definition one_dtype (l : list score) : Prop :=
  ∀ s1 s2, s1 ∈ l → s2 ∈ l → is_np s1 = is_np s2.

(** The score that the marks of [kept] leave on the dictionary [c]: the
    one written last. *)
Definition last_score (kept : list (loc * score)) (c : loc) : option Q :=
  foldl (λ acc p, if decide (fst p = c) then Some (to_float (snd p)) else acc)
        None kept.

(** The last character of a string. *)
Fixpoint str_last (s : string) : option ascii :=
  match s with
  | EmptyString => None
  | String c EmptyString => Some c
  | String _ s' => str_last s'
  end.

(** A snapshot under the prefix ["kb"] whose chunk artifact is cut short:
    it refers to a dictionary it does not hold. *)
Definition truncated_disk : gmap string file :=
  <["embeddings/kb_index.faiss" := FaissFile (FlatIP 2 [[1 # 1; 0 # 1]])]>
    (<["embeddings/kb_chunks.pkl" := PickleFile (Pickled [] [0%nat])]>
       {["embeddings" := Directory]}).

(** [lower] and [strip] on ASCII text, where they work byte by byte. *)
Definition ascii_lower (c : ascii) : ascii :=
  let n := nat_of_ascii c in
  if ((65 <=? n) && (n <=? 90))%nat then ascii_of_nat (n + 32) else c.

Fixpoint string_map (f : ascii → ascii) (s : string) : string :=
  match s with
  | EmptyString => EmptyString
  | String c s' => String (f c) (string_map f s')
  end.

Definition ascii_space (c : ascii) : bool :=
  let n := nat_of_ascii c in
  (((9 <=? n) && (n <=? 13)) || ((28 <=? n) && (n <=? 32)))%nat.

Fixpoint lstrip (s : string) : string :=
  match s with
  | EmptyString => EmptyString
  | String c s' => if ascii_space c then lstrip s' else s
  end.

Definition ascii_methods : StrMethods :=
  {| str_lower := string_map ascii_lower;
     str_strip := λ s, String.rev (lstrip (String.rev (lstrip s))) |}.

(** A directory tree for the ingestion: two PDFs named alike in two
    directories, one in upper case, one that cannot be read, one without
    text, and a file that is no PDF. *)
Definition sample_pdf_io : PdfIO :=
  {| os_walk := λ d,
       if decide (d = "Data") then
         [ ("Data", ["a.pdf"; "notes.txt"; "B.PDF"; "bad.pdf"; "blank.pdf"]);
           ("Data/sub", ["a.pdf"]) ]
       else if decide (d = "Data/PDF's") then [ ("Data/PDF's", ["rules.pdf"]) ]
       else [];
     pdf_page_texts := λ path,
       if decide (path = "Data/a.pdf") then Ok ["alpha"; " one"]
       else if decide (path = "Data/B.PDF") then Ok ["beta"]
       else if decide (path = "Data/blank.pdf") then Ok [" "; " "]
       else if decide (path = "Data/sub/a.pdf") then Ok ["gamma"]
       else if decide (path = "Data/PDF's/rules.pdf") then Ok ["alpha"; " beta"]
       else Raise (FileNotFoundError path) |}.

(** A splitter that cuts at every space, whatever the sizes; its
    constructor checks them as LangChain's does. *)
Fixpoint split_at_spaces (cur s : string) : list string :=
  match s with
  | EmptyString => [String.rev cur]
  | String c s' =>
      if decide (c = " "%char) then String.rev cur :: split_at_spaces "" s'
      else split_at_spaces (String c cur) s'
  end.

Definition check_sizes (chunk_size chunk_overlap : nat) : result unit :=
  if (chunk_size =? 0)%nat then Raise (ValueError "chunk_size must be > 0")
  else if (chunk_size <? chunk_overlap)%nat then
    Raise (ValueError "Got a larger chunk overlap than chunk size, should be smaller.")
  else Ok ().

Definition sample_splitter : TextSplitter.
Proof.
  refine {| new_splitter := check_sizes;
            split_text := λ _ _ s, split_at_spaces "" s |}.
  - intros chunk_size chunk_overlap Hpos Hle. unfold check_sizes.
    destruct (Nat.eqb_spec chunk_size 0); [lia|].
    by destruct (Nat.ltb_spec chunk_size chunk_overlap); [lia|].
  - intros chunk_size chunk_overlap Hlt. unfold check_sizes.
    destruct (Nat.eqb_spec chunk_size 0); [by eexists|].
    destruct (Nat.ltb_spec chunk_size chunk_overlap); [by eexists|lia].
Defined.

Definition sample_scraper : Scraper :=
  {| scrape_urls_from_file := λ _,
       [ Scraped "http://u.edu/a" "gamma" "success";
         Scraped "http://u.edu/b" "Failed to retrieve content: HTTP 404" "error" ] |}.

(** The text of a scraped page before cleaning: a title line, a URL line,
    a blank line and a body with runs of blanks and a tab. *)
Definition newline_char : ascii := "010"%char.
Definition sample_page : list ascii :=
  String.list_ascii_of_string "Title: Fees" ++ [newline_char]
  ++ String.list_ascii_of_string "URL: u.edu" ++ [newline_char; newline_char]
  ++ String.list_ascii_of_string "  Tuition   due " ++ ["009"%char; newline_char].

(** * Proofs *)

Lemma Qltb_true x y : Qltb x y = true ↔ (x < y)%Q.
Proof.
  unfold Qltb. rewrite negb_true_iff.
  split.
  - intros Hb. apply Qnot_le_lt. intros Hle.
    apply Qle_bool_iff in Hle. congruence.
  - intros Hlt. destruct (Qle_bool y x) eqn:E; [|done].
    apply Qle_bool_iff in E. exfalso. by apply (Qlt_not_le x y).
Qed.

Lemma Qltb_false x y : Qltb x y = false ↔ (y <= x)%Q.
Proof.
  unfold Qltb. rewrite negb_false_iff. apply Qle_bool_iff.
Qed.

(** ** Rounding to [float32] *)

Lemma pow2_pos e : (0 < pow2 e)%Q.
Proof. by apply Qpower_0_lt. Qed.

Lemma pow2_le e1 e2 : e1 <= e2 → (pow2 e1 <= pow2 e2)%Q.
Proof. intros. by apply Qpower_le_compat_l. Qed.

Lemma pow2_plus e1 e2 : (pow2 (e1 + e2) == pow2 e1 * pow2 e2)%Q.
Proof. by apply Qpower_plus. Qed.

Lemma pow2_inject (n : Z) : 0 <= n → (pow2 n == inject_Z (2 ^ n))%Q.
Proof.
  intros Hn. unfold pow2. rewrite <- (Z2Nat.id n) by done.
  induction (Z.to_nat n) as [|k IH]; [done|].
  rewrite Nat2Z.inj_succ, <- Z.add_1_r.
  rewrite Qpower_plus by done. rewrite IH.
  rewrite Z.pow_add_r by lia. rewrite inject_Z_mult. reflexivity.
Qed.

(** *** Rounding to an integer *)

Lemma rne_floor x : Qfloor x <= rne x <= Qfloor x + 1.
Proof.
  unfold rne. destruct (_ ?= _)%Q; [destruct (Z.even _)| |]; lia.
Qed.

Lemma rne_mono x y : (x <= y)%Q → rne x <= rne y.
Proof.
  intros Hxy. pose proof (Qfloor_resp_le _ _ Hxy) as Hf.
  pose proof (rne_floor x) as Hx. pose proof (rne_floor y) as Hy.
  destruct (decide (Qfloor x = Qfloor y)) as [Heq|Hne]; [|lia].
  unfold rne in *. rewrite <- Heq in *. clear Hx Hy Hf.
  destruct (Qcompare_spec (x - inject_Z (Qfloor x)) (1 # 2)) as [Ex|Ex|Ex];
    destruct (Qcompare_spec (y - inject_Z (Qfloor x)) (1 # 2)) as [Ey|Ey|Ey];
    try (destruct (Z.even (Qfloor x)); lia); try lia; lra.
Qed.

Lemma rne_inject n : rne (inject_Z n) = n.
Proof.
  unfold rne. rewrite Qfloor_Z.
  destruct (Qcompare_spec (inject_Z n - inject_Z n) (1 # 2)) as [E|E|E];
    [lra|done|lra].
Qed.

(** *** The binade of a number *)

Lemma binade_Some fuel e0 x e :
  binade fuel e0 x = Some e →
  (x < pow2 (e + 1))%Q ∧ e0 <= e < e0 + Z.of_nat fuel ∧
  (e0 < e → (pow2 e <= x)%Q).
Proof.
  revert e0. induction fuel as [|fuel IH]; intros e0; [done|].
  cbn [binade]. destruct (Qltb x (pow2 (e0 + 1))) eqn:E.
  - intros [= <-]. apply Qltb_true in E. split; [done|]. split; lia.
  - intros (Hlt & Hr & Hge)%IH. apply Qltb_false in E.
    split; [done|]. split; [lia|]. intros _.
    destruct (decide (e = e0 + 1)) as [->|]; [done|]. apply Hge. lia.
Qed.

Lemma binade_None fuel e0 x :
  binade fuel e0 x = None → (0 < fuel)%nat → (pow2 (e0 + Z.of_nat fuel) <= x)%Q.
Proof.
  revert e0. induction fuel as [|fuel IH]; intros e0; [lia|].
  cbn [binade]. destruct (Qltb x (pow2 (e0 + 1))) eqn:E; [done|].
  intros Hn _. apply Qltb_false in E.
  destruct fuel as [|fuel'].
  - by replace (e0 + Z.of_nat 1) with (e0 + 1) by lia.
  - replace (e0 + Z.of_nat (S (S fuel'))) with (e0 + 1 + Z.of_nat (S fuel'))
      by lia.
    apply IH; [done|lia].
Qed.

Lemma binade_mono fuel e0 x y ey :
  (x <= y)%Q → binade fuel e0 y = Some ey →
  ∃ ex, binade fuel e0 x = Some ex ∧ ex <= ey.
Proof.
  intros Hxy. revert e0. induction fuel as [|fuel IH]; intros e0; [done|].
  cbn [binade]. destruct (Qltb y (pow2 (e0 + 1))) eqn:Ey.
  - intros [= <-]. apply Qltb_true in Ey.
    assert (Qltb x (pow2 (e0 + 1)) = true) as -> by (apply Qltb_true; lra).
    by exists e0.
  - intros Hy. destruct (Qltb x (pow2 (e0 + 1))).
    + exists e0. split; [done|]. apply binade_Some in Hy. lia.
    + by apply IH.
Qed.

(** *** Rounding is monotone *)

(** The order of the rounded magnitudes, [None] being [inf]. *)
Definition le_inf (a b : option Q) : Prop :=
  match a, b with
  | _, None => True
  | None, Some _ => False
  | Some p, Some q => (p <= q)%Q
  end.

Lemma le_inf_None a : le_inf a None.
Proof. by destruct a. Qed.

Lemma round_in_binade_mono x y e :
  (x <= y)%Q → (round_in_binade x e <= round_in_binade y e)%Q.
Proof.
  intros Hxy. pose proof (pow2_pos (e - 23)) as Hu. unfold round_in_binade.
  apply Qmult_le_compat_r; [|lra].
  rewrite <- Zle_Qle. apply rne_mono.
  apply Qle_shift_div_l; [done|].
  unfold Qdiv. rewrite <- Qmult_assoc, (Qmult_comm (/ _)), Qmult_inv_r; lra.
Qed.

Lemma pow2_split e : (pow2 (e + 1) == inject_Z (2 ^ 24) * pow2 (e - 23))%Q.
Proof.
  replace (e + 1) with (24 + (e - 23)) by lia.
  rewrite pow2_plus. by rewrite (pow2_inject 24).
Qed.

Lemma pow2_split' e : (pow2 e == inject_Z (2 ^ 23) * pow2 (e - 23))%Q.
Proof.
  replace e with (23 + (e - 23)) at 1 by lia.
  rewrite pow2_plus. by rewrite (pow2_inject 23).
Qed.

(** A number below the top of its binade rounds to at most that top. *)
Lemma round_in_binade_upper x e :
  (x <= pow2 (e + 1))%Q → (round_in_binade x e <= pow2 (e + 1))%Q.
Proof.
  intros Hx. pose proof (pow2_pos (e - 23)) as Hu.
  pose proof (pow2_split e) as Hs. unfold round_in_binade.
  apply Qle_trans with (inject_Z (2 ^ 24) * pow2 (e - 23))%Q; [|lra].
  apply Qmult_le_compat_r; [|lra].
  rewrite <- Zle_Qle, <- (rne_inject (2 ^ 24)). apply rne_mono.
  apply Qle_shift_div_r; [done|]. lra.
Qed.

(** A number at or above the bottom of its binade rounds to at least
    that bottom. *)
Lemma round_in_binade_lower x e :
  (pow2 e <= x)%Q → (pow2 e <= round_in_binade x e)%Q.
Proof.
  intros Hx. pose proof (pow2_pos (e - 23)) as Hu.
  pose proof (pow2_split' e) as Hs. unfold round_in_binade.
  apply Qle_trans with (inject_Z (2 ^ 23) * pow2 (e - 23))%Q; [lra|].
  apply Qmult_le_compat_r; [|lra].
  rewrite <- Zle_Qle, <- (rne_inject (2 ^ 23)). apply rne_mono.
  apply Qle_shift_div_l; [done|]. lra.
Qed.

Lemma round_in_binade_nonneg x e : (0 <= x)%Q → (0 <= round_in_binade x e)%Q.
Proof.
  intros Hx. pose proof (pow2_pos (e - 23)) as Hu. unfold round_in_binade.
  apply Qmult_le_0_compat; [|lra].
  replace 0%Q with (inject_Z 0) by done.
  rewrite <- Zle_Qle, <- (rne_inject 0). apply rne_mono.
  apply Qle_shift_div_l; [done|]. change (inject_Z 0) with 0%Q. lra.
Qed.

Lemma round32_abs_mono x y :
  (x <= y)%Q → le_inf (round32_abs x) (round32_abs y).
Proof.
  intros Hxy. unfold round32_abs.
  destruct (binade 254 (-126) y) as [ey|] eqn:Ey; [|apply le_inf_None].
  destruct (binade_mono _ _ _ _ _ Hxy Ey) as (ex & Ex & Hle). rewrite Ex.
  cbn zeta.
  destruct (Qle_bool (round_in_binade y ey) FLT_MAX) eqn:Hy;
    [|apply le_inf_None].
  apply Qle_bool_iff in Hy.
  assert (Hr : (round_in_binade x ex <= round_in_binade y ey)%Q).
  { destruct (decide (ex = ey)) as [->|Hne].
    - by apply round_in_binade_mono.
    - apply binade_Some in Ey as (_ & _ & Hyl).
      apply binade_Some in Ex as (Hxu & Hex & _).
      apply Qle_trans with (pow2 (ex + 1));
        [apply round_in_binade_upper; lra|].
      apply Qle_trans with (pow2 ey); [apply pow2_le; lia|].
      apply round_in_binade_lower, Hyl. lia. }
  assert (Qle_bool (round_in_binade x ex) FLT_MAX = true) as ->
    by (apply Qle_bool_iff; lra).
  exact Hr.
Qed.

Lemma round32_abs_nonneg x r :
  (0 <= x)%Q → round32_abs x = Some r → (0 <= r)%Q.
Proof.
  intros Hx. unfold round32_abs.
  destruct (binade _ _ _) as [e|]; [|done]. cbn zeta.
  destruct (Qle_bool _ _); [|done]. intros [= <-].
  by apply round_in_binade_nonneg.
Qed.

(** The order of [float32] values. *)
Definition float32_order (a b : float32) : Prop :=
  match a, b with
  | Inf32 true, _ => True
  | _, Inf32 false => True
  | Finite32 p, Finite32 q => (p <= q)%Q
  | _, _ => False
  end.

Lemma np_float32_mono x y :
  (x <= y)%Q → float32_order (np_float32 x) (np_float32 y).
Proof.
  intros Hxy. unfold np_float32.
  destruct (Qltb x 0) eqn:Ex, (Qltb y 0) eqn:Ey.
  - apply Qltb_true in Ex, Ey.
    assert (Hop : (- y <= - x)%Q) by lra.
    pose proof (round32_abs_mono _ _ Hop) as Hm.
    destruct (round32_abs (- y)) as [ry|], (round32_abs (- x)) as [rx|];
      simpl in *; try done. lra.
  - apply Qltb_true in Ex. apply Qltb_false in Ey.
    destruct (round32_abs (- x)) as [rx|] eqn:Rx; [|done].
    destruct (round32_abs y) as [ry|] eqn:Ry; [|done]. simpl.
    apply round32_abs_nonneg in Rx; [|lra].
    apply round32_abs_nonneg in Ry; [|lra]. lra.
  - apply Qltb_false in Ex. apply Qltb_true in Ey. lra.
  - pose proof (round32_abs_mono _ _ Hxy) as Hm.
    destruct (round32_abs x) as [rx|], (round32_abs y) as [ry|];
      simpl in *; done.
Qed.

(** The comparison [q >= np.float32(t)] can only turn false as [t] grows. *)
Lemma float32_le_antitone t1 t2 q :
  (t1 <= t2)%Q →
  float32_le (np_float32 t2) q = true → float32_le (np_float32 t1) q = true.
Proof.
  intros Ht. pose proof (np_float32_mono _ _ Ht) as Hm.
  destruct (np_float32 t1) as [r1|[]], (np_float32 t2) as [r2|[]];
    simpl in *; try done.
  rewrite !Qle_bool_iff. lra.
Qed.

(** ** The first greatest score *)

Lemma argmax_from_first_max pre l bi b :
  first_max pre bi b →
  ∃ s, first_max (pre ++ l) (argmax_from bi b (length pre) l) s.
Proof.
  revert pre bi b. induction l as [|x l IH]; intros pre bi b Hm.
  - exists b. by rewrite app_nil_r.
  - simpl. destruct Hm as (Hb & Hmax & Hfirst).
    assert (Hbi : (bi < length pre)%nat) by by eapply lookup_lt_Some.
    replace (pre ++ x :: l) with ((pre ++ [x]) ++ l) by by rewrite <- app_assoc.
    replace (S (length pre)) with (length (pre ++ [x]))
      by (rewrite length_app; simpl; lia).
    destruct (Qltb b x) eqn:E.
    + apply Qltb_true in E. apply IH. repeat split.
      * rewrite lookup_app_r by lia. by rewrite Nat.sub_diag.
      * intros j s' Hj. apply lookup_app_Some in Hj as [Hj|[Hge Hj]].
        -- apply Qlt_le_weak, (Qle_lt_trans _ b); [exact (Hmax _ _ Hj)|exact E].
        -- apply list_lookup_singleton_Some in Hj as [_ <-]. apply Qle_refl.
      * intros j s' Hlt Hj. rewrite lookup_app_l in Hj by lia.
        apply (Qle_lt_trans _ b); [exact (Hmax _ _ Hj)|exact E].
    + apply Qltb_false in E. apply IH. repeat split.
      * by rewrite lookup_app_l by lia.
      * intros j s' Hj. apply lookup_app_Some in Hj as [Hj|[Hge Hj]].
        -- exact (Hmax _ _ Hj).
        -- apply list_lookup_singleton_Some in Hj as [_ <-]. exact E.
      * intros j s' Hlt Hj. rewrite lookup_app_l in Hj by lia.
        exact (Hfirst _ _ Hlt Hj).
Qed.

Lemma np_argmax_first_max l :
  l ≠ [] → ∃ i s, np_argmax l = Ok i ∧ first_max l i s.
Proof.
  destruct l as [|x l]; [done|]. intros _. simpl.
  destruct (argmax_from_first_max [x] l 0 x) as [s Hs].
  - split; [done|]. split.
    + intros j s' Hj. apply list_lookup_singleton_Some in Hj as [_ <-].
      apply Qle_refl.
    + intros j s' Hlt. lia.
  - exists (argmax_from 0 x 1 l), s. split; [done|]. exact Hs.
Qed.

(** ** The heap under relevance marks *)

Lemma world_eta w : World (self w) (store w) (disk w) = w.
Proof. by destruct w. Qed.

Lemma length_mark_all σ kept : length (mark_all σ kept) = length σ.
Proof.
  revert σ. induction kept as [|p kept IH]; intros σ; [done|].
  simpl. unfold mark_all in IH. by rewrite IH, length_alter.
Qed.

Lemma mark_all_snoc σ kept p :
  mark_all σ (kept ++ [p])
  = alter (with_score (to_float (snd p))) (fst p) (mark_all σ kept).
Proof. unfold mark_all. by rewrite foldl_app. Qed.

Lemma relevance_score_alter_eq σ c s :
  (c < length σ)%nat → relevance_score (alter (with_score s) c σ) c = Some s.
Proof.
  intros Hc. unfold relevance_score. rewrite list_lookup_alter_eq.
  destruct (lookup_lt_is_Some_2 σ c Hc) as [o ->]. simpl.
  by rewrite lookup_insert_eq.
Qed.

Lemma relevance_score_alter_ne σ c c' s :
  c ≠ c' → relevance_score (alter (with_score s) c σ) c' = relevance_score σ c'.
Proof.
  intros Hne. unfold relevance_score. by rewrite list_lookup_alter_ne.
Qed.

(** A mark only touches the key [relevance_score]. *)
Lemma persistent_part_with_score s o :
  persistent_part (with_score s o) = persistent_part o.
Proof.
  unfold persistent_part, with_score. simpl. by rewrite delete_insert_eq.
Qed.

Lemma persistent_part_alter (σ : list chunk) (c : nat) s (c' : nat) :
  persistent_part <$> alter (with_score s) c σ !! c' = persistent_part <$> σ !! c'.
Proof.
  destruct (decide (c = c')) as [->|Hne].
  - rewrite list_lookup_alter_eq. destruct (σ !! c'); [|done]. simpl.
    by rewrite persistent_part_with_score.
  - by rewrite list_lookup_alter_ne.
Qed.

Lemma persistent_part_mark_all (σ : list chunk) kept (c' : nat) :
  persistent_part <$> mark_all σ kept !! c' = persistent_part <$> σ !! c'.
Proof.
  induction kept as [|p kept IH] using rev_ind; [done|].
  by rewrite mark_all_snoc, persistent_part_alter.
Qed.

(** After the marks of [kept], a chunk carries the score of its last
    occurrence in [kept]. *)
Lemma mark_all_last σ kept j c s :
  (c < length σ)%nat →
  kept !! j = Some (c, s) →
  (∀ j' s', (j < j')%nat → kept !! j' ≠ Some (c, s')) →
  relevance_score (mark_all σ kept) c = Some (to_float s).
Proof.
  intros Hc. revert j.
  induction kept as [|[c' s'] kept IH] using rev_ind; intros j Hj Hlast; [done|].
  rewrite mark_all_snoc. simpl.
  apply lookup_app_Some in Hj as [Hj|[Hge Hj]].
  - assert (Hlen : (j < length kept)%nat) by by eapply lookup_lt_Some.
    assert (c' ≠ c) as Hne.
    { intros ->. apply (Hlast (length kept) s'); [done|].
      rewrite lookup_app_r by lia. by rewrite Nat.sub_diag. }
    rewrite relevance_score_alter_ne by done.
    apply (IH j); [done|].
    intros j' s'' Hlt Hj'. apply (Hlast j' s''); [done|].
    by apply lookup_app_l_Some.
  - apply list_lookup_singleton_Some in Hj as [_ [= -> ->]].
    apply relevance_score_alter_eq. by rewrite length_mark_all.
Qed.

(** ** The filter loop in closed form *)

Lemma filter_loop_spec pairs relevant w :
  filter_loop pairs relevant w =
    (Ok (relevant ++ (clearing (relevance_threshold (self w)) pairs).*1),
     World (self w)
       (mark_all (store w) (clearing (relevance_threshold (self w)) pairs))
       (disk w)).
Proof.
  revert relevant w. induction pairs as [|[c s] pairs IH]; intros relevant w.
  - simpl. unfold ret. by rewrite app_nil_r, world_eta.
  - simpl. unfold bind, get_self.
    destruct (score_ge s (relevance_threshold (self w))) eqn:E.
    + unfold set_relevance_score. rewrite IH. simpl.
      by rewrite <- app_assoc.
    + apply IH.
Qed.

Lemma elem_of_clearing thr pairs c s :
  (c, s) ∈ clearing thr pairs ↔ (c, s) ∈ pairs ∧ score_ge s thr = true.
Proof.
  unfold clearing. by rewrite !list_elem_of_In, filter_In.
Qed.

Lemma clearing_nil thr pairs :
  (∀ c s, (c, s) ∈ pairs → score_ge s thr = false) → clearing thr pairs = [].
Proof.
  intros Hlow. destruct (clearing thr pairs) as [|[c s] l] eqn:E; [done|].
  assert ((c, s) ∈ clearing thr pairs) as Hin by (rewrite E; left).
  apply elem_of_clearing in Hin as [Hin Hle].
  rewrite (Hlow _ _ Hin) in Hle. done.
Qed.

Lemma list_getitem_nat {A} (l : list A) i x :
  l !! i = Some x → list_getitem l (Z.of_nat i) = Ok x.
Proof.
  intros Hi. assert (Hlt : (i < length l)%nat) by by eapply lookup_lt_Some.
  unfold list_getitem.
  destruct (Z.ltb_spec (Z.of_nat i) 0); [lia|].
  destruct (Z.leb_spec 0 (Z.of_nat i)); [|lia].
  destruct (Z.ltb_spec (Z.of_nat i) (Z.of_nat (length l))); [|lia].
  simpl. by rewrite Nat2Z.id, Hi.
Qed.

Lemma list_getitem_elem_of {A} (l : list A) i x :
  list_getitem l i = Ok x → x ∈ l.
Proof.
  unfold list_getitem. intros Hx.
  destruct (_ && _); [|done].
  destruct (l !! _) eqn:E; [|done].
  injection Hx as ->. by eapply list_elem_of_lookup_2.
Qed.

(** ** The relevance filter *)


(** The filter on a non-empty chunk list, loop and fallback resolved. *)
Lemma filter_relevant_chunks_closed query cs scores w :
  cs ≠ [] →
  filter_relevant_chunks query cs scores w =
    match clearing (relevance_threshold (self w)) (zip cs scores) with
    | [] =>
        match np_argmax (to_float <$> scores) with
        | Ok i =>
            match list_getitem scores (Z.of_nat i) with
            | Ok s =>
                match list_getitem cs (Z.of_nat i) with
                | Ok c =>
                    (Ok [c],
                     World (self w)
                       (alter (with_score (to_float s)) c (store w)) (disk w))
                | Raise e => (Raise e, w)
                end
            | Raise e => (Raise e, w)
            end
        | Raise e => (Raise e, w)
        end
    | p :: kept =>
        (Ok (p :: kept).*1,
         World (self w) (mark_all (store w) (p :: kept)) (disk w))
    end.
Proof.
  intros Hne. destruct cs as [|c1 cs1]; [done|].
  unfold filter_relevant_chunks, bind at 1. rewrite filter_loop_spec.
  destruct (clearing _ _) as [|p kept]; [|done].
  simpl. unfold bind, lift, ret, set_relevance_score. simpl.
  rewrite world_eta.
  destruct (np_argmax _); [|done].
  destruct (list_getitem scores _); [|done].
  by destruct (list_getitem (c1 :: cs1) _).
Qed.

(** The candidate at the first greatest score. *)
Lemma first_max_candidate (cands : list (loc * score)) :
  cands ≠ [] →
  ∃ i c s,
    np_argmax (to_float <$> cands.*2) = Ok i ∧
    cands !! i = Some (c, s) ∧
    first_max (to_float <$> cands.*2) i (to_float s).
Proof.
  intros Hne.
  assert (Hne2 : to_float <$> cands.*2 ≠ []) by (by destruct cands).
  destruct (np_argmax_first_max _ Hne2) as (i & q & Hi & Hmax).
  pose proof Hmax as [Hq _]. rewrite !list_lookup_fmap in Hq.
  destruct (cands !! i) as [[c s]|] eqn:E; [|done].
  injection Hq as <-. by exists i, c, s.
Qed.

(** The filter leaves relevance marks at most. *)
Lemma marks_only_refl w : marks_only w w.
Proof. by repeat split. Qed.

Lemma marks_only_mark w c s :
  marks_only w (World (self w) (alter (with_score s) c (store w)) (disk w)).
Proof.
  repeat split; simpl; [apply length_alter|].
  intros c'. apply persistent_part_alter.
Qed.

Lemma marks_only_mark_all w kept :
  marks_only w (World (self w) (mark_all (store w) kept) (disk w)).
Proof.
  repeat split; simpl; [apply length_mark_all|].
  intros c'. apply persistent_part_mark_all.
Qed.

(** After the marks of [kept], a live chunk of [kept] carries the score of
    one of its candidates. *)
Lemma mark_all_some σ (kept : list (loc * score)) c :
  (c < length σ)%nat → c ∈ kept.*1 →
  ∃ s, (c, s) ∈ kept ∧ relevance_score (mark_all σ kept) c = Some (to_float s).
Proof.
  intros Hc. induction kept as [|[c' s'] kept IH] using rev_ind.
  { intros Hin. by apply elem_of_nil in Hin. }
  rewrite fmap_app, mark_all_snoc. cbn [fst snd].
  intros Hin. destruct (decide (c' = c)) as [->|Hne].
  - exists s'. split; [apply elem_of_app; right; left|].
    apply relevance_score_alter_eq. by rewrite length_mark_all.
  - rewrite relevance_score_alter_ne by done.
    apply elem_of_app in Hin as [Hin|Hin].
    + destruct (IH Hin) as (s & Hs & Hr). exists s.
      split; [by apply elem_of_app; left|done].
    + apply list_elem_of_singleton in Hin. simpl in Hin. congruence.
Qed.

(** C1 — fallback and empty-in/empty-out.  On any candidate sequence the
    filter returns normally, and its result is empty exactly when there
    were no candidates, in which case nothing changes.  When there are
    candidates and none passes the comparison [score >= threshold] as the
    code makes it, the result is the single candidate at the first position
    of a greatest score, the only write is that chunk's [relevance_score],
    and it then reads as that score. *)
Theorem filter_fallback_guarantee query (cands : list (loc * score)) w :
  ∃ r w',
    filter_relevant_chunks query cands.*1 cands.*2 w = (Ok r, w') ∧
    (r = [] ↔ cands = []) ∧
    (cands = [] → w' = w) ∧
    (cands ≠ [] →
     (∀ c s, (c, s) ∈ cands →
             score_ge s (relevance_threshold (self w)) = false) →
     ∃ i c s,
       cands !! i = Some (c, s) ∧
       first_max (to_float <$> cands.*2) i (to_float s) ∧
       r = [c] ∧
       w' = World (self w)
              (alter (with_score (to_float s)) c (store w)) (disk w) ∧
       (live (store w) cands.*1 →
        relevance_score (store w') c = Some (to_float s))).
Proof.
  destruct (decide (cands = [])) as [->|Hne].
  { exists [], w. by repeat split. }
  assert (Hne1 : cands.*1 ≠ []) by (by destruct cands).
  rewrite (filter_relevant_chunks_closed _ _ _ _ Hne1), zip_fst_snd.
  destruct (first_max_candidate cands Hne) as (i & c & s & Hi & Hc & Hmax).
  assert (Hgc : list_getitem cands.*1 (Z.of_nat i) = Ok c).
  { apply list_getitem_nat. by rewrite list_lookup_fmap, Hc. }
  assert (Hgs : list_getitem cands.*2 (Z.of_nat i) = Ok s).
  { apply list_getitem_nat. by rewrite list_lookup_fmap, Hc. }
  destruct (clearing _ cands) as [|p kept] eqn:Ek.
  - rewrite Hi, Hgs, Hgc. eexists _, _. split; [done|].
    split; [by split|]. split; [done|].
    intros _ _. exists i, c, s. repeat split; try done; try apply Hmax.
    intros Hlive. simpl. apply relevance_score_alter_eq.
    eapply Forall_forall in Hlive; [done|].
    apply (list_elem_of_fmap_2 fst _ (c, s)). by eapply list_elem_of_lookup_2.
  - eexists _, _. split; [done|]. split; [by split|]. split; [done|].
    intros _ Hlow. apply clearing_nil in Hlow. congruence.
Qed.


(** Witness of the fallback: two candidates below the default threshold,
    one scored by FAISS, one by a Python float. *)
Lemma filter_fallback_guarantee_witness :
  let cands := [(1%nat, NpFloat32 (3 # 5)); (2%nat, PyFloat (0 # 1))] in
  let w := fresh_world sample_heap in
  ∃ r w' i c s,
    filter_relevant_chunks "q" cands.*1 cands.*2 w = (Ok r, w') ∧
    cands !! i = Some (c, s) ∧ first_max (to_float <$> cands.*2) i (to_float s) ∧
    r = [c] ∧ relevance_score (store w') c = Some (to_float s).
Proof.
  intros cands w.
  destruct (filter_fallback_guarantee "q" cands w)
    as (r & w' & Hf & _ & _ & Hfb).
  destruct Hfb as (i & c & s & Hi & Hm & Hr & Hw & Hs).
  - done.
  - intros c s Hin.
    apply elem_of_cons in Hin as [[= -> ->]|Hin]; [by vm_compute|].
    apply list_elem_of_singleton in Hin as [= -> ->]. by vm_compute.
  - exists r, w', i, c, s. repeat split; try done; try apply Hm.
    apply Hs. repeat constructor; simpl; lia.
Defined.

(** C1, read with the scores' exact values, fails on scores that FAISS
    returns: [np.float32(0.65)] lies below the threshold [0.65], yet it
    passes the comparison, which NumPy makes in [float32].  Two
    candidates with that score are both returned, where the fallback would
    return one. *)
Lemma float32_scores_below_threshold_kept :
  let s := NpFloat32 (5452595 # 8388608) in
  let cands := [(0%nat, s); (1%nat, s)] in
  let w := fresh_world sample_heap in
  (∀ c s', (c, s') ∈ cands →
           (to_float s' < relevance_threshold (self w))%Q) ∧
  np_float32 (relevance_threshold (self w)) = Finite32 (10905190 # 16777216) ∧
  (to_float s == 10905190 # 16777216)%Q ∧
  fst (filter_relevant_chunks "q" cands.*1 cands.*2 w) = Ok [0%nat; 1%nat].
Proof.
  intros s cands w. split; [|split; [|split]]; [|by vm_compute..].
  intros c s' Hin.
  apply elem_of_cons in Hin as [[= -> ->]|Hin]; [by vm_compute|].
  apply list_elem_of_singleton in Hin as [= -> ->]. by vm_compute.
Qed.



(** The two filter scenarios of the design's test list, at the default
    threshold: scores 0.9, 0.5, 0.1 keep the first chunk only; scores 0.5,
    0.4, 0.3 fall back to the first chunk. *)
Example filter_scenario_threshold :
  fst (filter_relevant_chunks "q" [0; 1; 2]%nat
         [NpFloat32 (9 # 10); NpFloat32 (1 # 2); NpFloat32 (1 # 10)]
         (fresh_world sample_heap)) = Ok [0%nat].
Proof. by vm_compute. Qed.

Example filter_scenario_fallback :
  let res := filter_relevant_chunks "q" [0; 1; 2]%nat
               [NpFloat32 (1 # 2); NpFloat32 (2 # 5); NpFloat32 (3 # 10)]
               (fresh_world sample_heap) in
  fst res = Ok [0%nat] ∧ relevance_score (store (snd res)) 0 = Some (1 # 2).
Proof. by vm_compute. Qed.

(** The filter returns handles it was given, and leaves relevance marks
    at most — whether it returns or raises. *)
Lemma filter_marks_only query cs scores w :
  marks_only w (snd (filter_relevant_chunks query cs scores w)).
Proof.
  destruct (decide (cs = [])) as [->|Hne]; [apply marks_only_refl|].
  rewrite filter_relevant_chunks_closed by done.
  destruct (clearing _ _); [|apply marks_only_mark_all].
  destruct (np_argmax _); [|apply marks_only_refl].
  destruct (list_getitem scores _); [|apply marks_only_refl].
  destruct (list_getitem cs _); [|apply marks_only_refl].
  apply marks_only_mark.
Qed.

Lemma filter_result_subset query cs scores w r w' :
  filter_relevant_chunks query cs scores w = (Ok r, w') →
  ∀ c, c ∈ r → c ∈ cs.
Proof.
  destruct (decide (cs = [])) as [->|Hne].
  { intros [= <- <-] c Hc. done. }
  rewrite filter_relevant_chunks_closed by done.
  destruct (clearing _ _) as [|p kept] eqn:Ek.
  - destruct (np_argmax _); [|done].
    destruct (list_getitem scores _); [|done].
    destruct (list_getitem cs _) as [c0|] eqn:Ec; [|done].
    intros [= <- <-] c Hc. apply list_elem_of_singleton in Hc as ->.
    by eapply list_getitem_elem_of.
  - intros [= <- <-] c Hc. change (c ∈ (p :: kept).*1) in Hc.
    apply (list_elem_of_fmap fst) in Hc as ([c' s] & -> & Hin).
    rewrite <- Ek in Hin. apply elem_of_clearing in Hin as [Hin _].
    by eapply elem_of_zip_l.
Qed.

(** ** Search *)

Lemma search_loop_subset cs scores i ids results result_scores r rs :
  search_loop cs scores i ids results result_scores = Ok (r, rs) →
  (∀ c, c ∈ results → c ∈ cs) →
  ∀ c, c ∈ r → c ∈ cs.
Proof.
  revert i results result_scores.
  induction ids as [|idx ids IH]; intros i results result_scores; simpl.
  - by intros [= <- <-].
  - destruct (idx <? _); [|apply IH].
    destruct (list_getitem cs idx) as [c0|] eqn:Ec; [|done].
    destruct (row_getitem scores 0) as [row|]; [|done].
    destruct (row_getitem row i) as [s|]; [|done].
    intros Hloop Hres. eapply IH; [done|].
    intros c Hc. apply elem_of_app in Hc as [Hc|Hc]; [by apply Hres|].
    apply list_elem_of_singleton in Hc as ->.
    by eapply list_getitem_elem_of.
Qed.

(** An id at or beyond [len(self.chunks)] adds no candidate. *)
Lemma search_loop_skips_large cs scores i idx ids results result_scores :
  Z.of_nat (length cs) <= idx →
  search_loop cs scores i (idx :: ids) results result_scores =
  search_loop cs scores (S i) ids results result_scores.
Proof.
  intros Hge. simpl. by destruct (Z.ltb_spec idx (Z.of_nat (length cs))); [lia|].
Qed.

Section SearchFacts.
Context `{Backend}.

Lemma search_marks_only query k w :
  marks_only w (snd (search_similar_chunks query k w)).
Proof.
  unfold search_similar_chunks, bind at 1, get_self.
  destruct (index (self w)) as [ix|]; [|apply marks_only_refl].
  destruct (chunks (self w)) as [cs|]; [|apply marks_only_refl].
  unfold bind at 1, lift.
  destruct (encode [query]) as [qe|]; [|apply marks_only_refl].
  unfold bind at 1.
  destruct (index_search ix qe k) as [[scores indices]|]; [|apply marks_only_refl].
  unfold bind at 1.
  destruct (row_getitem indices 0) as [ids|]; [|apply marks_only_refl].
  unfold bind at 1.
  destruct (search_loop cs scores 0 ids [] []) as [[results rs]|];
    [|apply marks_only_refl].
  apply filter_marks_only.
Qed.

Lemma search_result_subset query k w cs r w' :
  chunks (self w) = Some cs →
  search_similar_chunks query k w = (Ok r, w') →
  ∀ c, c ∈ r → c ∈ cs.
Proof.
  intros Hcs. unfold search_similar_chunks, bind at 1, get_self. rewrite Hcs.
  destruct (index (self w)) as [ix|]; [|done].
  unfold bind at 1, lift.
  destruct (encode [query]) as [qe|]; [|done].
  unfold bind at 1.
  destruct (index_search ix qe k) as [[scores indices]|]; [|done].
  unfold bind at 1.
  destruct (row_getitem indices 0) as [ids|]; [|done].
  unfold bind at 1.
  destruct (search_loop cs scores 0 ids [] []) as [[results rs]|] eqn:El; [|done].
  intros Hf c Hc.
  eapply search_loop_subset; [done| |by eapply filter_result_subset].
  intros c' Hc'. by apply elem_of_nil in Hc'.
Qed.

(** What [create_embeddings] does, by outcome of the encoder. *)
Lemma create_embeddings_raise cs w e :
  encode (texts_of (store w) cs) = Raise e →
  create_embeddings cs w =
    (Raise e, World (chunks_assigned (self w) cs) (store w) (disk w)).
Proof.
  intros He. unfold create_embeddings, bind, set_chunks, get_store, lift.
  simpl. fold (texts_of (store w) cs). by rewrite He.
Qed.

Lemma create_embeddings_ok cs w emb D :
  encode (texts_of (store w) cs) = Ok emb →
  nd_shape emb !! 1%nat = Some D →
  create_embeddings cs w =
    (Ok emb,
     World (built (self w) cs (FlatIP D (nd_rows emb))) (store w) (disk w)).
Proof.
  intros He HD. unfold create_embeddings, bind, set_chunks, get_store, lift.
  simpl. fold (texts_of (store w) cs). rewrite He.
  unfold shape_getitem. by rewrite HD.
Qed.

End SearchFacts.

(** ** Build *)

(** C3 — alignment after a build.  When the encoder yields one vector
    per text, [create_embeddings] succeeds, the index holds as many
    vectors as there are chunks, and every search made with the manager it
    leaves (whatever the heap and disk have become) returns only handles
    of the chunk list that was built, and leaves the manager as it is. *)
Theorem build_aligns_index_with_chunks `{Backend} cs w emb :
  encode (texts_of (store w) cs) = Ok emb →
  well_shaped (length cs) emb →
  ∃ ix w1,
    create_embeddings cs w = (Ok emb, w1) ∧
    index (self w1) = Some ix ∧
    chunks (self w1) = Some cs ∧
    ntotal ix = length cs ∧
    ∀ σ fs query k r w2,
      search_similar_chunks query k (World (self w1) σ fs) = (Ok r, w2) →
      self w2 = self w1 ∧ ∀ c, c ∈ r → c ∈ cs.
Proof.
  intros He (D & Hshape & Hrows).
  eexists _, _. split.
  { eapply create_embeddings_ok; [done|]. by rewrite Hshape. }
  simpl. split; [done|]. split; [done|]. split; [exact Hrows|].
  intros σ fs query k r w2 Hs. split.
  - pose proof (search_marks_only query k
      (World (built (self w) cs (FlatIP D (nd_rows emb))) σ fs)) as Hm.
    rewrite Hs in Hm. by destruct Hm as [Hm _].
  - revert Hs. by apply search_result_subset.
Qed.

(** Witness of C3 on the sample corpus. *)
Lemma build_aligns_index_with_chunks_witness :
  ∃ ix w1,
    @create_embeddings sample_backend [0; 1; 2]%nat (fresh_world sample_heap)
      = (Ok (NdArray [3; 2]%nat [[1 # 1; 0 # 1]; [3 # 5; 4 # 5]; [0 # 1; 1 # 1]]),
         w1) ∧
    index (self w1) = Some ix ∧
    ntotal ix = 3%nat.
Proof.
  destruct (@build_aligns_index_with_chunks sample_backend
              [0; 1; 2]%nat (fresh_world sample_heap)
              (NdArray [3; 2]%nat [[1 # 1; 0 # 1]; [3 # 5; 4 # 5]; [0 # 1; 1 # 1]]))
    as (ix & w1 & Hc & Hi & _ & Hn & _).
  - reflexivity.
  - exists 2%nat. split; reflexivity.
  - exists ix, w1. repeat split; assumption.
Defined.

(** C5, as stated, fails: an encoder failure leaves the manager holding
    the new chunk list next to the previous index. *)
Lemma failed_build_replaces_chunks :
  let w1 := snd (@create_embeddings sample_backend [0; 1]%nat
                   (fresh_world sample_heap)) in
  let res := @create_embeddings sample_backend [3%nat] w1 in
  chunks (self w1) = Some [0; 1]%nat ∧
  @encode sample_backend (texts_of (store w1) [3%nat])
    = Raise (ModelError "encode failed") ∧
  fst res = Raise (ModelError "encode failed") ∧
  chunks (self (snd res)) = Some [3%nat] ∧
  index (self (snd res)) = index (self w1) ∧
  self (snd res) ≠ self w1.
Proof.
  intros w1 res. repeat split; by vm_compute.
Qed.

(** C5, amended — the two outcomes of a build.  [self.chunks] is assigned
    before the encoder runs and [self.index] after it: when the encoder
    raises, the exception is the outcome, the index is the previous one and
    the chunk list is already the new one; when it returns a
    two-dimensional array, chunk list and index are both replaced, the
    index holding exactly the encoder's rows.  Heap and disk are untouched
    either way. *)
Theorem create_embeddings_outcomes `{Backend} cs w :
  (∀ e, encode (texts_of (store w) cs) = Raise e →
     create_embeddings cs w =
       (Raise e, World (chunks_assigned (self w) cs) (store w) (disk w))) ∧
  (∀ emb D, encode (texts_of (store w) cs) = Ok emb →
     nd_shape emb !! 1%nat = Some D →
     create_embeddings cs w =
       (Ok emb,
        World (built (self w) cs (FlatIP D (nd_rows emb))) (store w) (disk w))).
Proof.
  split.
  - intros e. apply create_embeddings_raise.
  - intros emb D. apply create_embeddings_ok.
Qed.

(** Witness of the amended C5: a failing and a succeeding build. *)
Lemma create_embeddings_outcomes_witness :
  let w := fresh_world sample_heap in
  @create_embeddings sample_backend [3%nat] w =
    (Raise (ModelError "encode failed"),
     World (chunks_assigned (self w) [3%nat]) (store w) (disk w)) ∧
  @create_embeddings sample_backend [0%nat] w =
    (Ok (NdArray [1; 2]%nat [[1 # 1; 0 # 1]]),
     World (built (self w) [0%nat] (FlatIP 2 [[1 # 1; 0 # 1]])) (store w) (disk w)).
Proof.
  intros w. split.
  - apply (proj1 (@create_embeddings_outcomes sample_backend [3%nat] w)).
    reflexivity.
  - apply (proj2 (@create_embeddings_outcomes sample_backend [0%nat] w)
             (NdArray [1; 2]%nat [[1 # 1; 0 # 1]]) 2%nat); reflexivity.
Defined.

(** ** Search *)

(** A negative id that Python can resolve passes the guard
    [idx < len(self.chunks)] and adds the chunk counted from the end. *)
Lemma search_loop_takes_negative cs scores row i s idx c ids results rs :
  - Z.of_nat (length cs) <= idx < 0 →
  cs !! Z.to_nat (idx + Z.of_nat (length cs)) = Some c →
  scores !! 0%nat = Some row →
  row !! i = Some s →
  search_loop cs scores i (idx :: ids) results rs =
  search_loop cs scores (S i) ids (results ++ [c]) (rs ++ [NpFloat32 s]).
Proof.
  intros Hidx Hc Hrow Hs. simpl.
  destruct (Z.ltb_spec idx (Z.of_nat (length cs))); [|lia].
  unfold list_getitem.
  destruct (Z.ltb_spec idx 0); [|lia].
  destruct (Z.leb_spec 0 (idx + Z.of_nat (length cs))); [|lia].
  destruct (Z.ltb_spec (idx + Z.of_nat (length cs)) (Z.of_nat (length cs)));
    [|lia].
  simpl. rewrite Hc. unfold row_getitem. by rewrite Hrow, Hs.
Qed.

(** C4 — the guard misses negative ids.  Loading the mismatched snapshot
    ["kb"] succeeds; FAISS then answers the query with the single id [-1],
    which is outside [[0, 3)]; the search nevertheless returns the last
    chunk, marked with the filler score. *)
Theorem negative_id_reaches_result :
  let w1 := snd (load_embeddings "kb" (World init_manager [] stale_disk)) in
  let res := @search_similar_chunks sample_backend "q" 1 w1 in
  fst (load_embeddings "kb" (World init_manager [] stale_disk)) = Ok true ∧
  chunks (self w1) = Some [0; 1; 2]%nat ∧
  @index_search sample_backend (FlatIP 2 []) (NdArray [1; 2]%nat [[1 # 1; 0 # 1]]) 1
    = Ok ([[Qopp FLT_MAX]], [[-1]]) ∧
  fst res = Ok [2%nat] ∧
  relevance_score (store (snd res)) 2 = Some (Qopp FLT_MAX).
Proof. intros w1 res. repeat split; by vm_compute. Qed.

(** C6, as stated, fails: the mark is written into the stored dictionary,
    stays there after the query, and is pickled by a later save, so that a
    manager loading the snapshot reads it back. *)
Lemma relevance_score_outlives_query :
  let w1 := snd (@create_embeddings sample_backend [0; 1; 2]%nat
                   (fresh_world sample_heap)) in
  let w2 := snd (@search_similar_chunks sample_backend "q" 15 w1) in
  let w3 := snd (save_embeddings "kb" w2) in
  let w4 := snd (load_embeddings "kb" (World init_manager [] (disk w3))) in
  relevance_score (store w1) 0 = None ∧
  relevance_score (store w2) 0 = Some (1 # 1) ∧
  store w2 !! 0%nat ≠ store w1 !! 0%nat ∧
  chunks (self w4) = Some [0; 1; 2]%nat ∧
  relevance_score (store w4) 0 = Some (1 # 1).
Proof.
  intros w1 w2 w3 w4. repeat split; by vm_compute.
Qed.

(** C6, amended — what a query leaves alone.  Whether they return or
    raise, [search_similar_chunks] and [filter_relevant_chunks] change
    neither the manager's fields (chunk list, index) nor the disk nor the
    size of the heap, and every stored chunk keeps its text and all its
    metadata other than [relevance_score]. *)
Theorem query_leaves_marks_only `{Backend} query k cs scores w :
  marks_only w (snd (search_similar_chunks query k w)) ∧
  marks_only w (snd (filter_relevant_chunks query cs scores w)).
Proof. split; [apply search_marks_only|apply filter_marks_only]. Qed.

(** C9 — no index or no chunk list: both [search_similar_chunks] and
    [save_embeddings] raise their [ValueError] at once and change
    nothing. *)
Theorem state_error_without_index `{Backend} query k filename_prefix w :
  index (self w) = None ∨ chunks (self w) = None →
  search_similar_chunks query k w =
    (Raise (ValueError "Index or chunks not loaded"), w) ∧
  save_embeddings filename_prefix w =
    (Raise (ValueError "No embeddings or chunks to save"), w).
Proof.
  intros Hnone.
  unfold search_similar_chunks, save_embeddings, bind, get_self, raise.
  destruct (index (self w)), (chunks (self w)); try done.
  by destruct Hnone.
Qed.

(** Witness of C9: the manager as [__init__] leaves it. *)
Lemma state_error_without_index_witness :
  let w := fresh_world sample_heap in
  @search_similar_chunks sample_backend "q" 15 w =
    (Raise (ValueError "Index or chunks not loaded"), w) ∧
  save_embeddings "university_combined" w =
    (Raise (ValueError "No embeddings or chunks to save"), w).
Proof.
  intros w.
  apply (@state_error_without_index sample_backend "q" 15
           "university_combined" w).
  left. reflexivity.
Defined.

(** ** Paths and pickles *)

Lemma is_absolute_suffixes p :
  is_absolute (p +:+ "_index.faiss") = is_absolute (p +:+ "_chunks.pkl").
Proof. by destruct p. Qed.

Lemma paths_distinct folder filename_prefix :
  index_path_of folder filename_prefix ≠ chunks_path_of folder filename_prefix.
Proof.
  unfold index_path_of, chunks_path_of, path_join.
  rewrite is_absolute_suffixes.
  assert (Hsuf : ∀ a, a +:+ filename_prefix +:+ "_index.faiss"
                      ≠ a +:+ filename_prefix +:+ "_chunks.pkl").
  { intros a Heq. by do 2 apply String.app_inj in Heq. }
  destruct (is_absolute _); [apply (Hsuf "")|].
  destruct folder as [|c folder']; [apply (Hsuf "")|].
  destruct (ends_with_slash _); [apply Hsuf|].
  intros Heq. apply String.app_inj in Heq. by apply (Hsuf "/").
Qed.

Lemma index_of_lookup c l : c ∈ l → l !! index_of c l = Some c.
Proof.
  induction l as [|y l IH]; intros Hin; [by apply elem_of_nil in Hin|].
  simpl. destruct (decide (c = y)) as [->|Hne]; [done|].
  apply elem_of_cons in Hin as [?|Hin]; [done|]. by apply IH.
Qed.

Lemma pickle_dump_wf σ cs : pickle_wf (pickle_dump σ cs) = true.
Proof.
  unfold pickle_wf, pickle_dump. simpl. apply forallb_forall.
  intros i Hi. apply list_elem_of_In, list_elem_of_fmap in Hi as (c & -> & Hc).
  apply bool_decide_eq_true. rewrite length_fmap.
  eapply lookup_lt_Some, index_of_lookup. by apply elem_of_remove_dups.
Qed.

Lemma pk_contents_dump σ cs :
  live σ cs → Some <$> pk_contents (pickle_dump σ cs) = contents σ cs.
Proof.
  intros Hlive. unfold pk_contents, pickle_dump, contents. simpl.
  rewrite <- !list_fmap_compose. apply list_fmap_ext.
  intros i c Hc. simpl.
  assert (c ∈ remove_dups cs) as Hin
    by by eapply elem_of_remove_dups, list_elem_of_lookup_2.
  rewrite (list_lookup_total_correct _ _ (σ !!! c)).
  - eapply Forall_forall in Hlive; [|by eapply list_elem_of_lookup_2].
    symmetry. by apply list_lookup_lookup_total_lt.
  - by rewrite list_lookup_fmap, index_of_lookup.
Qed.

(** Loading a well-formed pickle yields handles to its chunk sequence. *)
Lemma contents_loaded σ p rest :
  pickle_wf p = true →
  contents (σ ++ pk_objs p ++ rest) ((λ i, length σ + i)%nat <$> pk_refs p)
  = Some <$> pk_contents p.
Proof.
  intros Hwf. unfold contents, pk_contents.
  rewrite <- !list_fmap_compose. apply list_fmap_ext.
  intros j i Hi. simpl.
  assert (i < length (pk_objs p))%nat as Hlt.
  { unfold pickle_wf in Hwf. rewrite forallb_forall in Hwf.
    eapply bool_decide_eq_true, Hwf, list_elem_of_In, list_elem_of_lookup_2.
    exact Hi. }
  rewrite lookup_app_r by lia.
  replace (length σ + i - length σ)%nat with i by lia.
  rewrite lookup_app_l by done.
  by apply list_lookup_lookup_total_lt.
Qed.

Lemma pickle_load_ok path w p :
  disk w !! path = Some (PickleFile p) →
  pickle_wf p = true →
  pickle_load path w =
    (Ok ((λ i, length (store w) + i)%nat <$> pk_refs p),
     World (self w) (store w ++ pk_objs p) (disk w)).
Proof. intros Hf Hwf. unfold pickle_load. by rewrite Hf, Hwf. Qed.

(** ** Save and load *)

(** Writing a file does not change where files can be written. *)
Lemma can_write_insert fs path f path' :
  f ≠ Directory → can_write fs path = true →
  can_write (<[path := f]> fs) path' = can_write fs path'.
Proof.
  intros Hf Hw.
  assert (Hnd : fs !! path ≠ Some Directory).
  { unfold can_write, open_for_writing in Hw.
    by destruct (fs !! path) as [[| |]|]. }
  assert (Hl : ∀ k, (<[path := f]> fs !! k = Some Directory)
                    ↔ (fs !! k = Some Directory)).
  { intros k. destruct (decide (path = k)) as [<-|Hne].
    - rewrite lookup_insert_eq. split; [congruence|done].
    - by rewrite lookup_insert_ne. }
  assert (Hs : ∀ k, is_Some (fs !! k) → is_Some (<[path := f]> fs !! k)).
  { intros k Hk. destruct (decide (path = k)) as [<-|Hne].
    - by rewrite lookup_insert_eq.
    - by rewrite lookup_insert_ne. }
  unfold can_write, open_for_writing.
  pose proof (Hl path') as Hp. pose proof (Hl (dirname path')) as Hd.
  destruct (<[path := f]> fs !! path') as [[| |]|],
    (fs !! path') as [[| |]|];
    try done; try (by (destruct Hp as [Hp1 Hp2]; (discriminate (Hp1 eq_refl) || discriminate (Hp2 eq_refl))));
    destruct (all_slashes (dirname path')); try done;
    destruct (<[path := f]> fs !! dirname path') as [[| |]|],
      (fs !! dirname path') as [[| |]|];
    try done; by (destruct Hd as [Hd1 Hd2]; (discriminate (Hd1 eq_refl) || discriminate (Hd2 eq_refl))).
Qed.

(** A path can be written when it is no directory and the directory it
    names exists. *)
Lemma can_write_under fs path :
  fs !! path ≠ Some Directory →
  all_slashes (dirname path) = false →
  fs !! dirname path = Some Directory →
  can_write fs path = true.
Proof.
  intros Hp Hs Hd. unfold can_write, open_for_writing. rewrite Hs, Hd.
  by destruct (fs !! path) as [[| |]|].
Qed.

Lemma write_index_ok ix path w :
  can_write (disk w) path = true →
  write_index ix path w =
    (Ok (), World (self w) (store w) (<[path := FaissFile ix]> (disk w))).
Proof.
  unfold can_write, write_index, bind, get_disk, set_disk.
  by destruct (open_for_writing _ _).
Qed.

Lemma write_index_raise ix path w :
  can_write (disk w) path = false →
  write_index ix path w =
    (Raise (FaissError "could not open file for writing"), w).
Proof.
  unfold can_write, write_index, bind, get_disk, raise.
  by destruct (open_for_writing _ _).
Qed.

Lemma pickle_dump_to_ok cs path w :
  can_write (disk w) path = true →
  pickle_dump_to cs path w =
    (Ok (), World (self w) (store w)
              (<[path := PickleFile (pickle_dump (store w) cs)]> (disk w))).
Proof.
  unfold can_write, pickle_dump_to, bind, get_disk, lift, get_store, set_disk.
  by destruct (open_for_writing _ _).
Qed.

Lemma pickle_dump_to_raise cs path w :
  can_write (disk w) path = false →
  ∃ e, pickle_dump_to cs path w = (Raise e, w).
Proof.
  unfold can_write, pickle_dump_to, bind, get_disk, lift.
  destruct (open_for_writing _ _) as [|e]; [done|]. by exists e.
Qed.

Lemma save_embeddings_ok filename_prefix w ix cs :
  index (self w) = Some ix →
  chunks (self w) = Some cs →
  can_write (disk w)
    (index_path_of (embeddings_folder (self w)) filename_prefix) = true →
  can_write (disk w)
    (chunks_path_of (embeddings_folder (self w)) filename_prefix) = true →
  save_embeddings filename_prefix w =
    (Ok (index_path_of (embeddings_folder (self w)) filename_prefix,
         chunks_path_of (embeddings_folder (self w)) filename_prefix),
     World (self w) (store w)
       (<[chunks_path_of (embeddings_folder (self w)) filename_prefix :=
            PickleFile (pickle_dump (store w) cs)]>
          (<[index_path_of (embeddings_folder (self w)) filename_prefix :=
               FaissFile ix]> (disk w)))).
Proof.
  intros Hix Hcs Hwi Hwc. unfold save_embeddings, bind at 1, get_self.
  rewrite Hix, Hcs. unfold bind at 1. rewrite write_index_ok by done.
  unfold bind at 1. rewrite pickle_dump_to_ok; [done|].
  cbn [disk]. by rewrite can_write_insert.
Qed.

Lemma load_embeddings_ok filename_prefix w ix p :
  disk w !! index_path_of (embeddings_folder (self w)) filename_prefix
    = Some (FaissFile ix) →
  disk w !! chunks_path_of (embeddings_folder (self w)) filename_prefix
    = Some (PickleFile p) →
  pickle_wf p = true →
  load_embeddings filename_prefix w =
    (Ok true,
     World (built (self w) ((λ i, length (store w) + i)%nat <$> pk_refs p) ix)
       (store w ++ pk_objs p) (disk w)).
Proof.
  intros Hix Hp Hwf. unfold load_embeddings, bind at 1, get_self.
  unfold bind at 1, get_disk, path_exists.
  rewrite !bool_decide_eq_true_2 by by eexists. simpl.
  unfold bind at 1, read_index, bind at 1, get_disk. rewrite Hix.
  unfold ret, bind at 1, set_index, bind at 1. simpl.
  unfold pickle_load. simpl. by rewrite Hp, Hwf.
Qed.

(** Saving and then loading under the same prefix — into any manager that
    uses the same folder, over any heap — gives back the index and handles
    to chunks equal to the saved ones, in order. *)
Lemma load_after_save filename_prefix w ix cs m' σ' :
  index (self w) = Some ix →
  chunks (self w) = Some cs →
  live (store w) cs →
  embeddings_folder m' = embeddings_folder (self w) →
  can_write (disk w)
    (index_path_of (embeddings_folder (self w)) filename_prefix) = true →
  can_write (disk w)
    (chunks_path_of (embeddings_folder (self w)) filename_prefix) = true →
  ∃ paths w2 cs' w3,
    save_embeddings filename_prefix w = (Ok paths, w2) ∧
    self w2 = self w ∧ store w2 = store w ∧
    load_embeddings filename_prefix (World m' σ' (disk w2)) = (Ok true, w3) ∧
    self w3 = built m' cs' ix ∧
    disk w3 = disk w2 ∧
    contents (store w3) cs' = contents (store w) cs.
Proof.
  intros Hix Hcs Hlive Hfolder Hwi Hwc.
  eexists _, _, _, _. split; [by apply save_embeddings_ok|].
  split; [done|]. split; [done|]. split.
  { apply load_embeddings_ok with (ix := ix) (p := pickle_dump (store w) cs).
    - simpl. rewrite Hfolder, lookup_insert_ne by (symmetry; apply paths_distinct).
      apply lookup_insert_eq.
    - simpl. rewrite Hfolder. apply lookup_insert_eq.
    - apply pickle_dump_wf. }
  cbn [self store disk]. split; [done|]. split; [done|].
  rewrite <- (app_nil_r (pk_objs _)).
  rewrite contents_loaded by apply pickle_dump_wf.
  by apply pk_contents_dump.
Qed.

Section RoundTrip.
Context `{Backend}.


End RoundTrip.



(** ** Combining sources *)

(** The loop never touches the manager or the disk and only allocates;
    it ends in [return False] only at a missing artifact. *)
Lemma combine_loop_inv sources acc w r w' :
  combine_loop sources acc w = (r, w') →
  self w' = self w ∧ disk w' = disk w ∧ store w `prefix_of` store w' ∧
  (r = Ok None → ∃ s, s ∈ sources ∧ chunk_artifact w s = None).
Proof.
  revert acc w. induction sources as [|s sources IH]; intros acc w; simpl.
  - intros [= <- <-]. by repeat split.
  - unfold bind at 1, get_self. unfold bind at 1, get_disk.
    unfold path_exists. case_bool_decide as Hex; simpl.
    + unfold bind at 1, pickle_load.
      destruct (disk w !! _) as [[ix|p|]|] eqn:Ef;
        try (intros [= <- <-]; by repeat split).
      destruct (pickle_wf p); [|intros [= <- <-]; by repeat split].
      intros Hloop. apply IH in Hloop as (Hself & Hdisk & Hpre & Hmiss).
      simpl in *. split; [done|]. split; [done|]. split.
      { etrans; [|done]. by apply prefix_app_r. }
      intros Hr. destruct (Hmiss Hr) as (s' & Hin & Hnone).
      exists s'. split; [by right|done].
    + intros [= <- <-]. repeat split; [done|].
      intros _. exists s. split; [left|].
      unfold chunk_artifact. by apply eq_None_not_Some.
Qed.

Lemma combine_loop_all_present sources ps acc w :
  Forall2 (λ s p, chunk_artifact w s = Some (PickleFile p) ∧ pickle_wf p = true)
    sources ps →
  combine_loop sources acc w =
    (Ok (Some (acc ++ loaded_handles (length (store w)) ps)),
     World (self w) (store w ++ concat (pk_objs <$> ps)) (disk w)).
Proof.
  intros Hall. revert acc w Hall.
  induction ps as [|p ps IH] in sources |- *; intros acc w Hall.
  - apply Forall2_nil_inv_r in Hall as ->. simpl.
    by rewrite !app_nil_r, world_eta.
  - apply Forall2_cons_inv_r in Hall as (s & sources' & [Hf Hwf] & Hall & ->).
    simpl. unfold bind at 1, get_self. unfold bind at 1, get_disk.
    unfold path_exists. rewrite bool_decide_eq_true_2 by by eexists.
    simpl. unfold bind at 1. rewrite (pickle_load_ok _ _ p Hf Hwf).
    rewrite IH by done.
    simpl. by rewrite length_app, <- !app_assoc.
Qed.

Lemma combine_loop_missing sources acc w :
  (∀ s f, s ∈ sources → chunk_artifact w s = Some f → readable f) →
  (∃ s, s ∈ sources ∧ chunk_artifact w s = None) →
  ∃ w', combine_loop sources acc w = (Ok None, w').
Proof.
  revert acc w. induction sources as [|s sources IH]; intros acc w Hread Hmiss.
  { destruct Hmiss as (s & Hin & _). by apply elem_of_nil in Hin. }
  simpl. unfold bind at 1, get_self. unfold bind at 1, get_disk.
  unfold path_exists. case_bool_decide as Hex; simpl; [|by eexists].
  destruct Hex as [f Hf].
  destruct (Hread s f) as (p & -> & Hwf); [left|done|].
  unfold bind at 1. rewrite (pickle_load_ok _ _ p Hf Hwf).
  apply IH.
  - intros s' f' Hin. apply Hread. by right.
  - destruct Hmiss as (s' & Hin & Hnone).
    apply elem_of_cons in Hin as [->|Hin]; [|by exists s'].
    unfold chunk_artifact in Hnone. congruence.
Qed.

Lemma contents_app σ cs1 cs2 :
  contents σ (cs1 ++ cs2) = contents σ cs1 ++ contents σ cs2.
Proof. unfold contents. apply fmap_app. Qed.

Lemma contents_loaded_handles σ ps :
  Forall (λ p, pickle_wf p = true) ps →
  contents (σ ++ concat (pk_objs <$> ps)) (loaded_handles (length σ) ps)
  = Some <$> concat (pk_contents <$> ps).
Proof.
  intros Hwf. revert σ. induction Hwf as [|p ps Hp Hps IH]; intros σ; [done|].
  simpl. rewrite contents_app, fmap_app. f_equal.
  - by apply contents_loaded.
  - rewrite <- length_app, app_assoc. apply IH.
Qed.

Lemma contents_total σ cs X :
  contents σ cs = Some <$> X → (λ c, σ !!! c) <$> cs = X.
Proof.
  revert X. induction cs as [|c cs IH]; intros [|x X]; try done.
  simpl. intros [= Hc HX]. f_equal; [|by apply IH].
  by apply list_lookup_total_correct.
Qed.

Lemma contents_live σ cs X : contents σ cs = Some <$> X → live σ cs.
Proof.
  revert X. induction cs as [|c cs IH]; intros [|x X]; try done.
  { intros _. constructor. }
  simpl. intros [= Hc HX]. constructor; [|by eapply IH].
  by eapply lookup_lt_Some.
Qed.

Lemma length_concat_sum {A} (ls : list (list A)) :
  length (concat ls) = sum_list (length <$> ls).
Proof.
  induction ls as [|l ls IH]; [done|]. simpl. by rewrite length_app, IH.
Qed.

Section Combine.
Context `{Backend}.

(** C8 — combining sources.  Provided the source artifacts that exist
    are readable pickles, a missing one makes [combine_embeddings] return
    [False].  When all are present, holding the chunk sequences of [ps],
    the encoder returns one vector per text of their concatenation, and
    the two artifacts of ["university_combined"] can be written in the
    manager's folder, as they can in the folder [__init__] made,
    the call returns [True]; the manager then holds handles to exactly
    that concatenation, in source order, so their number is the sum of the
    sources' chunk counts, next to a fresh index of the encoder's rows,
    one per chunk; both are written under ["university_combined"], and
    loading that prefix recovers the concatenation. *)
Theorem combine_embeddings_spec sources w :
  ((∀ s f, s ∈ sources → chunk_artifact w s = Some f → readable f) →
   (∃ s, s ∈ sources ∧ chunk_artifact w s = None) →
   ∃ w', combine_embeddings sources w = (Ok false, w')) ∧
  (∀ ps emb,
     Forall2 (λ s p, chunk_artifact w s = Some (PickleFile p)
                     ∧ pickle_wf p = true) sources ps →
     let merged := concat (pk_contents <$> ps) in
     encode (text <$> merged) = Ok emb →
     well_shaped (length merged) emb →
     can_write (disk w)
       (index_path_of (embeddings_folder (self w)) "university_combined")
       = true →
     can_write (disk w)
       (chunks_path_of (embeddings_folder (self w)) "university_combined")
       = true →
     ∃ all ix w',
       combine_embeddings sources w = (Ok true, w') ∧
       chunks (self w') = Some all ∧
       contents (store w') all = Some <$> merged ∧
       length all = sum_list (length <$> (pk_contents <$> ps)) ∧
       index (self w') = Some ix ∧
       xb ix = nd_rows emb ∧
       ntotal ix = length all ∧
       disk w' !! index_path_of (embeddings_folder (self w)) "university_combined"
         = Some (FaissFile ix) ∧
       disk w' !! chunks_path_of (embeddings_folder (self w)) "university_combined"
         = Some (PickleFile (pickle_dump (store w') all)) ∧
       ∀ m' σ', embeddings_folder m' = embeddings_folder (self w) →
         ∃ cs' w'',
           load_embeddings "university_combined" (World m' σ' (disk w'))
             = (Ok true, w'') ∧
           chunks (self w'') = Some cs' ∧
           contents (store w'') cs' = Some <$> merged).
Proof.
  split.
  - intros Hread Hmiss.
    destruct (combine_loop_missing sources [] w Hread Hmiss) as [w' Hloop].
    exists w'. unfold combine_embeddings, bind at 1. by rewrite Hloop.
  - intros ps emb Hall merged He (D & Hshape & Hrows) Hwi Hwc.
    set (all := loaded_handles (length (store w)) ps).
    set (σ1 := store w ++ concat (pk_objs <$> ps)).
    assert (Hcont : contents σ1 all = Some <$> merged).
    { apply contents_loaded_handles.
      clear -Hall. induction Hall as [|s p ss ps [_ Hwf] _ IH]; by constructor. }
    assert (Hlive : live σ1 all) by by eapply contents_live.
    assert (Htexts : texts_of σ1 all = text <$> merged).
    { unfold texts_of. rewrite <- (contents_total _ _ _ Hcont).
      by rewrite <- list_fmap_compose. }
    assert (Hlen : length all = length merged).
    { apply (f_equal length) in Hcont. unfold contents in Hcont.
      by rewrite !length_fmap in Hcont. }
    set (ix := FlatIP D (nd_rows emb)).
    set (w1 := World (self w) σ1 (disk w)).
    set (w2 := World (built (self w) all ix) σ1 (disk w)).
    assert (Hbuild : create_embeddings all w1 = (Ok emb, w2)).
    { refine (create_embeddings_ok all w1 emb D _ _); simpl.
      - by rewrite Htexts.
      - by rewrite Hshape. }
    pose proof (save_embeddings_ok "university_combined" w2 ix all
                  eq_refl eq_refl Hwi Hwc) as Hsave.
    eexists all, ix, _. split.
    { unfold combine_embeddings, bind at 1.
      rewrite (combine_loop_all_present sources ps [] w Hall).
      rewrite app_nil_l. fold all σ1 w1. unfold bind at 1. rewrite Hbuild.
      unfold bind at 1. by rewrite Hsave. }
    cbn [self store disk chunks index built embeddings_folder w2].
    split; [done|]. split; [done|]. split.
    { rewrite Hlen. unfold merged. apply length_concat_sum. }
    split; [done|]. split; [done|]. split.
    { unfold ntotal. simpl. by rewrite Hrows, Hlen. }
    split.
    { rewrite lookup_insert_ne by (symmetry; apply paths_distinct).
      apply lookup_insert_eq. }
    split; [apply lookup_insert_eq|].
    intros m' σ' Hfolder.
    destruct (load_after_save "university_combined" w2 ix all m' σ')
      as (paths & w3' & cs' & w4 & Hs & _ & _ & Hl & Hself & _ & Hc);
      try done.
    rewrite Hsave in Hs. injection Hs as <- <-.
    exists cs', w4. split; [exact Hl|]. rewrite Hself. split; [done|].
    by rewrite Hc.
Qed.

(** C10 — a refused combine leaves no trace.  [combine_embeddings]
    returns [False] only when some source's chunk artifact is missing, and
    then the manager's fields and the disk are what they were; the heap
    has only grown by the dictionaries unpickled on the way. *)
Theorem combine_refused_changes_nothing sources w w' :
  combine_embeddings sources w = (Ok false, w') →
  (∃ s, s ∈ sources ∧ chunk_artifact w s = None) ∧
  self w' = self w ∧
  disk w' = disk w ∧
  store w `prefix_of` store w'.
Proof.
  unfold combine_embeddings, bind at 1.
  destruct (combine_loop sources [] w) as [[[all|]|e] w1] eqn:Hloop; [| |done].
  - unfold bind at 1.
    destruct (create_embeddings all w1) as [[emb|e] w2]; [|done].
    unfold bind at 1.
    by destruct (save_embeddings "university_combined" w2) as [[paths|e] w3].
  - intros [= <-].
    apply combine_loop_inv in Hloop as (Hself & Hdisk & Hpre & Hmiss).
    split; [by apply Hmiss|]. by repeat split.
Qed.

End Combine.

(** Witness of C8: with ["c"] missing the call returns [False]; sources
    of two and three chunks combine into five, recovered by a load. *)
Lemma combine_embeddings_spec_witness :
  (∃ w', @combine_embeddings sample_backend ["a"; "c"] sources_world
         = (Ok false, w')) ∧
  (∃ all w' cs' w'',
     @combine_embeddings sample_backend ["a"; "b"] sources_world
       = (Ok true, w') ∧
     chunks (self w') = Some all ∧
     length all = 5%nat ∧
     load_embeddings "university_combined" (World init_manager [] (disk w'))
       = (Ok true, w'') ∧
     chunks (self w'') = Some cs' ∧
     contents (store w'') cs' = contents sample_heap [0; 1; 2; 0; 1]%nat).
Proof.
  split.
  - apply (proj1 (@combine_embeddings_spec sample_backend ["a"; "c"]
                    sources_world)).
    + intros s f Hin Hf. apply elem_of_cons in Hin as [->|Hin].
      * vm_compute in Hf. injection Hf as <-.
        eexists. split; [reflexivity|by vm_compute].
      * apply list_elem_of_singleton in Hin as ->. vm_compute in Hf.
        discriminate Hf.
    + exists "c". split; [right; left|by vm_compute].
  - destruct (proj2 (@combine_embeddings_spec sample_backend ["a"; "b"]
                       sources_world)
                [pickle_dump sample_heap [0; 1]%nat;
                 pickle_dump sample_heap [2; 0; 1]%nat]
                combined_embeddings)
      as (all & ix & w' & Hc & Hcs & _ & Hlen & _ & _ & _ & _ & _ & Hload).
    + repeat constructor; by vm_compute.
    + by vm_compute.
    + exists 2%nat. split; by vm_compute.
    + by vm_compute.
    + by vm_compute.
    + destruct (Hload init_manager [] eq_refl) as (cs' & w'' & Hl & Hcs' & Hcont).
      exists all, w', cs', w''. repeat split; assumption.
Defined.

(** Witness of C10: the refused combine of ["a"] with the missing
    ["c"]. *)
Lemma combine_refused_changes_nothing_witness :
  let res := @combine_embeddings sample_backend ["a"; "c"] sources_world in
  fst res = Ok false ∧
  self (snd res) = self sources_world ∧
  disk (snd res) = disk sources_world.
Proof.
  intros res.
  destruct (@combine_refused_changes_nothing sample_backend ["a"; "c"]
              sources_world (snd res)) as (_ & Hself & Hdisk & _).
  - by vm_compute.
  - split; [by vm_compute|]. by split.
Defined.

(** * Further properties *)

(** ** Loading *)

Lemma load_embeddings_missing filename_prefix w :
  disk w !! index_path_of (embeddings_folder (self w)) filename_prefix = None
  ∨ disk w !! chunks_path_of (embeddings_folder (self w)) filename_prefix = None →
  load_embeddings filename_prefix w = (Ok false, w).
Proof.
  intros Hmiss. unfold load_embeddings, bind at 1, get_self.
  unfold bind at 1, get_disk, path_exists.
  destruct Hmiss as [Hm|Hm].
  - rewrite (bool_decide_eq_false_2 (is_Some (disk w !! index_path_of _ _)))
      by (rewrite Hm; by intros [? ?]).
    done.
  - rewrite (bool_decide_eq_false_2 (is_Some (disk w !! chunks_path_of _ _)))
      by (rewrite Hm; by intros [? ?]).
    by rewrite orb_true_r.
Qed.

(** Both artifacts present: the index is read and assigned first, then
    the chunk artifact is unpickled. *)
Lemma load_embeddings_present filename_prefix w fi fc :
  disk w !! index_path_of (embeddings_folder (self w)) filename_prefix = Some fi →
  disk w !! chunks_path_of (embeddings_folder (self w)) filename_prefix = Some fc →
  load_embeddings filename_prefix w =
    match fi with
    | PickleFile _ => (Raise (FaissError "not a faiss index"), w)
    | Directory => (Raise (FaissError "could not read file"), w)
    | FaissFile ix =>
        match fc with
        | PickleFile p =>
            if pickle_wf p then
              (Ok true,
               World (built (self w)
                        ((λ i, length (store w) + i)%nat <$> pk_refs p) ix)
                 (store w ++ pk_objs p) (disk w))
            else
              (Raise UnpicklingError,
               World (index_assigned (self w) ix) (store w) (disk w))
        | FaissFile _ =>
            (Raise UnpicklingError,
             World (index_assigned (self w) ix) (store w) (disk w))
        | Directory =>
            (Raise (IsADirectoryError
                      (chunks_path_of (embeddings_folder (self w))
                         filename_prefix)),
             World (index_assigned (self w) ix) (store w) (disk w))
        end
    end.
Proof.
  intros Hi Hc. unfold load_embeddings, bind at 1, get_self.
  unfold bind at 1, get_disk, path_exists.
  rewrite !bool_decide_eq_true_2 by by eexists. simpl.
  unfold bind at 1, read_index, bind at 1, get_disk. rewrite Hi.
  destruct fi as [ix|pi|]; [|done..].
  unfold ret, bind at 1, set_index, bind at 1. simpl.
  unfold pickle_load. simpl. rewrite Hc.
  destruct fc as [ix'|p|]; [done| |done]. by destruct (pickle_wf p).
Qed.

(** X1 — a refused load.  [load_embeddings] returns [False] exactly when
    the index artifact or the chunk artifact of the prefix is missing, and
    then the manager, the heap and the disk are what they were. *)
Theorem load_refused_iff_missing filename_prefix w :
  let missing :=
    disk w !! index_path_of (embeddings_folder (self w)) filename_prefix = None
    ∨ disk w !! chunks_path_of (embeddings_folder (self w)) filename_prefix = None in
  (fst (load_embeddings filename_prefix w) = Ok false ↔ missing) ∧
  (missing → load_embeddings filename_prefix w = (Ok false, w)).
Proof.
  intros missing. split; [|apply load_embeddings_missing].
  split; [|intros Hm; by rewrite load_embeddings_missing].
  intros Hf. unfold missing.
  destruct (disk w !! index_path_of _ _) as [fi|] eqn:Hi; [|by left].
  destruct (disk w !! chunks_path_of _ _) as [fc|] eqn:Hc; [|by right].
  rewrite (load_embeddings_present _ _ fi fc Hi Hc) in Hf.
  destruct fi as [ix|pi|]; [|done..].
  destruct fc as [ix'|p|]; [done| |done]. by destruct (pickle_wf p).
Qed.

(** A fresh manager over a disk that holds the chunk artifact of ["a"] but
    no index artifact is refused. *)
Lemma load_refused_iff_missing_witness :
  load_embeddings "a" sources_world = (Ok false, sources_world).
Proof.
  apply (proj2 (load_refused_iff_missing "a" sources_world)). left. reflexivity.
Defined.

(** X2 — a load that fails halfway.  When the index artifact is a FAISS
    index and the chunk artifact exists but cannot be unpickled,
    [load_embeddings] raises — the unpickling error, unless the path names
    a directory — and the manager already holds the index that was read
    next to the chunk list it had before. *)
Theorem load_unreadable_chunks_keeps_new_index filename_prefix w ix fc :
  disk w !! index_path_of (embeddings_folder (self w)) filename_prefix
    = Some (FaissFile ix) →
  disk w !! chunks_path_of (embeddings_folder (self w)) filename_prefix
    = Some fc →
  ¬ readable fc →
  ∃ e,
    load_embeddings filename_prefix w =
      (Raise e, World (index_assigned (self w) ix) (store w) (disk w)) ∧
    (fc ≠ Directory → e = UnpicklingError).
Proof.
  intros Hi Hc Hbad. rewrite (load_embeddings_present _ _ _ _ Hi Hc).
  destruct fc as [ix'|p|]; [by eexists| |by eexists].
  destruct (pickle_wf p) eqn:Hwf; [|by eexists].
  exfalso. apply Hbad. by exists p.
Qed.

(** The cut-short snapshot: the load raises with the index of the
    snapshot already in place. *)
Lemma load_unreadable_chunks_keeps_new_index_witness :
  load_embeddings "kb" (World init_manager sample_heap truncated_disk) =
    (Raise UnpicklingError,
     World (index_assigned init_manager (FlatIP 2 [[1 # 1; 0 # 1]]))
       sample_heap truncated_disk).
Proof.
  destruct (load_unreadable_chunks_keeps_new_index "kb"
              (World init_manager sample_heap truncated_disk)
              (FlatIP 2 [[1 # 1; 0 # 1]]) (PickleFile (Pickled [] [0%nat])))
    as (e & Hl & He).
  - reflexivity.
  - reflexivity.
  - intros (p & [= <-] & Hwf). vm_compute in Hwf. discriminate Hwf.
  - rewrite Hl, He; done.
Defined.

Lemma load_embeddings_true_inv filename_prefix w w' :
  load_embeddings filename_prefix w = (Ok true, w') →
  ∃ ix p,
    disk w !! index_path_of (embeddings_folder (self w)) filename_prefix
      = Some (FaissFile ix) ∧
    disk w !! chunks_path_of (embeddings_folder (self w)) filename_prefix
      = Some (PickleFile p) ∧
    pickle_wf p = true ∧
    w' = World (built (self w) ((λ i, length (store w) + i)%nat <$> pk_refs p) ix)
           (store w ++ pk_objs p) (disk w).
Proof.
  intros Hl.
  destruct (disk w !! index_path_of _ _) as [fi|] eqn:Hi;
    [|by rewrite load_embeddings_missing in Hl by by left].
  destruct (disk w !! chunks_path_of _ _) as [fc|] eqn:Hc;
    [|by rewrite load_embeddings_missing in Hl by by right].
  rewrite (load_embeddings_present _ _ fi fc Hi Hc) in Hl.
  destruct fi as [ix|pi|]; [|done..].
  destruct fc as [ix'|p|]; [done| |done].
  destruct (pickle_wf p) eqn:Hwf; [|done].
  injection Hl as <-. by exists ix, p.
Qed.

(** X3 — a load makes new dictionaries.  After a successful
    [load_embeddings] every handle of the loaded chunk list is new, all of
    them are live, the dictionaries the heap held before are untouched, and
    the disk is unchanged. *)
Theorem load_allocates_fresh_chunks filename_prefix w w' :
  load_embeddings filename_prefix w = (Ok true, w') →
  ∃ ix cs',
    self w' = built (self w) cs' ix ∧
    Forall (λ c, length (store w) ≤ c < length (store w'))%nat cs' ∧
    store w `prefix_of` store w' ∧
    disk w' = disk w.
Proof.
  intros Hl.
  apply load_embeddings_true_inv in Hl as (ix & p & _ & _ & Hwf & ->).
  eexists _, _. split; [done|]. simpl. split; [|split; [by apply prefix_app_r|done]].
  apply Forall_fmap, Forall_forall. intros i Hi. simpl.
  unfold pickle_wf in Hwf. rewrite forallb_forall in Hwf.
  apply list_elem_of_In, Hwf, bool_decide_eq_true in Hi.
  rewrite length_app. lia.
Qed.

Lemma load_allocates_fresh_chunks_witness :
  ∃ w' ix cs',
    load_embeddings "kb" (World init_manager sample_heap stale_disk) = (Ok true, w') ∧
    self w' = built init_manager cs' ix ∧
    Forall (λ c, 4 ≤ c < length (store w'))%nat cs'.
Proof.
  destruct (load_allocates_fresh_chunks "kb"
              (World init_manager sample_heap stale_disk)
              (snd (load_embeddings "kb" (World init_manager sample_heap stale_disk))))
    as (ix & cs' & Hs & Hf & _ & _).
  - by vm_compute.
  - eexists _, ix, cs'. split; [by vm_compute|]. by split.
Defined.

(** X4 — what a load yields is on the disk.  Two managers that use the
    same folder and see the same disk load a prefix alike, whatever they
    held before and whatever their heaps contain: if one succeeds so does
    the other, with the same index and with chunk lists of equal chunks,
    position by position. *)
Theorem load_depends_on_disk_only filename_prefix w1 w2 w1' :
  disk w1 = disk w2 →
  embeddings_folder (self w1) = embeddings_folder (self w2) →
  load_embeddings filename_prefix w1 = (Ok true, w1') →
  ∃ w2' ix cs1 cs2,
    load_embeddings filename_prefix w2 = (Ok true, w2') ∧
    self w1' = built (self w1) cs1 ix ∧
    self w2' = built (self w2) cs2 ix ∧
    contents (store w1') cs1 = contents (store w2') cs2.
Proof.
  intros Hdisk Hfolder Hl.
  apply load_embeddings_true_inv in Hl as (ix & p & Hi & Hc & Hwf & ->).
  rewrite Hdisk, Hfolder in Hi, Hc.
  eexists _, ix, _, _. split.
  { rewrite (load_embeddings_present _ _ _ _ Hi Hc), Hwf. done. }
  split; [done|]. split; [done|]. simpl.
  rewrite <- (app_nil_r (pk_objs p)).
  by rewrite !contents_loaded.
Qed.

Lemma load_depends_on_disk_only_witness :
  ∃ w1' w2' ix cs1 cs2,
    load_embeddings "kb" (World init_manager [] stale_disk) = (Ok true, w1') ∧
    load_embeddings "kb" (World init_manager sample_heap stale_disk) = (Ok true, w2') ∧
    self w1' = built init_manager cs1 ix ∧
    self w2' = built init_manager cs2 ix ∧
    contents (store w1') cs1 = contents (store w2') cs2.
Proof.
  destruct (load_depends_on_disk_only "kb"
              (World init_manager [] stale_disk)
              (World init_manager sample_heap stale_disk)
              (snd (load_embeddings "kb" (World init_manager [] stale_disk))))
    as (w2' & ix & cs1 & cs2 & Hl & H1 & H2 & Hc).
  - reflexivity.
  - reflexivity.
  - by vm_compute.
  - eexists _, w2', ix, cs1, cs2. split; [by vm_compute|]. by repeat split.
Defined.

(** ** Saving *)

(** Whatever its outcome, a save changes the disk at its two artifact
    paths at most, and nothing else of the world. *)
Lemma save_embeddings_touches filename_prefix w r w' :
  save_embeddings filename_prefix w = (r, w') →
  self w' = self w ∧ store w' = store w ∧
  ∀ path,
    path ≠ index_path_of (embeddings_folder (self w)) filename_prefix →
    path ≠ chunks_path_of (embeddings_folder (self w)) filename_prefix →
    disk w' !! path = disk w !! path.
Proof.
  unfold save_embeddings, bind at 1, get_self.
  destruct (index (self w)) as [ix|]; [|by intros [= <- <-]].
  destruct (chunks (self w)) as [cs|]; [|by intros [= <- <-]].
  unfold bind at 1.
  destruct (can_write (disk w) (index_path_of (embeddings_folder (self w))
                                  filename_prefix)) eqn:Hwi.
  - rewrite write_index_ok by done. unfold bind at 1.
    destruct (can_write (<[index_path_of (embeddings_folder (self w))
                             filename_prefix := FaissFile ix]> (disk w))
                (chunks_path_of (embeddings_folder (self w)) filename_prefix))
      eqn:Hwc.
    + rewrite pickle_dump_to_ok by done. intros [= <- <-].
      split; [done|]. split; [done|]. intros path Hi Hc. cbn [disk].
      by rewrite !lookup_insert_ne.
    + destruct (pickle_dump_to_raise cs
                  (chunks_path_of (embeddings_folder (self w)) filename_prefix)
                  (World (self w) (store w)
                     (<[index_path_of (embeddings_folder (self w))
                          filename_prefix := FaissFile ix]> (disk w))) Hwc)
        as [e He].
      cbn [self] in *. rewrite He. intros [= <- <-].
      split; [done|]. split; [done|]. intros path Hi Hc. cbn [disk].
      by rewrite lookup_insert_ne.
  - rewrite write_index_raise by done. by intros [= <- <-].
Qed.



(** ** Artifact paths *)

Lemma string_app_cons c a b : String c a +:+ b = String c (a +:+ b).
Proof. reflexivity. Qed.

Lemma string_app_length a b :
  String.length (a +:+ b) = (String.length a + String.length b)%nat.
Proof.
  induction a as [|c a IH]; [done|].
  rewrite string_app_cons. simpl. by rewrite IH.
Qed.

Lemma string_app_inj_r a b t : a +:+ t = b +:+ t → a = b.
Proof.
  revert b. induction a as [|c a IH]; intros [|c' b] Heq; [done| | |].
  - apply (f_equal String.length) in Heq.
    rewrite !string_app_length in Heq. simpl in Heq. lia.
  - apply (f_equal String.length) in Heq.
    rewrite !string_app_length in Heq. simpl in Heq. lia.
  - rewrite !string_app_cons in Heq. injection Heq as -> Heq.
    f_equal. by apply IH.
Qed.

Lemma string_app_nonempty s t : t ≠ EmptyString → s +:+ t ≠ EmptyString.
Proof. intros Ht. destruct s; [done|]. by rewrite string_app_cons. Qed.

Lemma str_last_app s t : t ≠ EmptyString → str_last (s +:+ t) = str_last t.
Proof.
  intros Ht. induction s as [|c s IH]; [done|].
  rewrite string_app_cons. simpl. rewrite IH.
  pose proof (string_app_nonempty s t Ht) as Hne.
  by destruct (s +:+ t).
Qed.

Lemma str_last_path_join a b :
  b ≠ EmptyString → str_last (path_join a b) = str_last b.
Proof.
  intros Hb. unfold path_join.
  destruct (is_absolute b); [done|].
  destruct a as [|c a]; [done|].
  destruct (ends_with_slash _); [by apply str_last_app|].
  rewrite str_last_app by by apply string_app_nonempty.
  by apply (str_last_app "/").
Qed.

(** An index artifact and a chunk artifact never share a path, whatever
    their prefixes. *)
Lemma index_path_not_chunks_path folder p1 p2 :
  index_path_of folder p1 ≠ chunks_path_of folder p2.
Proof.
  intros Heq. apply (f_equal str_last) in Heq.
  unfold index_path_of, chunks_path_of in Heq.
  rewrite !str_last_path_join, !str_last_app in Heq
    by (try apply string_app_nonempty; done).
  discriminate Heq.
Qed.

Lemma path_join_embeddings b :
  path_join "embeddings" b =
    if is_absolute b then b else "embeddings/" +:+ b.
Proof. unfold path_join. by destruct (is_absolute b). Qed.

Lemma is_absolute_head b : is_absolute b = true → ∃ b', b = String "/" b'.
Proof.
  destruct b as [|c b']; [done|]. simpl.
  destruct (decide (c = "/"%char)) as [->|]; [by exists b'|done].
Qed.

Lemma path_join_embeddings_inj b1 b2 :
  path_join "embeddings" b1 = path_join "embeddings" b2 → b1 = b2.
Proof.
  rewrite !path_join_embeddings.
  destruct (is_absolute b1) eqn:E1, (is_absolute b2) eqn:E2; intros Heq.
  - done.
  - apply is_absolute_head in E1 as [b' ->]. discriminate Heq.
  - apply is_absolute_head in E2 as [b' ->]. discriminate Heq.
  - by apply String.app_inj in Heq.
Qed.

Lemma index_path_of_inj p1 p2 :
  index_path_of "embeddings" p1 = index_path_of "embeddings" p2 → p1 = p2.
Proof.
  intros Heq. apply path_join_embeddings_inj in Heq.
  by apply string_app_inj_r in Heq.
Qed.

Lemma chunks_path_of_inj p1 p2 :
  chunks_path_of "embeddings" p1 = chunks_path_of "embeddings" p2 → p1 = p2.
Proof.
  intros Heq. apply path_join_embeddings_inj in Heq.
  by apply string_app_inj_r in Heq.
Qed.

(** [load_embeddings] reads the disk at the two artifact paths only. *)
Lemma load_embeddings_reads_two_paths filename_prefix m σ fs fs' :
  fs' !! index_path_of (embeddings_folder m) filename_prefix
    = fs !! index_path_of (embeddings_folder m) filename_prefix →
  fs' !! chunks_path_of (embeddings_folder m) filename_prefix
    = fs !! chunks_path_of (embeddings_folder m) filename_prefix →
  load_embeddings filename_prefix (World m σ fs') =
    let res := load_embeddings filename_prefix (World m σ fs) in
    (fst res, World (self (snd res)) (store (snd res)) fs').
Proof.
  intros Hi Hc.
  destruct (fs !! index_path_of _ _) as [fi|] eqn:Ei.
  2:{ rewrite !load_embeddings_missing by (left; simpl; congruence). done. }
  destruct (fs !! chunks_path_of _ _) as [fc|] eqn:Ec.
  2:{ rewrite !load_embeddings_missing by (right; simpl; congruence). done. }
  rewrite (load_embeddings_present _ (World m σ fs') fi fc) by done.
  rewrite (load_embeddings_present _ (World m σ fs) fi fc) by done.
  destruct fi as [ix|pi|]; [|done..].
  destruct fc as [ix'|p|]; [done| |done]. by destruct (pickle_wf p).
Qed.

(** X6 — snapshots under different prefixes do not interfere.  In the
    folder that [__init__] sets, for prefixes that are plain names, without
    a slash, a save under one prefix, whatever its outcome, leaves both
    artifacts of every other prefix as they are, so a later load of the
    other prefix behaves exactly as it would have before the save. *)
Theorem snapshots_do_not_interfere p1 p2 w r w' :
  embeddings_folder (self w) = "embeddings" →
  has_slash p1 = false →
  has_slash p2 = false →
  p1 ≠ p2 →
  save_embeddings p2 w = (r, w') →
  disk w' !! index_path_of "embeddings" p1
    = disk w !! index_path_of "embeddings" p1 ∧
  disk w' !! chunks_path_of "embeddings" p1
    = disk w !! chunks_path_of "embeddings" p1 ∧
  ∀ m σ, embeddings_folder m = "embeddings" →
    load_embeddings p1 (World m σ (disk w')) =
      let res := load_embeddings p1 (World m σ (disk w)) in
      (fst res, World (self (snd res)) (store (snd res)) (disk w')).
Proof.
  intros Hfolder _ _ Hne Hsave.
  apply save_embeddings_touches in Hsave as (_ & _ & Hother).
  rewrite Hfolder in Hother.
  assert (Hlook :
    disk w' !! index_path_of "embeddings" p1
      = disk w !! index_path_of "embeddings" p1 ∧
    disk w' !! chunks_path_of "embeddings" p1
      = disk w !! chunks_path_of "embeddings" p1).
  { split; apply Hother.
    - intros Heq. apply index_path_of_inj in Heq. by apply Hne.
    - apply index_path_not_chunks_path.
    - intros Heq. symmetry in Heq. by apply index_path_not_chunks_path in Heq.
    - intros Heq. apply chunks_path_of_inj in Heq. by apply Hne. }
  destruct Hlook as [Hi Hc]. split; [done|]. split; [done|].
  intros m σ Hm. apply load_embeddings_reads_two_paths; by rewrite Hm.
Qed.

Lemma snapshots_do_not_interfere_witness :
  let w := World (built init_manager [0; 1]%nat (FlatIP 2 [[1 # 1; 0 # 1]; [3 # 5; 4 # 5]]))
             sample_heap stale_disk in
  let w' := snd (save_embeddings "other" w) in
  fst (save_embeddings "other" w)
    = Ok ("embeddings/other_index.faiss", "embeddings/other_chunks.pkl") ∧
  disk w' !! "embeddings/kb_index.faiss" = disk w !! "embeddings/kb_index.faiss" ∧
  disk w' !! "embeddings/kb_chunks.pkl" = disk w !! "embeddings/kb_chunks.pkl".
Proof.
  intros w w'.
  destruct (snapshots_do_not_interfere "kb" "other" w
              (fst (save_embeddings "other" w)) w') as (Hi & Hc & _).
  - reflexivity.
  - reflexivity.
  - reflexivity.
  - discriminate.
  - by vm_compute.
  - split; [by vm_compute|]. by split.
Defined.
(** ** The shape of a search result *)

Lemma sublist_fmap_mono {A B} (f : A → B) (l1 l2 : list A) :
  l1 `sublist_of` l2 → f <$> l1 `sublist_of` f <$> l2.
Proof. induction 1; simpl; by constructor. Qed.

Lemma clearing_sublist thr pairs : clearing thr pairs `sublist_of` pairs.
Proof.
  unfold clearing. induction pairs as [|p l IH]; [done|].
  simpl. destruct (score_ge _ _); by constructor.
Qed.

Lemma zip_fst_sublist {A B} (l : list A) (k : list B) :
  (zip l k).*1 `sublist_of` l.
Proof.
  revert k. induction l as [|x l IH]; intros [|y k]; simpl;
    try apply sublist_nil_l.
  constructor. apply IH.
Qed.

(** The filter returns a sublist of the chunks it was given. *)
Lemma filter_result_sublist query cs scores w r w' :
  filter_relevant_chunks query cs scores w = (Ok r, w') →
  r `sublist_of` cs.
Proof.
  destruct (decide (cs = [])) as [->|Hne]; [by intros [= <- <-]|].
  rewrite filter_relevant_chunks_closed by done.
  destruct (clearing _ _) as [|p kept] eqn:Ek.
  - destruct (np_argmax _); [|done].
    destruct (list_getitem scores _); [|done].
    destruct (list_getitem cs _) as [c0|] eqn:Ec; [|done].
    intros [= <- <-]. apply singleton_sublist_l.
    by eapply list_getitem_elem_of.
  - intros [= <- <-]. change ((p :: kept).*1 `sublist_of` cs).
    rewrite <- Ek. etrans; [|apply (zip_fst_sublist cs scores)].
    apply sublist_fmap_mono, clearing_sublist.
Qed.

(** The filter returns nothing only when it was given nothing. *)
Lemma filter_result_nil query cs scores w r w' :
  filter_relevant_chunks query cs scores w = (Ok r, w') →
  r = [] ↔ cs = [].
Proof.
  destruct (decide (cs = [])) as [->|Hne]; [by intros [= <- <-]|].
  rewrite filter_relevant_chunks_closed by done.
  destruct (clearing _ _) as [|p kept] eqn:Ek.
  - destruct (np_argmax _); [|done].
    destruct (list_getitem scores _); [|done].
    destruct (list_getitem cs _) as [c0|] eqn:Ec; [|done].
    by intros [= <- <-].
  - by intros [= <- <-].
Qed.

(** A loop that ends normally has collected the chunks the ids resolve
    to, in order, one score for each, and every id below [len(self.chunks)]
    did resolve. *)
Lemma search_loop_candidates cs scores i ids results rs r rs' :
  search_loop cs scores i ids results rs = Ok (r, rs') →
  r = results ++ omap (resolve cs) ids ∧
  Forall (λ idx, Z.of_nat (length cs) <= idx ∨ is_Some (resolve cs idx)) ids.
Proof.
  revert i results rs. induction ids as [|idx ids IH]; intros i results rs.
  - simpl. intros [= <- <-]. by rewrite app_nil_r.
  - simpl. unfold resolve at 1 3.
    destruct (Z.ltb_spec idx (Z.of_nat (length cs))) as [Hlt|Hge].
    + destruct (list_getitem cs idx) as [c|] eqn:Ec; [|done].
      destruct (row_getitem scores 0) as [row|]; [|done].
      destruct (row_getitem row i) as [s|]; [|done].
      intros Hloop. apply IH in Hloop as [-> Hall].
      split; [by rewrite <- app_assoc|].
      constructor; [|done]. right. unfold resolve.
      destruct (Z.ltb_spec idx (Z.of_nat (length cs))); [|lia].
      rewrite Ec. by eexists.
    + intros Hloop. apply IH in Hloop as [-> Hall].
      split; [done|]. constructor; [by left|done].
Qed.

Lemma resolve_Some_lt cs idx c :
  resolve cs idx = Some c → idx < Z.of_nat (length cs).
Proof.
  unfold resolve. by destruct (Z.ltb_spec idx (Z.of_nat (length cs))).
Qed.

Lemma omap_resolve_nil cs ids :
  Forall (λ idx, Z.of_nat (length cs) <= idx ∨ is_Some (resolve cs idx)) ids →
  omap (resolve cs) ids = [] ↔ Forall (λ idx, Z.of_nat (length cs) <= idx) ids.
Proof.
  induction 1 as [|idx ids Hidx Hall IH]; [done|]. simpl.
  destruct (resolve cs idx) as [c|] eqn:Er.
  - split; [done|]. intros Hf. apply Forall_cons in Hf as [Hge _].
    apply resolve_Some_lt in Er. lia.
  - destruct Hidx as [Hge|[c Hc]]; [|done].
    rewrite IH. split; [by constructor|by intros [_ ?]%Forall_cons].
Qed.

Lemma length_omap_le {A B} (f : A → option B) (l : list A) :
  (length (omap f l) ≤ length l)%nat.
Proof.
  induction l as [|x l IH]; [done|].
  change (omap f (x :: l))
    with (match f x with Some y => y :: omap f l | None => omap f l end).
  destruct (f x); simpl; lia.
Qed.

Section SearchShape.
Context `{Backend}.

Lemma search_similar_chunks_inv query k w r w' :
  search_similar_chunks query k w = (Ok r, w') →
  ∃ ix cs qe scores indices ids cands cscores,
    index (self w) = Some ix ∧
    chunks (self w) = Some cs ∧
    encode [query] = Ok qe ∧
    index_search ix qe k = Ok (scores, indices) ∧
    indices !! 0%nat = Some ids ∧
    search_loop cs scores 0 ids [] [] = Ok (cands, cscores) ∧
    filter_relevant_chunks query cands cscores w = (Ok r, w').
Proof.
  unfold search_similar_chunks, bind at 1, get_self.
  destruct (index (self w)) as [ix|]; [|done].
  destruct (chunks (self w)) as [cs|]; [|done].
  unfold bind at 1, lift.
  destruct (encode [query]) as [qe|] eqn:He; [|done].
  unfold bind at 1.
  destruct (index_search ix qe k) as [[scores indices]|] eqn:Hi; [|done].
  unfold bind at 1, row_getitem.
  destruct (indices !! 0%nat) as [ids|] eqn:Ei; [|done].
  unfold bind at 1.
  destruct (search_loop cs scores 0 ids [] []) as [[cands cscores]|] eqn:El;
    [|done].
  intros Hf. exists ix, cs, qe, scores, indices, ids, cands, cscores.
  by repeat split.
Qed.

(** X7 — a search result follows FAISS's ranking.  Whenever
    [search_similar_chunks] returns, the chunks it returns are, in order,
    among the chunks that the ids of FAISS's answer resolve to; so it never
    returns more chunks than FAISS returned ids. *)
Theorem search_result_in_faiss_order query k w r w' :
  search_similar_chunks query k w = (Ok r, w') →
  ∃ ix cs qe scores indices ids,
    index (self w) = Some ix ∧
    chunks (self w) = Some cs ∧
    encode [query] = Ok qe ∧
    index_search ix qe k = Ok (scores, indices) ∧
    indices !! 0%nat = Some ids ∧
    r `sublist_of` omap (resolve cs) ids ∧
    (length r ≤ length ids)%nat.
Proof.
  intros Hs. apply search_similar_chunks_inv in Hs
    as (ix & cs & qe & scores & indices & ids & cands & cscores
        & Hix & Hcs & He & Hi & Hids & Hloop & Hf).
  exists ix, cs, qe, scores, indices, ids. repeat split; try done.
  - apply search_loop_candidates in Hloop as [-> _].
    by eapply filter_result_sublist.
  - apply search_loop_candidates in Hloop as [-> _].
    apply filter_result_sublist, sublist_length in Hf.
    pose proof (length_omap_le (resolve cs) ids). simpl in Hf. lia.
Qed.

(** X8 — when a search comes back empty.  Whenever
    [search_similar_chunks] returns, its result is empty exactly when every
    id of FAISS's answer is at or beyond [len(self.chunks)]: one id below
    it is enough for a non-empty result, whatever the scores. *)
Theorem search_empty_iff_no_candidate query k w r w' :
  search_similar_chunks query k w = (Ok r, w') →
  ∃ ix cs qe scores indices ids,
    index (self w) = Some ix ∧
    chunks (self w) = Some cs ∧
    encode [query] = Ok qe ∧
    index_search ix qe k = Ok (scores, indices) ∧
    indices !! 0%nat = Some ids ∧
    (r = [] ↔ Forall (λ idx, Z.of_nat (length cs) <= idx) ids).
Proof.
  intros Hs. apply search_similar_chunks_inv in Hs
    as (ix & cs & qe & scores & indices & ids & cands & cscores
        & Hix & Hcs & He & Hi & Hids & Hloop & Hf).
  exists ix, cs, qe, scores, indices, ids. repeat split; try done.
  - intros ->. apply search_loop_candidates in Hloop as [-> Hall].
    apply omap_resolve_nil; [done|].
    exact (proj1 (filter_result_nil _ _ _ _ _ _ Hf) eq_refl).
  - intros Hge. apply search_loop_candidates in Hloop as [-> Hall].
    apply (proj2 (filter_result_nil _ _ _ _ _ _ Hf)).
    simpl. by apply omap_resolve_nil.
Qed.

End SearchShape.

Lemma search_result_in_faiss_order_witness :
  let w := snd (@create_embeddings sample_backend [0; 1; 2]%nat
                  (fresh_world sample_heap)) in
  ∃ r w' ids,
    @search_similar_chunks sample_backend "dim" 5 w = (Ok r, w') ∧
    r `sublist_of` omap (resolve [0; 1; 2]%nat) ids ∧
    (length r ≤ length ids)%nat.
Proof.
  intros w.
  destruct (@search_result_in_faiss_order sample_backend "dim" 5 w
              (match fst (@search_similar_chunks sample_backend "dim" 5 w) with
               | Ok r => r | Raise _ => [] end)
              (snd (@search_similar_chunks sample_backend "dim" 5 w)))
    as (ix & cs & qe & scores & indices & ids & _ & Hcs & _ & _ & _ & Hsub & Hlen).
  - by vm_compute.
  - injection Hcs as <-. eexists _, _, ids. split; [by vm_compute|]. by split.
Defined.

Lemma search_empty_iff_no_candidate_witness :
  let w := snd (@create_embeddings sample_backend [0; 1; 2]%nat
                  (fresh_world sample_heap)) in
  ∃ r w' ids,
    @search_similar_chunks sample_backend "dim" 5 w = (Ok r, w') ∧
    (r = [] ↔ Forall (λ idx, 3 <= idx) ids).
Proof.
  intros w.
  destruct (@search_empty_iff_no_candidate sample_backend "dim" 5 w
              (match fst (@search_similar_chunks sample_backend "dim" 5 w) with
               | Ok r => r | Raise _ => [] end)
              (snd (@search_similar_chunks sample_backend "dim" 5 w)))
    as (ix & cs & qe & scores & indices & ids & _ & Hcs & _ & _ & _ & Hiff).
  - by vm_compute.
  - injection Hcs as <-. eexists _, _, ids. split; [by vm_compute|]. exact Hiff.
Defined.

(** ** The filter under a changed threshold, and applied twice *)

(** The filter on a non-empty candidate sequence: either the candidates
    that pass the threshold, or the candidate at the first greatest
    score. *)
Lemma filter_pairs_closed query (cands : list (loc * score)) w :
  cands ≠ [] →
  ∃ i c s,
    cands !! i = Some (c, s) ∧
    first_max (to_float <$> cands.*2) i (to_float s) ∧
    filter_relevant_chunks query cands.*1 cands.*2 w =
      match clearing (relevance_threshold (self w)) cands with
      | [] =>
          (Ok [c],
           World (self w) (alter (with_score (to_float s)) c (store w))
             (disk w))
      | p :: kept =>
          (Ok (p :: kept).*1,
           World (self w) (mark_all (store w) (p :: kept)) (disk w))
      end.
Proof.
  intros Hne.
  assert (Hne1 : cands.*1 ≠ []) by (by destruct cands).
  destruct (first_max_candidate cands Hne) as (i & c & s & Hi & Hc & Hmax).
  exists i, c, s. split; [done|]. split; [done|].
  rewrite (filter_relevant_chunks_closed _ _ _ _ Hne1), zip_fst_snd, Hi.
  rewrite !(list_getitem_nat _ i _) by (by rewrite list_lookup_fmap, Hc).
  done.
Qed.

(** Passing the threshold is inherited downwards in the threshold, and
    upwards in the score among scores of one kind. *)
Lemma score_ge_antitone s t1 t2 :
  (t1 <= t2)%Q → score_ge s t2 = true → score_ge s t1 = true.
Proof.
  intros Hle. destruct s as [q|q]; simpl.
  - by apply float32_le_antitone.
  - rewrite !Qle_bool_iff. intros. by apply (Qle_trans _ t2).
Qed.

Lemma score_ge_upward s1 s2 t :
  is_np s1 = is_np s2 → (to_float s1 <= to_float s2)%Q →
  score_ge s1 t = true → score_ge s2 t = true.
Proof.
  destruct s1 as [q1|q1], s2 as [q2|q2]; try done; simpl; intros _ Hle.
  - destruct (np_float32 t) as [r|[]]; simpl; try done.
    rewrite !Qle_bool_iff. intros. by apply (Qle_trans _ q1).
  - rewrite !Qle_bool_iff. intros. by apply (Qle_trans _ q1).
Qed.

Lemma clearing_mono t1 t2 pairs :
  (t1 <= t2)%Q → clearing t2 pairs `sublist_of` clearing t1 pairs.
Proof.
  intros Hle. unfold clearing. induction pairs as [|[c s] l IH]; [done|].
  simpl. destruct (score_ge s t2) eqn:E2.
  - rewrite (score_ge_antitone s t1 t2 Hle E2). by constructor.
  - destruct (score_ge s t1); [by constructor|done].
Qed.

(** X9 — raising the threshold never adds a chunk.  For one candidate
    sequence with scores of one kind — all [np.float32], as the search
    passes them, or all Python floats — and two thresholds [t1 <= t2], as
    the settings slider may set them, the filter returns under [t2] a
    sublist of what it returns under [t1]. *)
Theorem raising_threshold_never_adds query (cands : list (loc * score)) w t1 t2 :
  one_dtype cands.*2 →
  (t1 <= t2)%Q →
  let w1 := snd (set_relevance_threshold t1 w) in
  let w2 := snd (set_relevance_threshold t2 w) in
  ∃ r1 r2,
    fst (filter_relevant_chunks query cands.*1 cands.*2 w1) = Ok r1 ∧
    fst (filter_relevant_chunks query cands.*1 cands.*2 w2) = Ok r2 ∧
    r2 `sublist_of` r1.
Proof.
  intros Hkind Hle w1 w2.
  destruct (decide (cands = [])) as [->|Hne]; [by exists [], []|].
  destruct (filter_pairs_closed query cands w1 Hne)
    as (i & c & s & Hc & Hmax & ->).
  destruct (filter_pairs_closed query cands w2 Hne)
    as (i' & c' & s' & Hc' & Hmax' & ->).
  assert (i' = i) as ->.
  { destruct Hmax as (Hs & Hge & Hlt), Hmax' as (Hs' & Hge' & Hlt').
    destruct (Nat.lt_trichotomy i i') as [Hlt0|[->|Hlt0]]; [|done|].
    - specialize (Hlt' _ _ Hlt0 Hs). specialize (Hge _ _ Hs').
      exfalso. by apply (Qlt_not_le (to_float s) (to_float s')).
    - specialize (Hlt _ _ Hlt0 Hs'). specialize (Hge' _ _ Hs).
      exfalso. by apply (Qlt_not_le (to_float s') (to_float s)). }
  rewrite Hc in Hc'. injection Hc' as <- <-.
  simpl relevance_threshold.
  pose proof (clearing_mono t1 t2 cands Hle) as Hmono.
  destruct (clearing t2 cands) as [|p2 k2] eqn:E2.
  - destruct (clearing t1 cands) as [|p1 k1] eqn:E1.
    + by exists [c], [c].
    + eexists _, _. split; [done|]. split; [done|].
      apply singleton_sublist_l. rewrite <- E1.
      apply (list_elem_of_fmap_2 fst _ (c, s)), elem_of_clearing.
      split; [by eapply list_elem_of_lookup_2|].
      destruct p1 as [c1 s1].
      assert ((c1, s1) ∈ clearing t1 cands) as Hin by (rewrite E1; left).
      apply elem_of_clearing in Hin as [Hin H1].
      apply (score_ge_upward s1 s); [| |done].
      * apply Hkind.
        -- by apply (list_elem_of_fmap_2 snd _ (c1, s1)).
        -- apply (list_elem_of_fmap_2 snd _ (c, s)).
           by eapply list_elem_of_lookup_2.
      * apply list_elem_of_lookup in Hin as [j Hj].
        apply (proj1 (proj2 Hmax) j). by rewrite !list_lookup_fmap, Hj.
  - destruct (clearing t1 cands) as [|p1 k1] eqn:E1.
    + by apply sublist_nil_r in Hmono.
    + eexists _, _. split; [done|]. split; [done|].
      by apply sublist_fmap_mono.
Qed.

Lemma raising_threshold_never_adds_witness :
  let cands := [(0%nat, NpFloat32 (9 # 10)); (1%nat, NpFloat32 (7 # 10));
                (2%nat, NpFloat32 (1 # 10))] in
  let w := fresh_world sample_heap in
  ∃ r1 r2,
    fst (filter_relevant_chunks "q" cands.*1 cands.*2
           (snd (set_relevance_threshold (1 # 2) w))) = Ok r1 ∧
    fst (filter_relevant_chunks "q" cands.*1 cands.*2
           (snd (set_relevance_threshold (4 # 5) w))) = Ok r2 ∧
    r2 `sublist_of` r1.
Proof.
  intros cands w.
  apply (raising_threshold_never_adds "q" cands w (1 # 2) (4 # 5)).
  - intros s1 s2 H1 H2.
    repeat (apply elem_of_cons in H1 as [->|H1]);
      [| | |by apply elem_of_nil in H1];
      repeat (apply elem_of_cons in H2 as [->|H2]);
      done || by apply elem_of_nil in H2.
  - unfold Qle. simpl. lia.
Defined.

(** Among scores of two kinds a higher threshold can bring in a chunk:
    an [np.float32] score passes 0.65 rounded to [float32], a slightly
    greater Python float does not pass 0.65, and under the threshold 0.7
    the fallback picks the latter. *)
Example mixed_scores_threshold_adds :
  let cands := [(0%nat, NpFloat32 (5452595 # 8388608));
                (1%nat, PyFloat (649999999 # 1000000000))] in
  let w := fresh_world sample_heap in
  fst (filter_relevant_chunks "q" cands.*1 cands.*2
         (snd (set_relevance_threshold float_0_65 w))) = Ok [0%nat] ∧
  fst (filter_relevant_chunks "q" cands.*1 cands.*2
         (snd (set_relevance_threshold (7 # 10) w))) = Ok [1%nat].
Proof. by vm_compute. Qed.

Lemma relevance_score_Some_alter_id σ c s :
  relevance_score σ c = Some s → alter (with_score s) c σ = σ.
Proof.
  intros Hs. apply list_eq. intros j.
  destruct (decide (c = j)) as [<-|Hne]; [|by rewrite list_lookup_alter_ne].
  rewrite list_lookup_alter_eq. unfold relevance_score in Hs.
  destruct (σ !! c) as [[t md]|]; [|done]. simpl in *.
  destruct (md !! "relevance_score") as [[| |q]|] eqn:E; try done.
  injection Hs as ->. unfold with_score. simpl. by rewrite insert_id.
Qed.

(** After the marks of [kept], every chunk of [kept] that is live carries
    one of the scores it has in [kept]. *)
Lemma mark_all_recorded σ (kept : list (loc * score)) c :
  (c < length σ)%nat →
  c ∈ kept.*1 →
  ∃ s, (c, s) ∈ kept ∧ relevance_score (mark_all σ kept) c = Some (to_float s).
Proof. apply mark_all_some. Qed.

Lemma clearing_all thr (pairs : list (loc * score)) :
  (∀ c s, (c, s) ∈ pairs → score_ge s thr = true) → clearing thr pairs = pairs.
Proof.
  unfold clearing. induction pairs as [|[c s] l IH]; intros Hall; [done|].
  simpl. rewrite (Hall c s) by left.
  f_equal. apply IH. intros c' s' Hin. apply (Hall c'). by right.
Qed.

Lemma clearing_idemp thr (pairs : list (loc * score)) :
  clearing thr (clearing thr pairs) = clearing thr pairs.
Proof.
  apply clearing_all. intros c s Hin. by apply elem_of_clearing in Hin as [_ ?].
Qed.

(** The marks of [kept], dictionary by dictionary. *)
Lemma last_score_snoc kept c s c' :
  last_score (kept ++ [(c, s)]) c'
  = if decide (c = c') then Some (to_float s) else last_score kept c'.
Proof. unfold last_score. by rewrite foldl_app. Qed.

Lemma with_score_with_score q q' o :
  with_score q (with_score q' o) = with_score q o.
Proof. unfold with_score. simpl. by rewrite insert_insert_eq. Qed.

Lemma mark_all_lookup σ kept c :
  mark_all σ kept !! c
  = match last_score kept c with
    | Some q => with_score q <$> σ !! c
    | None => σ !! c
    end.
Proof.
  induction kept as [|[c' s'] kept IH] using rev_ind; [done|].
  rewrite mark_all_snoc, last_score_snoc. cbn [fst snd].
  destruct (decide (c' = c)) as [->|Hne].
  - rewrite list_lookup_alter_eq, IH.
    destruct (last_score kept c); destruct (σ !! c); simpl; try done.
    by rewrite with_score_with_score.
  - by rewrite list_lookup_alter_ne.
Qed.

(** Writing the same marks again changes nothing. *)
Lemma mark_all_twice σ kept : mark_all (mark_all σ kept) kept = mark_all σ kept.
Proof.
  apply list_eq. intros c. rewrite !mark_all_lookup.
  destruct (last_score kept c) as [q|]; [|done].
  destruct (σ !! c); simpl; [|done]. by rewrite with_score_with_score.
Qed.

(** X10 — filtering again changes nothing.  When the candidates are live
    chunks and the filter has returned [r], the returned chunks are those
    of a subsequence [kept] of the candidates, and filtering [r] again with
    the scores of [kept] returns [r] once more and leaves the world, heap
    included, exactly as the first pass left it. *)
Theorem filter_twice_is_filter_once query (cands : list (loc * score)) w r w' :
  live (store w) cands.*1 →
  filter_relevant_chunks query cands.*1 cands.*2 w = (Ok r, w') →
  ∃ kept,
    kept `sublist_of` cands ∧
    kept.*1 = r ∧
    filter_relevant_chunks query r kept.*2 w' = (Ok r, w').
Proof.
  intros Hlive Hf.
  destruct (decide (cands = [])) as [->|Hne].
  { injection Hf as <- <-. by exists []. }
  destruct (filter_pairs_closed query cands w Hne)
    as (i & c & s & Hc & Hmax & Hf').
  rewrite Hf' in Hf. clear Hf'.
  set (thr := relevance_threshold (self w)) in *.
  assert (Hin : (c, s) ∈ cands) by by eapply list_elem_of_lookup_2.
  destruct (clearing thr cands) as [|p kept] eqn:Ek.
  - injection Hf as <- <-. exists [(c, s)].
    split; [by apply singleton_sublist_l|]. split; [done|].
    assert (Hlow : score_ge s thr = false).
    { destruct (score_ge s thr) eqn:E; [|done].
      assert ((c, s) ∈ clearing thr cands) as Hin'
        by by apply elem_of_clearing.
      rewrite Ek in Hin'. by apply elem_of_nil in Hin'. }
    destruct (filter_pairs_closed query [(c, s)]
                (World (self w) (alter (with_score (to_float s)) c (store w))
                   (disk w)))
      as (i' & c' & s' & Hc' & _ & Hf'); [done|].
    destruct i' as [|i']; [|done]. injection Hc' as <- <-.
    etrans; [exact Hf'|]. clear Hf'.
    cbn [self relevance_threshold store disk]. fold thr.
    unfold clearing. cbn [List.filter snd]. rewrite Hlow.
    do 2 f_equal.
    apply relevance_score_Some_alter_id, relevance_score_alter_eq.
    eapply Forall_forall in Hlive; [done|].
    by apply (list_elem_of_fmap_2 fst _ (c, s)).
  - assert (Hr : r = (p :: kept).*1) by congruence.
    assert (Hw : w' = World (self w) (mark_all (store w) (p :: kept)) (disk w))
      by congruence.
    clear Hf. rewrite <- Ek in Hr, Hw. subst r w'.
    exists (clearing thr cands).
    split; [apply clearing_sublist|]. split; [done|].
    assert (Hne' : (clearing thr cands).*1 ≠ []) by (by rewrite Ek).
    rewrite filter_relevant_chunks_closed by done.
    cbn [self store disk relevance_threshold]. fold thr.
    rewrite zip_fst_snd, clearing_idemp, Ek, <- Ek.
    by rewrite mark_all_twice.
Qed.

Lemma filter_twice_is_filter_once_witness :
  let s := NpFloat32 (5452595 # 8388608) in
  let cands := [(0%nat, s); (1%nat, s); (2%nat, NpFloat32 (1 # 10))] in
  let w := fresh_world sample_heap in
  let res := filter_relevant_chunks "q" cands.*1 cands.*2 w in
  ∃ kept,
    kept `sublist_of` cands ∧
    kept.*1 = [0; 1]%nat ∧
    filter_relevant_chunks "q" [0; 1]%nat kept.*2 (snd res)
      = (Ok [0; 1]%nat, snd res).
Proof.
  intros s cands w res.
  apply (filter_twice_is_filter_once "q" cands w [0; 1]%nat (snd res)).
  - repeat constructor; simpl; lia.
  - by vm_compute.
Defined.

(** ** Selecting chunks by source type *)

Lemma get_chunks_by_source_type_eq source_type w :
  get_chunks_by_source_type source_type w =
    (Ok (of_type (store w) source_type (default [] (chunks (self w)))), w).
Proof.
  unfold get_chunks_by_source_type, bind at 1, get_self.
  destruct (chunks (self w)) as [[|c cs]|]; try done.
Qed.

Lemma of_type_sublist σ source_type cs : of_type σ source_type cs `sublist_of` cs.
Proof.
  unfold of_type. induction cs as [|c cs IH]; [done|].
  simpl. destruct (has_type _ _); by constructor.
Qed.

Lemma has_type_exclusive t1 t2 o :
  t1 ≠ t2 → has_type t1 o = true → has_type t2 o = false.
Proof.
  unfold has_type. intros Hne.
  destruct (metadata o !! "type") as [[t| |]|]; try done.
  intros ->%bool_decide_eq_true. by apply bool_decide_eq_false.
Qed.

(** X11 — the two source types split the corpus.  When every held chunk
    is of type ["pdf"] or ["web"], as the two ingestion paths make them,
    [get_chunks_by_source_type] changes nothing, returns for each type a
    sublist of the held chunks, and the two selections together hold every
    chunk exactly once. *)
Theorem source_types_partition w cs :
  chunks (self w) = Some cs →
  (∀ c, c ∈ cs → has_type "pdf" (store w !!! c) = true
               ∨ has_type "web" (store w !!! c) = true) →
  ∃ pdf web,
    get_chunks_by_source_type "pdf" w = (Ok pdf, w) ∧
    get_chunks_by_source_type "web" w = (Ok web, w) ∧
    pdf `sublist_of` cs ∧ web `sublist_of` cs ∧
    pdf ++ web ≡ₚ cs.
Proof.
  intros Hcs Htypes. rewrite !get_chunks_by_source_type_eq, Hcs. simpl.
  eexists _, _. split; [done|]. split; [done|].
  split; [apply of_type_sublist|]. split; [apply of_type_sublist|].
  unfold of_type. clear Hcs. induction cs as [|c cs IH]; [done|].
  assert (IH' := IH (λ c' Hc', Htypes c' (list_elem_of_further _ _ _ Hc'))).
  simpl. destruct (Htypes c) as [Hp|Hw]; [left| |].
  - rewrite Hp, (has_type_exclusive "pdf" "web") by done. simpl.
    by constructor.
  - rewrite Hw, (has_type_exclusive "web" "pdf") by done.
    rewrite <- Permutation_middle. by constructor.
Qed.

Lemma source_types_partition_witness :
  let w := World (built init_manager [0; 2; 1; 3]%nat (FlatIP 2 []))
             sample_heap ∅ in
  get_chunks_by_source_type "pdf" w = (Ok [0; 1]%nat, w) ∧
  get_chunks_by_source_type "web" w = (Ok [2; 3]%nat, w) ∧
  [0; 1; 2; 3]%nat ≡ₚ [0; 2; 1; 3]%nat.
Proof.
  intros w.
  destruct (source_types_partition w [0; 2; 1; 3]%nat)
    as (pdf & web & Hp & Hw & _ & _ & Hperm).
  - reflexivity.
  - intros c Hc. repeat (apply elem_of_cons in Hc as [->|Hc]);
      [left|right|left|right|by apply elem_of_nil in Hc]; by vm_compute.
  - assert (pdf = [0; 1]%nat) as ->.
    { assert (E : get_chunks_by_source_type "pdf" w = (Ok [0; 1]%nat, w))
        by by vm_compute.
      rewrite Hp in E. by injection E. }
    assert (web = [2; 3]%nat) as ->.
    { assert (E : get_chunks_by_source_type "web" w = (Ok [2; 3]%nat, w))
        by by vm_compute.
      rewrite Hw in E. by injection E. }
    by repeat split.
Defined.

Lemma has_type_persistent_part source_type o o' :
  persistent_part o' = persistent_part o →
  has_type source_type o' = has_type source_type o.
Proof.
  unfold persistent_part, has_type. intros [= _ Hmd].
  apply (f_equal (λ m : gmap string value, m !! "type")) in Hmd.
  rewrite !lookup_delete_ne in Hmd by done. by rewrite Hmd.
Qed.

Lemma of_type_marks_only w w' source_type cs :
  marks_only w w' → of_type (store w') source_type cs = of_type (store w) source_type cs.
Proof.
  intros (_ & _ & Hlen & Hpp). unfold of_type.
  induction cs as [|c cs IH]; [done|]. simpl. rewrite IH.
  assert (has_type source_type (store w' !!! c)
          = has_type source_type (store w !!! c)) as ->; [|done].
  specialize (Hpp c). rewrite !list_lookup_total_alt.
  destruct (store w !! c) as [o|], (store w' !! c) as [o'|]; try done.
  simpl. apply has_type_persistent_part. apply (inj Some). exact Hpp.
Qed.

(** X12 — queries do not move chunks between source types.  The
    selection by source type is the same after any
    [search_similar_chunks] as before it, whether the search returned or
    raised: the relevance marks it leaves never touch a chunk's type. *)
Theorem selection_survives_queries `{Backend} query k source_type w :
  fst (get_chunks_by_source_type source_type
         (snd (search_similar_chunks query k w)))
  = fst (get_chunks_by_source_type source_type w).
Proof.
  pose proof (search_marks_only query k w) as Hm.
  rewrite !get_chunks_by_source_type_eq. simpl.
  destruct Hm as (Hself & Hrest). rewrite Hself.
  f_equal. apply of_type_marks_only. by split.
Qed.

(** ** From the filter to the relevance test of the generator *)

Lemma score_above_recorded σ bound c s :
  relevance_score σ c = Some s →
  score_above bound (σ !!! c) = Returns (Qltb bound s).
Proof.
  unfold relevance_score, score_above. rewrite list_lookup_total_alt.
  destruct (σ !! c) as [o|]; [|done]. simpl.
  destruct (metadata o !! "relevance_score") as [[| |q]|]; try done.
  by intros [= ->].
Qed.

Lemma chunks_above_all σ bound l :
  (∀ c, c ∈ l → score_above bound (σ !!! c) = Returns true) →
  chunks_above σ bound l = Returns l.
Proof.
  induction l as [|c l IH]; intros Hall; [done|].
  simpl. rewrite Hall by left. rewrite IH; [done|].
  intros c' Hc'. apply Hall. by right.
Qed.

(** A score that passes a threshold above 0.2 is itself above 0.2: the
    [float32] nearest to 0.2 lies above it. *)
Lemma np_float32_0_2 : np_float32 float_0_2 = Finite32 (13421773 # 67108864).
Proof. by vm_compute. Qed.

Lemma score_ge_above_0_2 s thr :
  (float_0_2 < thr)%Q → score_ge s thr = true → (float_0_2 < to_float s)%Q.
Proof.
  intros Hthr Hs. destruct s as [q|q]; simpl in *.
  - apply (float32_le_antitone float_0_2 thr q) in Hs; [|by apply Qlt_le_weak].
    rewrite np_float32_0_2 in Hs. simpl in Hs. apply Qle_bool_iff in Hs.
    apply (Qlt_le_trans _ (13421773 # 67108864)); [|done].
    by vm_compute.
  - apply Qle_bool_iff in Hs. by apply (Qlt_le_trans _ thr).
Qed.

Section Acceptance.
Context `{StrMethods}.

(** X13 — acceptance follows the best score.  When the threshold is above
    0.2, as the default 0.65 is, and the candidates are live chunks, the
    relevance test of the generator on what the filter returned does not
    raise and does not depend on the question: it accepts exactly when the
    best candidate's score exceeds 0.2. *)
Theorem acceptance_follows_best_score query question
    (cands : list (loc * score)) w r w' :
  cands ≠ [] →
  live (store w) cands.*1 →
  (float_0_2 < relevance_threshold (self w))%Q →
  filter_relevant_chunks query cands.*1 cands.*2 w = (Ok r, w') →
  ∃ i s,
    first_max (to_float <$> cands.*2) i s ∧
    is_contextual_match (store w') question r
      = Returns (Qltb float_0_2 s).
Proof.
  intros Hne Hlive Hthr Hf.
  destruct (filter_pairs_closed query cands w Hne)
    as (i & c & s & Hc & Hmax & Hf').
  rewrite Hf' in Hf. clear Hf'. exists i, (to_float s). split; [done|].
  set (thr := relevance_threshold (self w)) in *.
  assert (Hlive' : ∀ c' s', (c', s') ∈ cands → (c' < length (store w))%nat).
  { intros c' s' Hin. eapply Forall_forall in Hlive; [done|].
    by apply (list_elem_of_fmap_2 fst _ (c', s')). }
  destruct (clearing thr cands) as [|p kept] eqn:Ek.
  - injection Hf as <- <-. cbn [store].
    assert (Hrs : relevance_score
                    (alter (with_score (to_float s)) c (store w)) c
                  = Some (to_float s)).
    { apply relevance_score_alter_eq, (Hlive' c s).
      by eapply list_elem_of_lookup_2. }
    unfold is_contextual_match, chunks_above.
    rewrite !(score_above_recorded _ _ _ _ Hrs).
    destruct (Qltb float_0_2 (to_float s)) eqn:E; [done|].
    by destruct (Qltb float_0_15 (to_float s)).
  - assert (Hr : r = (p :: kept).*1) by congruence.
    assert (Hw : w' = World (self w) (mark_all (store w) (p :: kept)) (disk w))
      by congruence.
    clear Hf. rewrite <- Ek in Hr, Hw. subst r w'. cbn [store].
    assert (Hrec : ∀ c', c' ∈ (clearing thr cands).*1 →
              ∃ s', (float_0_2 < s')%Q ∧
                relevance_score (mark_all (store w) (clearing thr cands)) c'
                  = Some s').
    { intros c' Hin.
      destruct (mark_all_recorded (store w) (clearing thr cands) c')
        as (s' & HinK & Hs'); [|done|].
      - apply list_elem_of_fmap in Hin as ([c'' s''] & -> & Hin).
        apply elem_of_clearing in Hin as [Hin _]. by eapply Hlive'.
      - exists (to_float s'). split; [|done].
        apply elem_of_clearing in HinK as [_ ?].
        by apply (score_ge_above_0_2 s' thr). }
    assert (Hbest : Qltb float_0_2 (to_float s) = true).
    { apply Qltb_true. destruct p as [c1 s1].
      assert ((c1, s1) ∈ clearing thr cands) as Hin by (rewrite Ek; left).
      apply elem_of_clearing in Hin as [Hin H1].
      apply list_elem_of_lookup in Hin as [j Hj].
      apply (Qlt_le_trans _ (to_float s1));
        [by apply (score_ge_above_0_2 s1 thr)|].
      apply (proj1 (proj2 Hmax) j). by rewrite !list_lookup_fmap, Hj. }
    rewrite Hbest. unfold is_contextual_match.
    destruct ((clearing thr cands).*1) as [|c0 r0] eqn:Er.
    { apply fmap_nil_inv in Er. by rewrite Ek in Er. }
    rewrite <- Er in *.
    rewrite !chunks_above_all.
    + rewrite Er. by rewrite bool_decide_eq_true_2 by (simpl; lia).
    + intros c' Hin. destruct (Hrec c' Hin) as (s' & Hle & Hs').
      rewrite (score_above_recorded _ _ _ _ Hs'). f_equal.
      apply Qltb_true. by apply (Qlt_trans _ float_0_2).
    + intros c' Hin. destruct (Hrec c' Hin) as (s' & Hle & Hs').
      rewrite (score_above_recorded _ _ _ _ Hs'). f_equal.
      by apply Qltb_true.
Qed.

End Acceptance.

Lemma acceptance_follows_best_score_witness :
  let cands := [(1%nat, NpFloat32 (3 # 5)); (2%nat, NpFloat32 (1 # 10))] in
  let w := fresh_world sample_heap in
  let res := filter_relevant_chunks "q" cands.*1 cands.*2 w in
  ∃ i s,
    first_max (to_float <$> cands.*2) i s ∧
    @is_contextual_match ascii_methods (store (snd res)) "Where is the MOON?" [1%nat]
      = Returns (Qltb float_0_2 s).
Proof.
  intros cands w res.
  apply (@acceptance_follows_best_score ascii_methods "q" "Where is the MOON?"
           cands w [1%nat] (snd res)).
  - done.
  - repeat constructor; simpl; lia.
  - reflexivity.
  - by vm_compute.
Defined.

(** ** Retrieval by data source *)

Lemma take_of_type_has_type σ source_type cs n c :
  c ∈ take n (of_type σ source_type cs) → has_type source_type (σ !!! c) = true.
Proof.
  intros Hin.
  assert (c ∈ of_type σ source_type cs) as Hc
    by (eapply elem_of_sublist; [done|apply sublist_take]).
  unfold of_type in Hc. apply list_elem_of_In, filter_In in Hc. apply Hc.
Qed.

Section RetrievalFacts.
Context `{Backend}.

(** X14 — retrieval for one data source.  For a data source other than
    ["all"], the chunks handed to the generator are at most 15, each of the
    selected type (["pdf"], or ["web"] for anything else), in the order of
    the search result they are taken from, and all of them are chunks the
    manager holds. *)
Theorem relevant_chunks_for_one_source data_source prompt w r w' :
  data_source ≠ "all" →
  relevant_chunks_for data_source prompt w = (Ok r, w') →
  let source_type := if decide (data_source = "pdf") then "pdf" else "web" in
  ∃ all_chunks,
    search_similar_chunks prompt 30 w = (Ok all_chunks, w') ∧
    r `sublist_of` all_chunks ∧
    (length r ≤ 15)%nat ∧
    (∀ c, c ∈ r → has_type source_type (store w' !!! c) = true) ∧
    (∀ cs c, chunks (self w) = Some cs → c ∈ r → c ∈ cs).
Proof.
  intros Hne. unfold relevant_chunks_for.
  destruct (decide (data_source = "all")) as [|_]; [done|].
  assert (Hbody : ∀ t,
    (let* all_chunks := search_similar_chunks prompt 30 in
     let* σ := get_store in ret (take 15 (of_type σ t all_chunks))) w = (Ok r, w') →
    ∃ all_chunks,
      search_similar_chunks prompt 30 w = (Ok all_chunks, w') ∧
      r `sublist_of` all_chunks ∧ (length r ≤ 15)%nat ∧
      (∀ c, c ∈ r → has_type t (store w' !!! c) = true) ∧
      (∀ cs c, chunks (self w) = Some cs → c ∈ r → c ∈ cs)).
  { intros t. unfold bind at 1.
    destruct (search_similar_chunks prompt 30 w) as [[all_chunks|e] w1] eqn:Hs;
      [|done].
    unfold bind, get_store, ret. intros [= <- <-].
    exists all_chunks. split; [done|].
    assert (Hsub : take 15 (of_type (store w1) t all_chunks)
                     `sublist_of` all_chunks).
    { etrans; [apply sublist_take|apply of_type_sublist]. }
    split; [done|]. split; [rewrite length_take; lia|]. split.
    - intros c. apply take_of_type_has_type.
    - intros cs c Hcs Hc.
      eapply search_result_subset; [done|done|].
      by eapply elem_of_sublist. }
  destruct (decide (data_source = "pdf")); intros Hr; by apply Hbody.
Qed.

End RetrievalFacts.

Lemma relevant_chunks_for_one_source_witness :
  let w := snd (@create_embeddings sample_backend [0; 1; 2]%nat
                  (fresh_world sample_heap)) in
  ∃ r w',
    @relevant_chunks_for sample_backend "web" "gamma" w = (Ok r, w') ∧
    (length r ≤ 15)%nat ∧
    (∀ c, c ∈ r → has_type "web" (store w' !!! c) = true).
Proof.
  intros w.
  destruct (@relevant_chunks_for_one_source sample_backend "web" "gamma" w
              (match fst (@relevant_chunks_for sample_backend "web" "gamma" w) with
               | Ok r => r | Raise _ => [] end)
              (snd (@relevant_chunks_for sample_backend "web" "gamma" w)))
    as (all_chunks & _ & _ & Hlen & Htype & _).
  - discriminate.
  - by vm_compute.
  - eexists _, _. split; [by vm_compute|]. by split.
Defined.

(** ** Ingestion *)

Lemma dict_set_keys {V} k (v : V) d :
  ∀ k', k' ∈ (dict_set k v d).*1 ↔ k' = k ∨ k' ∈ d.*1.
Proof.
  induction d as [|[k0 v0] d IH]; intros k'; simpl.
  - rewrite list_elem_of_singleton. split; [by left|].
    intros [?|Hin]; [done|by apply elem_of_nil in Hin].
  - destruct (decide (k = k0)) as [->|Hne]; simpl.
    + rewrite !elem_of_cons. tauto.
    + rewrite !elem_of_cons, IH. tauto.
Qed.

Lemma dict_set_NoDup {V} k (v : V) d :
  NoDup d.*1 → NoDup (dict_set k v d).*1.
Proof.
  induction d as [|[k0 v0] d IH]; simpl; intros Hnd.
  - apply NoDup_singleton.
  - apply NoDup_cons in Hnd as [Hk0 Hnd].
    destruct (decide (k = k0)) as [->|Hne]; simpl.
    + by apply NoDup_cons.
    + apply NoDup_cons. split; [|by apply IH].
      rewrite dict_set_keys. intros [?|?]; [done|done].
Qed.

Lemma dict_set_elem_of {V} k (v : V) d k' v' :
  (k', v') ∈ dict_set k v d → (k', v') = (k, v) ∨ (k', v') ∈ d.
Proof.
  induction d as [|[k0 v0] d IH]; simpl.
  - intros Hin. apply list_elem_of_singleton in Hin. by left.
  - destruct (decide (k = k0)) as [->|Hne]; intros Hin;
      apply elem_of_cons in Hin as [Hin|Hin].
    + by left.
    + right. by right.
    + right. rewrite Hin. left.
    + destruct (IH Hin); [by left|right; by right].
Qed.

Lemma foldl_invariant {A B} (P : A → Prop) (f : A → B → A) l a :
  P a → (∀ a x, x ∈ l → P a → P (f a x)) → P (foldl f a l).
Proof.
  revert a. induction l as [|x l IH]; intros a Ha Hstep; [done|].
  simpl. apply IH.
  - apply Hstep; [left|done].
  - intros a' x' Hx'. apply Hstep. by right.
Qed.

Section IngestionFacts.
Context `{StrMethods} `{PdfIO} `{TextSplitter} `{Scraper}.

Lemma load_pdf_cases root file d :
  (load_pdf root file d = d) ∨
  (∃ pages,
     str_endswith ".pdf" (str_lower file) = true ∧
     pdf_page_texts (path_join root file) = Ok pages ∧
     str_strip (foldl String.append "" pages) ≠ EmptyString ∧
     load_pdf root file d = dict_set file (foldl String.append "" pages) d).
Proof.
  unfold load_pdf.
  destruct (str_endswith _ _) eqn:Hend; [|by left].
  destruct (pdf_page_texts _) as [pages|e] eqn:Hp; [|by left].
  destruct (str_strip _) eqn:Hs; [by left|].
  right. exists pages. rewrite Hs. by repeat split.
Qed.

Lemma load_pdf_keeps_keys root file d k :
  k ∈ d.*1 → k ∈ (load_pdf root file d).*1.
Proof.
  intros Hk. destruct (load_pdf_cases root file d) as [->|(pages & _ & _ & _ & ->)];
    [done|].
  apply dict_set_keys. by right.
Qed.

Lemma load_pdfs_files_keep_keys root files d k :
  k ∈ d.*1 → k ∈ (foldl (λ d file, load_pdf root file d) d files).*1.
Proof.
  intros Hk. apply (foldl_invariant (λ d, k ∈ d.*1)); [done|].
  intros d' file _. apply load_pdf_keeps_keys.
Qed.

(** X15 — what [load_pdfs_from_directory] keeps.  The dictionary it
    returns has no file name twice; each of its entries is a file of the
    walk whose lower-cased name ends in [.pdf], read without an exception,
    with its non-blank text; and the name of every such file is a key.  A
    file that cannot be read or has no text leaves no entry and does not
    stop the others. *)
Theorem load_pdfs_keeps_readable_pdfs directory_path :
  NoDup (load_pdfs_from_directory directory_path).*1 ∧
  (∀ file text,
     (file, text) ∈ load_pdfs_from_directory directory_path →
     qualifying directory_path file text) ∧
  (∀ file text,
     qualifying directory_path file text →
     file ∈ (load_pdfs_from_directory directory_path).*1).
Proof.
  split; [|split].
  - unfold load_pdfs_from_directory.
    apply (foldl_invariant (λ d, NoDup d.*1)); [constructor|].
    intros d [root files] _ Hd. simpl.
    apply (foldl_invariant (λ d, NoDup d.*1)); [done|].
    intros d' file _ Hnd.
    destruct (load_pdf_cases root file d') as [->|(pages & _ & _ & _ & ->)];
      [done|by apply dict_set_NoDup].
  - unfold load_pdfs_from_directory.
    apply (foldl_invariant
      (λ d, ∀ file text, (file, text) ∈ d → qualifying directory_path file text)).
    { intros ?? Hin. by apply elem_of_nil in Hin. }
    intros d [root files] Hentry Hd. simpl.
    apply (foldl_invariant
      (λ d, ∀ file text, (file, text) ∈ d → qualifying directory_path file text));
      [done|].
    intros d' file Hfile Hq.
    destruct (load_pdf_cases root file d') as [->|(pages & Hend & Hp & Hs & ->)];
      [done|].
    intros file' text' Hin. apply dict_set_elem_of in Hin as [[= -> ->]|Hin].
    + by exists root, files, pages.
    + by apply Hq.
  - intros file text (root & files & pages & Hentry & Hfile & Hend & Hp & -> & Hs).
    unfold load_pdfs_from_directory.
    apply list_elem_of_split in Hentry as (l1 & l2 & ->).
    apply list_elem_of_split in Hfile as (f1 & f2 & ->).
    rewrite foldl_app. simpl.
    apply (foldl_invariant (λ d, file ∈ d.*1)).
    2:{ intros d [root' files'] _. simpl. apply load_pdfs_files_keep_keys. }
    rewrite foldl_app. simpl. apply load_pdfs_files_keep_keys.
    unfold load_pdf. rewrite Hend, Hp.
    destruct (str_strip _); [done|].
    apply dict_set_keys. by left.
Qed.

Lemma append_chunks_spec make i texts acc w :
  append_chunks make i texts acc w =
    (Ok (acc ++ seq (length (store w)) (length texts)),
     World (self w) (store w ++ imap (λ j, make (i + j)%nat) texts) (disk w)).
Proof.
  revert i acc w. induction texts as [|t texts IH]; intros i acc w.
  - simpl. unfold ret. by rewrite !app_nil_r, world_eta.
  - simpl. unfold bind, alloc_chunk. rewrite IH. simpl.
    rewrite length_app, <- !app_assoc. simpl.
    rewrite Nat.add_0_r, Nat.add_1_r. do 4 f_equal.
    apply imap_ext. intros j x _. simpl. f_equal. lia.
Qed.

Lemma pdf_chunks_of_cons filename content items chunk_size chunk_overlap :
  pdf_chunks_of ((filename, content) :: items) chunk_size chunk_overlap =
    imap (pdf_chunk filename) (split_text chunk_size chunk_overlap content)
    ++ pdf_chunks_of items chunk_size chunk_overlap.
Proof. reflexivity. Qed.

Lemma web_chunks_of_cons item l chunk_size chunk_overlap :
  web_chunks_of (item :: l) chunk_size chunk_overlap =
    (if decide (status item = "success")
     then imap (web_chunk (url item))
            (split_text chunk_size chunk_overlap (page_text item))
     else [])
    ++ web_chunks_of l chunk_size chunk_overlap.
Proof. reflexivity. Qed.

Lemma process_pdf_items_spec items chunk_size chunk_overlap acc w :
  new_splitter chunk_size chunk_overlap = Ok () →
  process_pdf_items items chunk_size chunk_overlap acc w =
    (Ok (acc ++ seq (length (store w))
                  (length (pdf_chunks_of items chunk_size chunk_overlap))),
     World (self w)
       (store w ++ pdf_chunks_of items chunk_size chunk_overlap) (disk w)).
Proof.
  intros Hnew.
  revert acc w. induction items as [|[filename content] items IH]; intros acc w.
  - simpl. unfold ret. by rewrite !app_nil_r, world_eta.
  - rewrite pdf_chunks_of_cons. cbn [process_pdf_items].
    unfold bind at 1, lift, split_text_into_chunks. rewrite Hnew.
    unfold bind at 1.
    rewrite append_chunks_spec, IH. cbn [self store disk].
    rewrite !length_app, !length_imap, <- !app_assoc, seq_app.
    done.
Qed.

(** When the constructor of the splitter raises, the loop raises at its
    first item, before any dictionary is made. *)
Lemma process_pdf_items_raise items chunk_size chunk_overlap acc w e :
  new_splitter chunk_size chunk_overlap = Raise e →
  process_pdf_items items chunk_size chunk_overlap acc w =
    match items with
    | [] => (Ok acc, w)
    | _ :: _ => (Raise e, w)
    end.
Proof.
  intros Hnew. destruct items as [|[filename content] items]; [done|].
  cbn [process_pdf_items].
  unfold bind at 1, lift, split_text_into_chunks. by rewrite Hnew.
Qed.

Lemma split_into_chunks_from_spec scraped_data chunk_size chunk_overlap acc w :
  split_into_chunks_from scraped_data chunk_size chunk_overlap acc w =
    (Ok (acc ++ seq (length (store w))
                  (length (web_chunks_of scraped_data chunk_size chunk_overlap))),
     World (self w)
       (store w ++ web_chunks_of scraped_data chunk_size chunk_overlap) (disk w)).
Proof.
  revert acc w. induction scraped_data as [|item l IH]; intros acc w.
  - simpl. unfold ret. by rewrite !app_nil_r, world_eta.
  - rewrite web_chunks_of_cons. cbn [split_into_chunks_from].
    destruct (decide (status item = "success")).
    + unfold bind at 1. rewrite append_chunks_spec, IH. cbn [self store disk].
      rewrite !length_app, !length_imap, <- !app_assoc, seq_app.
      done.
    + by rewrite IH.
Qed.

Lemma split_into_chunks_ok scraped_data chunk_size chunk_overlap w :
  new_splitter chunk_size chunk_overlap = Ok () →
  split_into_chunks scraped_data chunk_size chunk_overlap w =
    (Ok (seq (length (store w))
           (length (web_chunks_of scraped_data chunk_size chunk_overlap))),
     World (self w)
       (store w ++ web_chunks_of scraped_data chunk_size chunk_overlap) (disk w)).
Proof.
  intros Hnew. unfold split_into_chunks, bind at 1, lift. rewrite Hnew.
  by rewrite split_into_chunks_from_spec.
Qed.

End IngestionFacts.

(** On the sample tree the second [a.pdf] replaces the first in place,
    [B.PDF] is kept, and the unreadable and the blank file leave nothing. *)
Lemma load_pdfs_keeps_readable_pdfs_witness :
  @load_pdfs_from_directory ascii_methods sample_pdf_io "Data"
    = [("a.pdf", "gamma"); ("B.PDF", "beta")] ∧
  NoDup (@load_pdfs_from_directory ascii_methods sample_pdf_io "Data").*1 ∧
  @qualifying ascii_methods sample_pdf_io "Data" "B.PDF" "beta".
Proof.
  destruct (@load_pdfs_keeps_readable_pdfs ascii_methods sample_pdf_io "Data")
    as (Hnd & Hq & _).
  split; [by vm_compute|]. split; [done|].
  apply Hq. assert (E : @load_pdfs_from_directory ascii_methods sample_pdf_io "Data"
    = [("a.pdf", "gamma"); ("B.PDF", "beta")]) by by vm_compute.
  rewrite E. right. left.
Defined.

(** ** The chunks that ingestion creates *)

Lemma contents_fresh σ (objs : list chunk) :
  contents (σ ++ objs) (seq (length σ) (length objs)) = Some <$> objs.
Proof.
  unfold contents. apply list_eq. intros j.
  rewrite !list_lookup_fmap.
  destruct (decide (j < length objs)%nat) as [Hlt|Hge].
  - rewrite lookup_seq_lt by done. simpl.
    rewrite lookup_app_r by lia.
    replace (length σ + j - length σ)%nat with j by lia.
    by destruct (lookup_lt_is_Some_2 objs j Hlt) as [o ->].
  - rewrite lookup_seq_ge by lia. simpl.
    by rewrite lookup_ge_None_2 by lia.
Qed.

Lemma pdf_chunk_key filename i t :
  chunk_key (pdf_chunk filename i t)
  = (Some (VStr filename), Some (VInt (Z.of_nat i))).
Proof.
  unfold chunk_key, pdf_chunk, pdf_meta. simpl.
  rewrite lookup_insert_eq, lookup_insert_ne by done.
  by rewrite lookup_insert_eq.
Qed.

Lemma pdf_chunk_ingested filename i t : ingested_as "pdf" (pdf_chunk filename i t).
Proof.
  unfold ingested_as, has_type, pdf_chunk, pdf_meta. simpl.
  rewrite !lookup_insert_ne by done. rewrite lookup_insert_eq.
  rewrite !lookup_insert_ne by done. by rewrite lookup_empty.
Qed.

Lemma web_chunk_ingested source i t : ingested_as "web" (web_chunk source i t).
Proof.
  unfold ingested_as, has_type, web_chunk, web_meta. simpl.
  rewrite !lookup_insert_ne by done. rewrite lookup_insert_eq.
  rewrite !lookup_insert_ne by done. by rewrite lookup_empty.
Qed.

Lemma elem_of_imap_inv {A B} (f : nat → A → B) (l : list A) y :
  y ∈ imap f l → ∃ i x, l !! i = Some x ∧ y = f i x.
Proof.
  intros Hin. apply list_elem_of_lookup in Hin as [i Hi].
  rewrite list_lookup_imap in Hi.
  destruct (l !! i) as [x|] eqn:E; [|done].
  injection Hi as <-. by exists i, x.
Qed.

Lemma NoDup_pdf_chunk_keys filename (texts : list string) :
  NoDup (chunk_key <$> imap (pdf_chunk filename) texts).
Proof.
  apply NoDup_alt. intros i j k Hi Hj.
  rewrite list_lookup_fmap, list_lookup_imap in Hi, Hj.
  destruct (texts !! i) as [ti|]; [|done].
  destruct (texts !! j) as [tj|]; [|done].
  simpl in Hi, Hj. rewrite pdf_chunk_key in Hi, Hj.
  injection Hi as <-. injection Hj as Hj. lia.
Qed.

Section ChunkFacts.
Context `{StrMethods} `{PdfIO} `{TextSplitter} `{Scraper}.

Lemma pdf_chunks_of_source items chunk_size chunk_overlap o :
  o ∈ pdf_chunks_of items chunk_size chunk_overlap →
  ∃ filename i t,
    filename ∈ items.*1 ∧ o = pdf_chunk filename i t.
Proof.
  unfold pdf_chunks_of. intros Hin.
  apply list_elem_of_In, in_concat in Hin as (l & Hl & Ho).
  apply list_elem_of_In, list_elem_of_fmap in Hl as ([f c] & -> & Hitem).
  apply list_elem_of_In, elem_of_imap_inv in Ho as (i & t & _ & ->).
  exists f, i, t. split; [|done].
  by apply (list_elem_of_fmap_2 fst _ (f, c)).
Qed.

Lemma NoDup_pdf_chunks_of_keys items chunk_size chunk_overlap :
  NoDup items.*1 →
  NoDup (chunk_key <$> pdf_chunks_of items chunk_size chunk_overlap).
Proof.
  induction items as [|[f c] items IH]; intros Hnd; [constructor|].
  rewrite pdf_chunks_of_cons, fmap_app.
  apply NoDup_cons in Hnd as [Hf Hnd].
  apply NoDup_app. split; [apply NoDup_pdf_chunk_keys|]. split; [|by apply IH].
  intros key Hk1 Hk2.
  apply list_elem_of_fmap in Hk1 as (o1 & -> & Ho1).
  apply elem_of_imap_inv in Ho1 as (i1 & t1 & _ & ->).
  apply list_elem_of_fmap in Hk2 as (o2 & Heq & Ho2).
  apply pdf_chunks_of_source in Ho2 as (f2 & i2 & t2 & Hf2 & ->).
  rewrite !pdf_chunk_key in Heq. injection Heq as -> _. done.
Qed.

Lemma web_chunks_of_ingested scraped_data chunk_size chunk_overlap :
  Forall (ingested_as "web") (web_chunks_of scraped_data chunk_size chunk_overlap).
Proof.
  apply Forall_forall. intros o Ho. unfold web_chunks_of in Ho.
  apply list_elem_of_In, in_concat in Ho as (l & Hl & Ho).
  apply list_elem_of_In, list_elem_of_fmap in Hl as (item & -> & Hitem).
  destruct (decide (status item = "success")); [|done].
  apply list_elem_of_In, elem_of_imap_inv in Ho as (i & t & _ & ->).
  apply web_chunk_ingested.
Qed.

Lemma pdf_chunks_of_ingested items chunk_size chunk_overlap :
  Forall (ingested_as "pdf") (pdf_chunks_of items chunk_size chunk_overlap).
Proof.
  apply Forall_forall. intros o Ho.
  apply pdf_chunks_of_source in Ho as (f & i & t & _ & ->).
  apply pdf_chunk_ingested.
Qed.

Lemma web_chunks_of_success scraped_data chunk_size chunk_overlap :
  web_chunks_of
    (List.filter (λ item, bool_decide (status item = "success")) scraped_data)
    chunk_size chunk_overlap
  = web_chunks_of scraped_data chunk_size chunk_overlap.
Proof.
  induction scraped_data as [|item l IH]; [done|].
  simpl. rewrite web_chunks_of_cons.
  destruct (decide (status item = "success")) as [Hs|Hs].
  - rewrite bool_decide_eq_true_2 by done.
    rewrite web_chunks_of_cons, decide_True by done. by rewrite IH.
  - rewrite bool_decide_eq_false_2 by done. by rewrite IH.
Qed.

(** X16 — the chunks of [process_pdf_directory].  The splitter is built
    once per loaded file.  When its constructor accepts the two sizes, the
    call returns handles to new dictionaries, one per piece of each loaded
    file in the order of the files and all different; it leaves the
    manager, the disk and the existing heap alone; every chunk is of type
    ["pdf"] and carries no relevance score; and no two chunks have the same
    source and [chunk_id].  When the constructor raises, the call raises
    the same exception and changes nothing, unless no file was loaded: then
    it returns the empty list. *)
Theorem process_pdf_directory_chunks directory_path chunk_size chunk_overlap w :
  let items := load_pdfs_from_directory directory_path in
  match new_splitter chunk_size chunk_overlap with
  | Ok _ =>
      let objs := pdf_chunks_of items chunk_size chunk_overlap in
      let cs := seq (length (store w)) (length objs) in
      let w' := World (self w) (store w ++ objs) (disk w) in
      process_pdf_directory directory_path chunk_size chunk_overlap w
        = (Ok cs, w') ∧
      contents (store w') cs = Some <$> objs ∧
      Forall (ingested_as "pdf") objs ∧
      NoDup (chunk_key <$> objs)
  | Raise e =>
      process_pdf_directory directory_path chunk_size chunk_overlap w
        = match items with
          | [] => (Ok [], w)
          | _ :: _ => (Raise e, w)
          end
  end.
Proof.
  intros items. unfold process_pdf_directory. fold items.
  destruct (new_splitter chunk_size chunk_overlap) as [[]|e] eqn:Hnew.
  - rewrite process_pdf_items_spec by done. simpl.
    split; [done|]. split; [apply contents_fresh|].
    split; [apply pdf_chunks_of_ingested|].
    apply NoDup_pdf_chunks_of_keys, load_pdfs_keeps_readable_pdfs.
  - by apply process_pdf_items_raise.
Qed.

(** X17 — the chunks of [split_into_chunks].  The splitter is built
    first.  When its constructor raises, the call raises the same
    exception and changes nothing, whatever the scraped data.  When it
    accepts the two sizes, the call returns handles to new dictionaries, one
    per piece of each successful item in order, all of type ["web"] and
    without a relevance score, and leaves the manager, the disk and the
    existing heap alone; scraped items whose status is not ["success"] add
    nothing: the outcome is that of the call on the successful items
    alone. *)
Theorem split_into_chunks_chunks scraped_data chunk_size chunk_overlap w :
  match new_splitter chunk_size chunk_overlap with
  | Ok _ =>
      let objs := web_chunks_of scraped_data chunk_size chunk_overlap in
      let cs := seq (length (store w)) (length objs) in
      let w' := World (self w) (store w ++ objs) (disk w) in
      split_into_chunks scraped_data chunk_size chunk_overlap w = (Ok cs, w') ∧
      contents (store w') cs = Some <$> objs ∧
      Forall (ingested_as "web") objs ∧
      split_into_chunks
        (List.filter (λ item, bool_decide (status item = "success")) scraped_data)
        chunk_size chunk_overlap w = (Ok cs, w')
  | Raise e =>
      split_into_chunks scraped_data chunk_size chunk_overlap w = (Raise e, w)
  end.
Proof.
  destruct (new_splitter chunk_size chunk_overlap) as [[]|e] eqn:Hnew.
  - rewrite !split_into_chunks_ok by done. simpl.
    split; [done|]. split; [apply contents_fresh|].
    split; [apply web_chunks_of_ingested|].
    by rewrite web_chunks_of_success.
  - unfold split_into_chunks, bind at 1, lift. by rewrite Hnew.
Qed.

End ChunkFacts.

(** ** The build script *)

Lemma filter_const {A} (f : A → bool) (b : bool) (l : list A) :
  (∀ x, x ∈ l → f x = b) → List.filter f l = if b then l else [].
Proof.
  induction l as [|x l IH]; intros Hall; [by destruct b|].
  simpl. rewrite (Hall x) by left. rewrite IH by (intros y Hy; apply Hall; by right).
  by destruct b.
Qed.

Lemma lookup_total_fresh σ (objs rest : list chunk) c :
  (length σ ≤ c < length σ + length objs)%nat →
  (σ ++ objs ++ rest) !!! c ∈ objs.
Proof.
  intros Hc. rewrite list_lookup_total_alt, lookup_app_r by lia.
  rewrite lookup_app_l by lia.
  destruct (lookup_lt_is_Some_2 objs (c - length σ)) as [o Ho]; [lia|].
  rewrite Ho. simpl. by eapply list_elem_of_lookup_2.
Qed.

(** Selecting by type among new chunks of which the first [P] are of the
    type and the others are not, and the other way round. *)
Lemma of_type_fresh_prefix σ (P R : list chunk) t :
  Forall (λ o, has_type t o = true) P →
  Forall (λ o, has_type t o = false) R →
  of_type (σ ++ P ++ R) t (seq (length σ) (length P + length R))
  = seq (length σ) (length P).
Proof.
  intros HP HR. unfold of_type. rewrite seq_app, List.filter_app.
  rewrite (filter_const _ true), (filter_const _ false); [by rewrite app_nil_r| |].
  - intros c Hc. apply elem_of_seq in Hc.
    eapply Forall_forall in HR; [exact HR|].
    replace (σ ++ P ++ R) with ((σ ++ P) ++ R ++ []) by by rewrite app_nil_r, app_assoc.
    apply lookup_total_fresh. rewrite length_app. lia.
  - intros c Hc. apply elem_of_seq in Hc.
    eapply Forall_forall in HP; [exact HP|].
    by apply lookup_total_fresh.
Qed.

Lemma of_type_fresh_suffix σ (P R : list chunk) t :
  Forall (λ o, has_type t o = false) P →
  Forall (λ o, has_type t o = true) R →
  of_type (σ ++ P ++ R) t (seq (length σ) (length P + length R))
  = seq (length σ + length P) (length R).
Proof.
  intros HP HR. unfold of_type. rewrite seq_app, List.filter_app.
  rewrite (filter_const _ false), (filter_const _ true); [done| |].
  - intros c Hc. apply elem_of_seq in Hc.
    eapply Forall_forall in HR; [exact HR|].
    replace (σ ++ P ++ R) with ((σ ++ P) ++ R ++ []) by by rewrite app_nil_r, app_assoc.
    apply lookup_total_fresh. rewrite length_app. lia.
  - intros c Hc. apply elem_of_seq in Hc.
    eapply Forall_forall in HP; [exact HP|].
    by apply lookup_total_fresh.
Qed.

Lemma ingested_as_other t1 t2 o :
  t1 ≠ t2 → ingested_as t1 o → has_type t2 o = false.
Proof. intros Hne [Ht _]. by eapply has_type_exclusive. Qed.

(** The constructor of the manager: the folder is made unless the path
    exists. *)
Lemma new_manager_spec w :
  new_manager w =
    (Ok (),
     World init_manager (store w)
       (if path_exists (disk w) "embeddings" then disk w
        else <["embeddings" := Directory]> (disk w))).
Proof.
  unfold new_manager, bind, ensure_folder, bind, get_disk, ret, set_disk.
  cbn [self store disk embeddings_folder init_manager].
  by destruct (path_exists _ _).
Qed.

Section BuildScript.
Context `{StrMethods} `{PdfIO} `{TextSplitter} `{Scraper} `{Backend}.

(** X18 — the build script end to end.  When the encoder returns a
    two-dimensional array for the texts of all ingested chunks, and the
    folder [embeddings] is absent or a directory in which neither artifact
    path is a directory, [process_pdfs.main] returns nothing and leaves the
    two artifacts of the snapshot ["university_combined"] on disk; its
    manager holds the PDF chunks of the two directories followed by the web
    chunks, all new, next to an index of the encoder's rows; selecting by
    type gives back exactly the PDF part and the web part; and a fresh
    manager's [load_embeddings()] finds the snapshot and recovers the same
    chunks in the same order. *)
Theorem build_script_end_to_end w emb D :
  let A := pdf_chunks_of
             (load_pdfs_from_directory (path_join "Data" "PDF's")) 500 200 in
  let B := pdf_chunks_of
             (load_pdfs_from_directory (path_join "Data" "Fee_structure")) 400 200 in
  let W := web_chunks_of
             (scrape_urls_from_file (path_join "Data" "Links.txt")) 600 200 in
  let base := length (store w) in
  let all := seq base (length (A ++ B) + length W) in
  let index_path := "embeddings/university_combined_index.faiss" in
  let chunks_path := "embeddings/university_combined_chunks.pkl" in
  encode (text <$> ((A ++ B) ++ W)) = Ok emb →
  nd_shape emb !! 1%nat = Some D →
  (disk w !! "embeddings" = None ∨ disk w !! "embeddings" = Some Directory) →
  disk w !! index_path ≠ Some Directory →
  disk w !! chunks_path ≠ Some Directory →
  ∃ w',
    process_pdfs_main w = (Ok (), w') ∧
    self w' = built init_manager all (FlatIP D (nd_rows emb)) ∧
    store w' = store w ++ (A ++ B) ++ W ∧
    contents (store w') all = Some <$> ((A ++ B) ++ W) ∧
    disk w' !! "embeddings" = Some Directory ∧
    disk w' !! index_path = Some (FaissFile (FlatIP D (nd_rows emb))) ∧
    disk w' !! chunks_path = Some (PickleFile (pickle_dump (store w') all)) ∧
    get_chunks_by_source_type "pdf" w' = (Ok (seq base (length (A ++ B))), w') ∧
    get_chunks_by_source_type "web" w'
      = (Ok (seq (base + length (A ++ B)) (length W)), w') ∧
    ∀ σ, ∃ cs w'',
      load_embeddings "university_combined" (World init_manager σ (disk w'))
        = (Ok true, w'') ∧
      chunks (self w'') = Some cs ∧
      contents (store w'') cs = Some <$> ((A ++ B) ++ W).
Proof.
  intros A B W base all index_path chunks_path He HD Hfolder Hip Hcp.
  set (σ3 := store w ++ (A ++ B) ++ W).
  assert (Hcont : contents σ3 all = Some <$> ((A ++ B) ++ W)).
  { unfold σ3, all. rewrite <- length_app. apply contents_fresh. }
  assert (Hlive : live σ3 all) by by eapply contents_live.
  assert (Htexts : texts_of σ3 all = text <$> ((A ++ B) ++ W)).
  { unfold texts_of. rewrite <- (contents_total _ _ _ Hcont).
    by rewrite <- list_fmap_compose. }
  set (ix := FlatIP D (nd_rows emb)).
  set (d1 := if path_exists (disk w) "embeddings" then disk w
             else <["embeddings" := Directory]> (disk w)).
  assert (Hd1 : d1 !! "embeddings" = Some Directory).
  { unfold d1, path_exists. destruct Hfolder as [Hf|Hf]; rewrite Hf.
    - rewrite bool_decide_eq_false_2 by (by intros [? ?]).
      apply lookup_insert_eq.
    - by rewrite bool_decide_eq_true_2 by done. }
  assert (Hd1' : ∀ p, p ≠ "embeddings" → d1 !! p = disk w !! p).
  { intros p Hp. unfold d1. destruct (path_exists _ _); [done|].
    by rewrite lookup_insert_ne. }
  assert (Hwi : can_write d1 index_path = true).
  { apply can_write_under; [by rewrite Hd1'|done|exact Hd1]. }
  assert (Hwc : can_write d1 chunks_path = true).
  { apply can_write_under; [by rewrite Hd1'|done|exact Hd1]. }
  set (w4 := World (built init_manager all ix) σ3 d1).
  assert (Hpdf : Forall (ingested_as "pdf") (A ++ B)).
  { apply Forall_app. split; apply pdf_chunks_of_ingested. }
  assert (Hweb : Forall (ingested_as "web") W)
    by apply web_chunks_of_ingested.
  pose proof (save_embeddings_ok "university_combined" w4 ix all
                eq_refl eq_refl Hwi Hwc) as Hsave.
  eexists. split.
  { unfold process_pdfs_main, process_pdf_directory, process_web_links.
    unfold bind at 1.
    rewrite process_pdf_items_spec by (apply new_splitter_accepts; lia).
    unfold bind at 1.
    rewrite process_pdf_items_spec by (apply new_splitter_accepts; lia).
    unfold bind at 1.
    rewrite split_into_chunks_ok by (apply new_splitter_accepts; lia).
    cbn [self store disk]. fold A B W base.
    unfold bind at 1. rewrite new_manager_spec.
    cbn [self store disk]. fold d1.
    rewrite !app_nil_l.
    assert (seq base (length A) ++ seq (length (store w ++ A)) (length B)
              ++ seq (length ((store w ++ A) ++ B)) (length W) = all) as ->.
    { unfold all. rewrite !length_app, !seq_app, <- !app_assoc. fold base.
      by rewrite Nat.add_assoc. }
    assert (((store w ++ A) ++ B) ++ W = σ3) as ->
      by (unfold σ3; by rewrite <- !app_assoc).
    unfold bind at 1.
    rewrite (create_embeddings_ok all (World init_manager σ3 d1) emb D);
      [|simpl; by rewrite Htexts|done].
    cbn [self store disk]. fold ix w4. unfold bind at 1. rewrite Hsave.
    reflexivity. }
  cbn [self store disk]. split; [done|]. split; [done|]. split; [done|].
  split.
  { rewrite !lookup_insert_ne by done. exact Hd1. }
  split.
  { rewrite lookup_insert_ne by done. apply lookup_insert_eq. }
  split; [apply lookup_insert_eq|].
  split.
  { rewrite get_chunks_by_source_type_eq. cbn [self store disk chunks built default from_option id].
    f_equal. f_equal. unfold σ3, all. apply of_type_fresh_prefix.
    - eapply Forall_impl; [exact Hpdf|]. by intros o [? _].
    - eapply Forall_impl; [exact Hweb|]. intros o Ho.
      by apply (ingested_as_other "web" "pdf"). }
  split.
  { rewrite get_chunks_by_source_type_eq. cbn [self store disk chunks built default from_option id].
    f_equal. f_equal. unfold σ3, all. apply of_type_fresh_suffix.
    - eapply Forall_impl; [exact Hpdf|]. intros o Ho.
      by apply (ingested_as_other "pdf" "web").
    - eapply Forall_impl; [exact Hweb|]. by intros o [? _]. }
  intros σ.
  destruct (load_after_save "university_combined" w4 ix all init_manager σ)
    as (paths & w5 & cs' & w6 & Hs & _ & _ & Hl & Hself & _ & Hc); try done.
  rewrite Hsave in Hs. injection Hs as _ <-.
  exists cs', w6. split; [exact Hl|]. rewrite Hself. split; [done|].
  by rewrite Hc.
Qed.

End BuildScript.

(** The build script on the sample tree, started without the folder
    [embeddings]: two PDF chunks and one web chunk. *)
Lemma build_script_end_to_end_witness :
  let w := World init_manager [] ∅ in
  ∃ w',
    @process_pdfs_main ascii_methods sample_pdf_io sample_splitter
        sample_scraper sample_backend w = (Ok (), w') ∧
    chunks (self w') = Some [0; 1; 2]%nat ∧
    disk w' !! "embeddings" = Some Directory ∧
    is_Some (disk w' !! "embeddings/university_combined_index.faiss") ∧
    is_Some (disk w' !! "embeddings/university_combined_chunks.pkl") ∧
    get_chunks_by_source_type "pdf" w' = (Ok [0; 1]%nat, w') ∧
    get_chunks_by_source_type "web" w' = (Ok [2%nat], w').
Proof.
  intros w.
  destruct (@build_script_end_to_end ascii_methods sample_pdf_io sample_splitter
              sample_scraper sample_backend w
              (NdArray [3; 2]%nat [[1 # 1; 0 # 1]; [3 # 5; 4 # 5]; [0 # 1; 1 # 1]])
              2%nat)
    as (w' & Hmain & Hself & _ & _ & Hdir & Hix & Hpk & Hpdf & Hweb & _).
  - by vm_compute.
  - reflexivity.
  - by left.
  - done.
  - done.
  - exists w'. split; [exact Hmain|]. rewrite Hself.
    split; [reflexivity|]. split; [exact Hdir|].
    split; [by eexists|]. split; [by eexists|].
    split; [exact Hpdf|exact Hweb].
Defined.

(** ** Searching twin managers *)

Lemma list_getitem_Forall2 {A B} (P : A → B → Prop) l1 l2 i x :
  Forall2 P l1 l2 →
  list_getitem l1 i = Ok x →
  ∃ y, list_getitem l2 i = Ok y ∧ P x y.
Proof.
  intros HF. unfold list_getitem. rewrite <- (Forall2_length _ _ _ HF).
  destruct (_ && _); [|done].
  destruct (l1 !! _) as [x'|] eqn:E1; [|done]. intros [= <-].
  destruct (Forall2_lookup_l _ _ _ _ _ HF E1) as (y & -> & HP).
  by exists y.
Qed.

Lemma same_position_lists cs1 cs2 :
  length cs1 = length cs2 → Forall2 (same_position cs1 cs2) cs1 cs2.
Proof.
  intros Hlen. apply Forall2_same_length_lookup_2; [done|].
  intros p c1 c2 H1 H2. by exists p.
Qed.

Lemma search_loop_same_position cs1 cs2 scores i ids res1 res2 rs r1 rs' :
  length cs1 = length cs2 →
  Forall2 (same_position cs1 cs2) res1 res2 →
  search_loop cs1 scores i ids res1 rs = Ok (r1, rs') →
  ∃ r2, search_loop cs2 scores i ids res2 rs = Ok (r2, rs') ∧
        Forall2 (same_position cs1 cs2) r1 r2.
Proof.
  intros Hlen. revert i res1 res2 rs.
  induction ids as [|idx ids IH]; intros i res1 res2 rs Hres.
  - simpl. intros [= <- <-]. by exists res2.
  - simpl. rewrite <- Hlen.
    destruct (idx <? Z.of_nat (length cs1)); [|by apply IH].
    destruct (list_getitem cs1 idx) as [c1|] eqn:E1; [|done].
    destruct (list_getitem_Forall2 _ _ _ _ _ (same_position_lists _ _ Hlen) E1)
      as (c2 & -> & Hc).
    destruct (row_getitem scores 0) as [row|]; [|done].
    destruct (row_getitem row i) as [s|]; [|done].
    apply IH. apply Forall2_app; [done|by constructor].
Qed.

Lemma clearing_Forall2 {P : loc → loc → Prop} thr l1 l2 scores :
  Forall2 P l1 l2 →
  Forall2 P (clearing thr (zip l1 scores)).*1 (clearing thr (zip l2 scores)).*1.
Proof.
  intros HF. revert scores.
  induction HF as [|x y l1 l2 Hxy HF IH]; intros [|s scores];
    try by constructor.
  unfold clearing in *. cbn [zip zip_with List.filter snd].
  destruct (score_ge s thr); [|apply IH].
  rewrite !fmap_cons. constructor; [done|apply IH].
Qed.

Lemma filter_same_position (P : loc → loc → Prop) query l1 l2 scores w1 w2 r1 w1' :
  relevance_threshold (self w1) = relevance_threshold (self w2) →
  Forall2 P l1 l2 →
  filter_relevant_chunks query l1 scores w1 = (Ok r1, w1') →
  ∃ r2 w2', filter_relevant_chunks query l2 scores w2 = (Ok r2, w2') ∧
            Forall2 P r1 r2.
Proof.
  intros Hthr HF.
  destruct (decide (l1 = [])) as [->|Hne1].
  { apply Forall2_nil_inv_l in HF as ->. intros [= <- <-].
    by exists [], w2. }
  assert (Hne2 : l2 ≠ []).
  { intros ->. by apply Forall2_nil_inv_r in HF. }
  rewrite !filter_relevant_chunks_closed by done. rewrite <- Hthr.
  pose proof (clearing_Forall2 (relevance_threshold (self w1)) _ _ scores HF)
    as Hcl.
  destruct (clearing _ (zip l1 scores)) as [|p1 k1] eqn:E1.
  - apply Forall2_nil_inv_l, fmap_nil_inv in Hcl as ->.
    destruct (np_argmax _) as [i|]; [|done].
    destruct (list_getitem scores _) as [s|]; [|done].
    destruct (list_getitem l1 _) as [c1|] eqn:Ec; [|done]. intros [= <- <-].
    destruct (list_getitem_Forall2 _ _ _ _ _ HF Ec) as (c2 & -> & Hc).
    eexists _, _. split; [done|]. by constructor.
  - destruct (clearing _ (zip l2 scores)) as [|p2 k2] eqn:E2.
    { by apply Forall2_nil_inv_r in Hcl. }
    intros [= <- <-]. by eexists _, _.
Qed.

Section Reload.
Context `{Backend}.

(** X19 — the same index gives the same answer.  Two managers with the
    same index and threshold whose chunk lists hold, position by position,
    chunks that are equal apart from the relevance score answer a query
    alike: when one search returns, so does the other, with the chunks found
    at the same positions of the two lists in the same order, and these
    chunks are again equal apart from the relevance score.  So a manager
    that loaded a snapshot answers as the one that saved it. *)
Theorem search_agrees_by_position query k w1 w2 cs1 cs2 r1 w1' :
  index (self w1) = index (self w2) →
  relevance_threshold (self w1) = relevance_threshold (self w2) →
  chunks (self w1) = Some cs1 →
  chunks (self w2) = Some cs2 →
  same_corpus (store w1) (store w2) cs1 cs2 →
  search_similar_chunks query k w1 = (Ok r1, w1') →
  ∃ r2 w2',
    search_similar_chunks query k w2 = (Ok r2, w2') ∧
    Forall2 (same_position cs1 cs2) r1 r2 ∧
    Forall2 (λ c1 c2, persistent_part <$> store w1' !! c1
                      = persistent_part <$> store w2' !! c2) r1 r2.
Proof.
  intros Hix Hthr Hcs1 Hcs2 [Hlen Hpp] Hs.
  pose proof (search_marks_only query k w1) as Hm1. rewrite Hs in Hm1.
  destruct (search_similar_chunks_inv _ _ _ _ _ Hs)
    as (ix & cs & qe & scores & indices & ids & cands & cscores
        & Hi & Hc & He & Hsearch & Hids & Hloop & Hf).
  rewrite Hcs1 in Hc. injection Hc as <-.
  destruct (search_loop_same_position cs1 cs2 _ _ _ [] [] _ _ _ Hlen
              (List.Forall2_nil _) Hloop) as (cands2 & Hloop2 & Hcands).
  destruct (filter_same_position _ query _ _ _ w1 w2 _ _ Hthr Hcands Hf)
    as (r2 & w2' & Hf2 & Hr).
  assert (Hs2 : search_similar_chunks query k w2 = (Ok r2, w2')).
  { unfold search_similar_chunks, bind at 1, get_self.
    rewrite <- Hix, Hi, Hcs2. unfold bind at 1, lift. rewrite He.
    unfold bind at 1. rewrite Hsearch. unfold bind at 1, row_getitem.
    rewrite Hids. unfold bind at 1. by rewrite Hloop2. }
  exists r2, w2'. split; [done|]. split; [done|].
  pose proof (search_marks_only query k w2) as Hm2. rewrite Hs2 in Hm2.
  destruct Hm1 as (_ & _ & _ & Hp1), Hm2 as (_ & _ & _ & Hp2).
  eapply Forall2_impl; [exact Hr|]. intros c1 c2 Hc. simpl in *.
  rewrite Hp1, Hp2. by apply Hpp.
Qed.

End Reload.

(** A manager that built and saved the three sample chunks, and a second
    one that loaded the snapshot into another heap, answer the query
    ["dim"] with the chunks at the same positions. *)
Lemma search_agrees_by_position_witness :
  let w1 := snd (@save_embeddings "kb"
              (snd (@create_embeddings sample_backend [0; 1; 2]%nat
                      (fresh_world sample_heap)))) in
  let w2 := snd (load_embeddings "kb"
              (World init_manager [Chunk "zeta" ∅] (disk w1))) in
  ∃ r1 w1' r2 w2',
    @search_similar_chunks sample_backend "dim" 5 w1 = (Ok r1, w1') ∧
    @search_similar_chunks sample_backend "dim" 5 w2 = (Ok r2, w2') ∧
    Forall2 (same_position [0; 1; 2]%nat [1; 2; 3]%nat) r1 r2.
Proof.
  intros w1 w2.
  destruct (@search_agrees_by_position sample_backend "dim" 5 w1 w2
              [0; 1; 2]%nat [1; 2; 3]%nat
              (match fst (@search_similar_chunks sample_backend "dim" 5 w1) with
               | Ok r => r | Raise _ => [] end)
              (snd (@search_similar_chunks sample_backend "dim" 5 w1)))
    as (r2 & w2' & Hs2 & Hpos & _).
  - reflexivity.
  - reflexivity.
  - reflexivity.
  - reflexivity.
  - split; [reflexivity|]. intros c1 c2 [p [H1 H2]].
    destruct p as [|[|[|p]]]; vm_compute in H1, H2; try discriminate;
      injection H1 as <-; injection H2 as <-; by vm_compute.
  - by vm_compute.
  - eexists _, _, r2, w2'. split; [by vm_compute|]. by split.
Defined.

(** ** Cleaning scraped text *)

Section CleanTextFacts.
Context {C : Type} `{EqDecision C}.
Variables (isspace : C → bool) (space newline : C).
Hypothesis space_isspace : isspace space = true.
Hypothesis newline_isspace : isspace newline = true.
Hypothesis space_not_newline : space ≠ newline.

Lemma sub_runs_spaced b text :
  spaced isspace space b (sub_runs isspace space b text) = true.
Proof.
  revert b. induction text as [|c text IH]; intros b; [done|]. simpl.
  destruct (isspace c) eqn:Ec.
  - destruct b; [apply IH|]. simpl.
    by rewrite space_isspace, bool_decide_eq_true_2, IH.
  - simpl. by rewrite Ec.
Qed.

Lemma spaced_weaken b r :
  spaced isspace space true r = true → spaced isspace space b r = true.
Proof.
  destruct r as [|c r]; [done|]. simpl. by destruct (isspace c), b.
Qed.

Lemma spaced_strip_left b r :
  spaced isspace space b r = true →
  spaced isspace space true (strip_left isspace r) = true.
Proof.
  revert b. induction r as [|c r IH]; intros b; [done|]. simpl.
  destruct (isspace c) eqn:Ec.
  - intros (_ & Hr)%andb_prop. by apply (IH true).
  - intros Hr. simpl. by rewrite Ec.
Qed.

Lemma spaced_strip_right b r :
  spaced isspace space b r = true →
  normal_from isspace space b (strip_right isspace r) = true.
Proof.
  revert b. induction r as [|c r IH]; intros b; [done|].
  cbn [spaced strip_right]. destruct (isspace c) eqn:Ec.
  - intros ((Hb & Hc)%andb_prop & Hr)%andb_prop. apply IH in Hr.
    destruct (strip_right isspace r) as [|c' r']; [done|].
    cbn [normal_from]. by rewrite Ec, Hb, Hc.
  - intros Hr. apply IH in Hr.
    destruct (strip_right isspace r) as [|c' r']; cbn [normal_from];
      by rewrite Ec.
Qed.

Lemma normal_from_spaced b r :
  normal_from isspace space b r = true → spaced isspace space b r = true.
Proof.
  revert b. induction r as [|c r IH]; intros b; [done|]. simpl.
  destruct (isspace c); [|apply IH].
  intros (-> & Hr)%andb_prop. destruct r; [done|]. by rewrite (IH true).
Qed.

Lemma spaced_sub_runs b r :
  spaced isspace space b r = true → sub_runs isspace space b r = r.
Proof.
  revert b. induction r as [|c r IH]; intros b; [done|]. simpl.
  destruct (isspace c).
  - intros ((Hb & Hc)%andb_prop & Hr)%andb_prop.
    apply negb_true_iff in Hb as ->. apply bool_decide_eq_true in Hc as ->.
    by rewrite IH.
  - intros Hr. by rewrite IH.
Qed.

Lemma spaced_no_newline b r :
  spaced isspace space b r = true → Forall (λ c, c ≠ newline) r.
Proof.
  revert b. induction r as [|c r IH]; intros b; [done|]. simpl.
  destruct (isspace c) eqn:Ec.
  - intros ((_ & Hc)%andb_prop & Hr)%andb_prop.
    apply bool_decide_eq_true in Hc as ->. constructor; [done|by eapply IH].
  - intros Hr. constructor; [congruence|by eapply IH].
Qed.

Lemma sub_newline_idle b r :
  Forall (λ c, c ≠ newline) r →
  sub_runs (λ c, bool_decide (c = newline)) newline b r = r.
Proof.
  intros Hr. revert b. induction Hr as [|c r Hc Hr IH]; intros b; [done|].
  simpl. by rewrite bool_decide_eq_false_2, IH.
Qed.

Lemma normal_from_strip_left r :
  normal_from isspace space true r = true → strip_left isspace r = r.
Proof. destruct r as [|c r]; [done|]. simpl. by destruct (isspace c). Qed.

Lemma normal_from_strip_right b r :
  normal_from isspace space b r = true → strip_right isspace r = r.
Proof.
  revert b. induction r as [|c r IH]; intros b; [done|].
  cbn [normal_from strip_right]. destruct (isspace c).
  - intros (_ & Hr)%andb_prop. destruct r as [|c' r]; [done|].
    by rewrite (IH true).
  - intros Hr. rewrite (IH false) by done. by destruct r.
Qed.

Lemma clean_text_strip_sub text :
  clean_text isspace space newline text
  = strip isspace (re_sub isspace space text).
Proof.
  unfold clean_text, re_sub. rewrite sub_newline_idle; [done|].
  eapply spaced_no_newline, sub_runs_spaced.
Qed.

Lemma normal_from_clean_text text :
  normal_from isspace space true (clean_text isspace space newline text) = true.
Proof.
  rewrite clean_text_strip_sub. unfold strip, re_sub.
  eapply spaced_strip_right, spaced_strip_left, sub_runs_spaced.
Qed.

Lemma normal_from_fixed r :
  normal_from isspace space true r = true →
  clean_text isspace space newline r = r.
Proof.
  intros Hr. rewrite clean_text_strip_sub. unfold strip, re_sub.
  rewrite spaced_sub_runs by (by apply spaced_weaken, normal_from_spaced).
  rewrite normal_from_strip_left by done.
  by eapply normal_from_strip_right.
Qed.

(** The two forms of [normalized] agree. *)
Lemma normal_from_normalized b r :
  normal_from isspace space b r = true ↔
  (∀ c, c ∈ r → isspace c = true → c = space) ∧
  (∀ i x y, r !! i = Some x → r !! S i = Some y →
            isspace x = true → isspace y = false) ∧
  (b = true → ∀ c, head r = Some c → isspace c = false) ∧
  (∀ c, last r = Some c → isspace c = false).
Proof.
  revert b. induction r as [|c r IH]; intros b.
  { split; [|done]. intros _. repeat split; try done.
    intros c Hc. by apply elem_of_nil in Hc. }
  cbn [normal_from]. destruct (isspace c) eqn:Ec.
  - split.
    + intros ((Hb & Hc)%andb_prop & Hr)%andb_prop.
      apply negb_true_iff in Hb as ->. apply bool_decide_eq_true in Hc as ->.
      destruct r as [|c' r]; [done|].
      apply (IH true) in Hr as (Hws & Hadj & Hhd & Hlast).
      repeat split; [| |done|].
      * intros x [->|Hx]%elem_of_cons; [done|by apply Hws].
      * intros [|i] x y Hx Hy Hxs; simplify_eq/=; [by apply Hhd|].
        by apply (Hadj i x y).
      * intros x Hx. apply Hlast. by rewrite last_cons_cons in Hx.
    + intros (Hws & Hadj & Hhd & Hlast).
      destruct b; [by rewrite (Hhd eq_refl c) in Ec|].
      rewrite (Hws c) by (done || by left). rewrite bool_decide_eq_true_2 by done.
      destruct r as [|c' r]; [by rewrite (Hlast c) in Ec|].
      cbn [negb andb]. apply (IH true). repeat split.
      * intros x Hx. apply Hws. by right.
      * intros i x y Hx Hy. by apply (Hadj (S i)).
      * intros _ x [= <-]. by apply (Hadj 0%nat c).
      * intros x Hx. apply Hlast. by rewrite last_cons_cons.
  - split.
    + intros Hr. apply (IH false) in Hr as (Hws & Hadj & _ & Hlast).
      repeat split.
      * intros x [->|Hx]%elem_of_cons; [congruence|by apply Hws].
      * intros [|i] x y Hx Hy Hxs; simplify_eq/=; [congruence|].
        by apply (Hadj i x y).
      * intros _ x [= <-]. done.
      * intros x Hx. destruct r as [|c' r]; [by simplify_eq/=|].
        apply Hlast. by rewrite last_cons_cons in Hx.
    + intros (Hws & Hadj & Hhd & Hlast). apply (IH false). repeat split.
      * intros x Hx. apply Hws. by right.
      * intros i x y Hx Hy. by apply (Hadj (S i)).
      * done.
      * intros x Hx. destruct r as [|c' r]; [done|].
        apply Hlast. by rewrite last_cons_cons.
Qed.

Lemma normal_from_true_normalized r :
  normal_from isspace space true r = true ↔ normalized isspace space r.
Proof.
  rewrite normal_from_normalized. unfold normalized.
  split; intros (? & ? & Hhd & ?); repeat split; try done.
  - by apply Hhd.
Qed.

(** *** Words *)

Lemma starts_word_sub_runs text :
  starts_word isspace (sub_runs isspace space false text)
  = starts_word isspace text.
Proof.
  destruct text as [|c text]; [done|]. simpl.
  destruct (isspace c) eqn:Ec; simpl; [by rewrite space_isspace|by rewrite Ec].
Qed.

Lemma words_sub_runs b text :
  words isspace (sub_runs isspace space b text) = words isspace text.
Proof.
  revert b. induction text as [|c text IH]; intros b; [done|].
  cbn [sub_runs words]. destruct (isspace c) eqn:Ec.
  - destruct b; [apply IH|]. cbn [words]. rewrite space_isspace. apply IH.
  - cbn [words]. by rewrite Ec, starts_word_sub_runs, IH.
Qed.

Lemma words_strip_left text :
  words isspace (strip_left isspace text) = words isspace text.
Proof.
  induction text as [|c text IH]; [done|]. simpl.
  destruct (isspace c) eqn:Ec; [done|]. simpl. by rewrite Ec.
Qed.

Lemma starts_word_strip_right text :
  starts_word isspace (strip_right isspace text) = starts_word isspace text.
Proof.
  destruct text as [|c text]; [done|]. cbn [strip_right].
  destruct (strip_right isspace text); [|done].
  simpl. by destruct (isspace c) eqn:Ec; simpl; rewrite ?Ec.
Qed.

Lemma words_strip_right text :
  words isspace (strip_right isspace text) = words isspace text.
Proof.
  induction text as [|c text IH]; [done|].
  cbn [words]. rewrite <- IH, <- (starts_word_strip_right text).
  cbn [strip_right].
  destruct (strip_right isspace text) as [|c' r]; cbn [words starts_word];
    by destruct (isspace c) eqn:Ec; cbn [words starts_word]; rewrite ?Ec.
Qed.

(** X20 — the newline pass of [_clean_text] is idle.  After the first
    substitution has turned every run of whitespace into one space, the
    second one, [re.sub(r'\n+', '\n', text)], finds nothing to replace: the
    result is the stripped output of the first substitution, and it holds
    no newline, so the title, the URL and the body of a page end up on one
    line. *)
Theorem clean_text_newline_pass_idle text :
  let spaced_text := re_sub isspace space text in
  re_sub (λ c, bool_decide (c = newline)) newline spaced_text = spaced_text ∧
  clean_text isspace space newline text = strip isspace spaced_text ∧
  newline ∉ clean_text isspace space newline text.
Proof.
  intros spaced_text. split; [|split].
  - apply sub_newline_idle. eapply spaced_no_newline, sub_runs_spaced.
  - apply clean_text_strip_sub.
  - intros Hin.
    pose proof (normal_from_spaced _ _ (normal_from_clean_text text)) as Hs.
    apply spaced_no_newline in Hs. rewrite Forall_forall in Hs.
    by apply (Hs newline).
Qed.

(** X21 — the normal form of cleaned text.  In the text [_clean_text]
    returns, whitespace occurs only as single spaces between other
    characters; its words are those of the input, in order; cleaning it
    again changes nothing; and the texts that cleaning leaves as they are
    are exactly those of this form. *)
Theorem clean_text_normal_form text :
  normalized isspace space (clean_text isspace space newline text) ∧
  words isspace (clean_text isspace space newline text) = words isspace text ∧
  clean_text isspace space newline (clean_text isspace space newline text)
    = clean_text isspace space newline text ∧
  ∀ r, clean_text isspace space newline r = r ↔ normalized isspace space r.
Proof.
  split; [|split; [|split]].
  - apply normal_from_true_normalized, normal_from_clean_text.
  - rewrite clean_text_strip_sub. unfold strip, re_sub.
    by rewrite words_strip_right, words_strip_left, words_sub_runs.
  - apply normal_from_fixed, normal_from_clean_text.
  - intros r. split.
    + intros <-. apply normal_from_true_normalized, normal_from_clean_text.
    + intros Hr. by apply normal_from_fixed, normal_from_true_normalized.
Qed.

End CleanTextFacts.

(** On the sample page the header lines and the body end up on one line. *)
Lemma clean_text_newline_pass_idle_witness :
  clean_text ascii_space " "%char newline_char sample_page
    = String.list_ascii_of_string "Title: Fees URL: u.edu Tuition due" ∧
  newline_char ∉ clean_text ascii_space " "%char newline_char sample_page.
Proof.
  destruct (clean_text_newline_pass_idle ascii_space " "%char newline_char
              eq_refl eq_refl ltac:(done) sample_page) as (_ & _ & Hno).
  split; [by vm_compute|exact Hno].
Defined.

(** The words of the sample page. *)
Lemma words_sample_page :
  words ascii_space sample_page
  = String.list_ascii_of_string
      <$> ["Title:"; "Fees"; "URL:"; "u.edu"; "Tuition"; "due"].
Proof. by vm_compute. Qed.

(** The words of the sample page are those of its cleaned text. *)
Lemma clean_text_normal_form_witness :
  words ascii_space (clean_text ascii_space " "%char newline_char sample_page)
    = String.list_ascii_of_string
        <$> ["Title:"; "Fees"; "URL:"; "u.edu"; "Tuition"; "due"] ∧
  normalized ascii_space " "%char
    (clean_text ascii_space " "%char newline_char sample_page).
Proof.
  destruct (clean_text_normal_form ascii_space " "%char newline_char
              eq_refl eq_refl ltac:(done) sample_page) as (Hn & Hw & _).
  split; [exact (eq_trans Hw words_sample_page)|exact Hn].
Defined.

(** ** Small talk *)

Lemma prefix_app a y : String.prefix a (a +:+ y) = true.
Proof.
  induction a as [|c a IH]; [by destruct y|]. rewrite string_app_cons.
  cbn [String.prefix]. by destruct (ascii_dec c c).
Qed.

Lemma prefix_inv a s : String.prefix a s = true → ∃ y, s = a +:+ y.
Proof.
  revert s. induction a as [|c a IH]; intros s; [by exists s|].
  destruct s as [|c' s]; [done|]. simpl.
  destruct (ascii_dec c c') as [<-|]; [|done].
  intros [y ->]%IH. by exists y.
Qed.

Lemma str_in_unfold needle c hay :
  str_in needle (String c hay)
  = if String.prefix needle (String c hay) then true else str_in needle hay.
Proof. reflexivity. Qed.

(** [needle in hay] holds exactly when [hay] is [x + needle + y]. *)
Lemma str_in_iff needle hay :
  str_in needle hay = true ↔ ∃ x y, hay = x +:+ needle +:+ y.
Proof.
  split.
  - induction hay as [|c hay IH].
    + change (str_in needle "")
        with (if String.prefix needle "" then true else false).
      destruct (String.prefix needle "") eqn:E; [|done].
      intros _. apply prefix_inv in E as [y ->]. by exists "", y.
    + rewrite str_in_unfold.
      destruct (String.prefix needle (String c hay)) eqn:E.
      * intros _. apply prefix_inv in E as [y ->]. by exists "", y.
      * intros (x & y & ->)%IH. by exists (String c x), y.
  - intros (x & y & ->). induction x as [|c x IH].
    + change ("" +:+ needle +:+ y) with (needle +:+ y).
      pose proof (prefix_app needle y) as Hp.
      destruct (needle +:+ y) as [|c s];
        [change (str_in needle "")
           with (if String.prefix needle "" then true else false)
        |rewrite str_in_unfold]; by rewrite Hp.
    + rewrite string_app_cons, str_in_unfold, IH. by destruct (String.prefix _ _).
Qed.

Lemma string_app_assoc a b c : (a +:+ b) +:+ c = a +:+ b +:+ c.
Proof.
  induction a as [|x a IH]; [done|]. by rewrite !string_app_cons, IH.
Qed.

(** Occurrence is transitive. *)
Lemma str_in_trans a b c :
  str_in a b = true → str_in b c = true → str_in a c = true.
Proof.
  rewrite !str_in_iff. intros (x & y & ->) (x' & y' & ->).
  exists (x' +:+ x), (y +:+ y'). by rewrite !string_app_assoc.
Qed.

(** A phrase that contains another phrase of the list adds nothing. *)
Lemma str_in_absorb a b s :
  str_in a b = true → str_in a s || str_in b s = str_in a s.
Proof.
  intros Hab. destruct (str_in a s) eqn:Ea; [done|]. simpl.
  destruct (str_in b s) eqn:Eb; [|done].
  by rewrite (str_in_trans a b s Hab Eb) in Ea.
Qed.

Section SmallTalkFacts.
Context `{StrMethods}.

(** X22 — the replies of [_handle_small_talk].  The call never raises,
    and its reply is decided by the lower-cased, stripped question alone:
    the greeting reply for a greeting; otherwise the reply of the first
    category, in the order thanks, goodbye, help, capabilities, identity, of
    which a phrase occurs in it, and [None] when there is none.  The phrases
    ["thanks"], ["thank you"] and ["goodbye"] never decide anything, as
    ["thank"] and ["bye"] occur wherever they do. *)
Theorem small_talk_decision_table question :
  let q := str_strip (str_lower question) in
  handle_small_talk question = Returns (
    if is_greeting q then Some greeting_response
    else if mentions ["thank"; "appreciate"] q then Some thanks_response
    else if mentions ["bye"; "see you"; "farewell"; "good night"] q
      then Some goodbye_response
    else if mentions ["help me"; "assist"; "support"; "guidance"] q
      then Some help_response
    else if mentions ["what can you do"; "how can you help";
                      "your capabilities"] q
      then Some capabilities_response
    else if mentions ["who are you"; "what are you"; "your name"] q
      then Some identity_response
    else None).
Proof.
  intros q. unfold handle_small_talk. fold q.
  destruct (is_greeting q); [done|].
  unfold small_talk_patterns, mentions. cbn [small_talk_loop existsb].
  rewrite !orb_false_r.
  assert (str_in "thank" q || (str_in "thanks" q || (str_in "thank you" q
            || str_in "appreciate" q))
          = str_in "thank" q || str_in "appreciate" q) as ->.
  { rewrite (orb_assoc (str_in "thanks" q)), orb_assoc, orb_assoc.
    rewrite (str_in_absorb "thank" "thanks") by reflexivity.
    by rewrite (str_in_absorb "thank" "thank you") by reflexivity. }
  destruct (str_in "thank" q || str_in "appreciate" q); [done|].
  assert (str_in "bye" q || (str_in "goodbye" q || (str_in "see you" q
            || (str_in "farewell" q || str_in "good night" q)))
          = str_in "bye" q || (str_in "see you" q
            || (str_in "farewell" q || str_in "good night" q))) as ->.
  { rewrite orb_assoc.
    by rewrite (str_in_absorb "bye" "goodbye") by reflexivity. }
  destruct (str_in "bye" q || _); [done|].
  destruct (str_in "help me" q || _); [done|].
  destruct (str_in "what can you do" q || _); [done|].
  by destruct (str_in "who are you" q || _).
Qed.

End SmallTalkFacts.
